(** * Kaleidoscope front end: lexer and precedence-climbing parser

    A shallow embedding of [lexer.h], [ast.h] and [parser.h].  The C++
    globals ([LastChar], [IdentifierStr], [NumVal], [CurTok],
    [BinopPrecedence]) together with standard input and the diagnostic
    stream form one explicit [state] record that every operation threads.

    - Standard input is a finite string; once it is exhausted [getchar]
      keeps returning [EOF].
    - [int] values (characters, tokens, precedences) are integers of [Z];
      the only arithmetic on them is [tokPrec + 1] on a stored precedence.
    - [double] is binary64 in the [spec_float] representation, and
      [strtod] rounds the decimal it reads to the nearest double.
    - [std::map<char, int>] is a [gmap ascii Z]; [operator[]] inserts a
      zero entry for an absent key, as in the source.
    - Loops that read characters recurse on the remaining input; the
      recursive-descent functions carry a fuel argument, and running out
      of fuel (an outer [None]) is kept apart from a parse failure (the
      source's [nullptr], an inner [None]).
    - Every [std::make_unique] is recorded in the state, so that a run
      shows which nodes it constructed. *)

From Stdlib Require Import ZArith String Ascii List Lia Bool.
From Stdlib Require Import Floats.SpecFloat.
From stdpp Require Import gmap strings.

Local Open Scope string_scope.
Local Open Scope Z_scope.
Set Warnings "-register-all".

(** * The embedding *)

(** ** The C library pieces the lexer relies on *)

Module Ctype.

(** [EOF] as returned by [getchar]; it differs from every character
    code [0..255]. *)
Definition EOF : Z := -1.

(** Classification in the "C" locale (the program never calls
    [setlocale]).  Each predicate is false at [EOF]. *)
Definition isspace (c : Z) : bool := (c =? 32) || ((9 <=? c) && (c <=? 13)).
Definition isdigit (c : Z) : bool := (48 <=? c) && (c <=? 57).
Definition isalpha (c : Z) : bool :=
  ((65 <=? c) && (c <=? 90)) || ((97 <=? c) && (c <=? 122)).
Definition isalnum (c : Z) : bool := isalpha c || isdigit c.
Definition isascii (c : Z) : bool := (0 <=? c) && (c <=? 127).

(** Character codes: [getchar] returns the byte as a non-negative int. *)
Definition code (a : ascii) : Z := Z.of_N (N_of_ascii a).
Definition chr (c : Z) : ascii := ascii_of_N (Z.to_N c).

End Ctype.
Import Ctype.

Module Strtod.

(** [double] is IEEE-754 binary64, in the kernel-independent
    [spec_float] representation. *)
Definition double : Type := spec_float.
Definition prec : Z := 53.
Definition emax : Z := 1024.

(** Decimal digits of a string prefix: returns the accumulated integer,
    the number of digits read and the rest of the string. *)
Fixpoint digits (s : string) (acc : Z) (n : Z) : Z * Z * string :=
  match s with
  | String a rest =>
      if isdigit (code a) then digits rest (10 * acc + (code a - 48)) (n + 1)
      else (acc, n, s)
  | EmptyString => (acc, n, s)
  end.

(** The correctly rounded (to nearest, ties to even) binary64 value of
    [m / 10^k] for [0 <= m] and [0 <= k]. *)
Definition of_decimal (m k : Z) : double :=
  match m with
  | Z0 => S754_zero false
  | _ =>
      let '(q, e, l) := SFdiv_core_binary prec emax m 0 (10 ^ k) 0 in
      binary_round_aux prec emax false q e l
  end.

(** [strtod(s, 0)] on the strings the lexer builds (characters among
    [0-9] and '.'): the longest prefix of the shape digits, optional
    point, digits is converted; with no digit at all no conversion is
    performed and the result is zero. *)
Definition strtod (s : string) : double :=
  let '(ip, ni, rest) := digits s 0 0 in
  let '(m, nf) :=
    match rest with
    | String "."%char frac => let '(m, nf, _) := digits frac ip 0 in (m, nf)
    | _ => (ip, 0)
    end in
  if (ni + nf =? 0) then S754_zero false else of_decimal m nf.

(** The double nearest to an integer, for writing expected values. *)
Definition of_Z (z : Z) : double := of_decimal z 0.

End Strtod.
Import Strtod.

(** ** ast.h *)

Inductive ExprAST : Type :=
| NumberExprAST (value : double)
| VariableExprAST (name : string)
| BinaryExprAST (op : ascii) (LHS RHS : ExprAST)
| CallExprAST (callee : string) (args : list ExprAST).

Record PrototypeAST : Type :=
  mkPrototypeAST { proto_name : string; proto_args : list string }.

Record FunctionAST : Type :=
  mkFunctionAST { prototype : PrototypeAST; body : ExprAST }.

(** The classes of [ast.h]; every [std::make_unique<...>] is recorded in
    the state under its class, so that a run tells which nodes it built,
    also the ones it dropped on a failure path. *)
Inductive NodeKind : Type :=
| NumberNode | VariableNode | BinaryNode | CallNode | PrototypeNode | FunctionNode.

(** ** Program state *)

Record state : Type := mkState {
  stdin : string;                   (* characters not yet read *)
  LastChar : Z;                     (* gettok's static lookahead *)
  IdentifierStr : string;           (* lexer.h:28 *)
  NumVal : double;                  (* lexer.h:29 *)
  CurTok : Z;                       (* parser.h:18 *)
  BinopPrecedence : gmap ascii Z;   (* parser.h:125 *)
  stderr : list string;             (* what fprintf(stderr, ...) wrote, oldest first *)
  constructed : list NodeKind       (* make_unique calls, oldest first *)
}.

Definition set_input (c : Z) (rest : string) (st : state) : state :=
  mkState rest c (IdentifierStr st) (NumVal st) (CurTok st)
          (BinopPrecedence st) (stderr st) (constructed st).
Definition set_IdentifierStr (s : string) (st : state) : state :=
  mkState (stdin st) (LastChar st) s (NumVal st) (CurTok st)
          (BinopPrecedence st) (stderr st) (constructed st).
Definition set_NumVal (d : double) (st : state) : state :=
  mkState (stdin st) (LastChar st) (IdentifierStr st) d (CurTok st)
          (BinopPrecedence st) (stderr st) (constructed st).
Definition set_CurTok (t : Z) (st : state) : state :=
  mkState (stdin st) (LastChar st) (IdentifierStr st) (NumVal st) t
          (BinopPrecedence st) (stderr st) (constructed st).
Definition set_BinopPrecedence (m : gmap ascii Z) (st : state) : state :=
  mkState (stdin st) (LastChar st) (IdentifierStr st) (NumVal st) (CurTok st)
          m (stderr st) (constructed st).
Definition write_stderr (s : string) (st : state) : state :=
  mkState (stdin st) (LastChar st) (IdentifierStr st) (NumVal st) (CurTok st)
          (BinopPrecedence st) (stderr st ++ [s]) (constructed st).
Definition record_node (k : NodeKind) (st : state) : state :=
  mkState (stdin st) (LastChar st) (IdentifierStr st) (NumVal st) (CurTok st)
          (BinopPrecedence st) (stderr st) (constructed st ++ [k]).

(** The state at program start: [LastChar] is initialised to a space,
    the other statics are zero-initialised. *)
Definition initial_state (input : string) : state :=
  mkState input 32 "" (S754_zero false) 0 ∅ [] [].

(** ** lexer.h *)

Definition tok_eof : Z := -1.
Definition tok_def : Z := -2.
Definition tok_extern : Z := -3.
Definition tok_identifier : Z := -4.
Definition tok_number : Z := -5.

(** One [getchar()]: the next byte, or [EOF] for good once the input is
    exhausted. *)
Definition getchar (inp : string) : Z * string :=
  match inp with
  | EmptyString => (EOF, EmptyString)
  | String a rest => (code a, rest)
  end.

(** [LastChar = getchar()] repeated for as long as the character read
    satisfies [p]: the characters accepted, the first one refused (the
    new [LastChar]) and the input left.  Every [p] used below is false at
    [EOF], so the loop stops there. *)
Fixpoint getchar_while (p : Z -> bool) (inp : string) : string * Z * string :=
  match inp with
  | EmptyString => (EmptyString, EOF, EmptyString)
  | String a rest =>
      if p (code a) then
        let '(acc, c, r) := getchar_while p rest in (String a acc, c, r)
      else (EmptyString, code a, rest)
  end.

(** The loop conditions of the number and the comment branch:
    [isdigit(c) || c == '.'] and [c != EOF && c != '\n' && c != '\r']. *)
Definition number_char (c : Z) : bool := isdigit c || (c =? 46).
Definition comment_char (c : Z) : bool :=
  negb (c =? EOF) && negb (c =? 10) && negb (c =? 13).

(** [while (isspace(LastChar)) LastChar = getchar();], lexer.h:37-38. *)
Definition skip_whitespace (st : state) : state :=
  if isspace (LastChar st) then
    let '(_, c, r) := getchar_while isspace (stdin st) in set_input c r st
  else st.

(** [gettok], lexer.h:32-90.  The only recursion is the call after a
    comment, which happens after at least one character was read. *)
Fixpoint gettok_rec (fuel : nat) (st : state) : option (Z * state) :=
  match fuel with
  | O => None
  | S fuel =>
      (* Skip any whitespace. *)
      let st := skip_whitespace st in
      if isalpha (LastChar st) then
        (* Identifier: [a-zA-Z][a-zA-Z0-9]* *)
        let '(acc, c, r) := getchar_while isalnum (stdin st) in
        let id := String (chr (LastChar st)) acc in
        let st := set_input c r (set_IdentifierStr id st) in
        if String.eqb id "def" then Some (tok_def, st)
        else if String.eqb id "extern" then Some (tok_extern, st)
        else Some (tok_identifier, st)
      else if number_char (LastChar st) then
        (* Number: [0-9.]+ *)
        let '(acc, c, r) := getchar_while number_char (stdin st) in
        let NumStr := String (chr (LastChar st)) acc in
        Some (tok_number, set_input c r (set_NumVal (strtod NumStr) st))
      else if LastChar st =? 35 (* '#' *) then
        (* Comment until end of line. *)
        let '(_, c, r) := getchar_while comment_char (stdin st) in
        let st := set_input c r st in
        if negb (c =? EOF) then gettok_rec fuel st
        else Some (tok_eof, st)   (* falls through to the end-of-file check *)
      else if LastChar st =? EOF then
        (* Check for end of file.  Don't eat the EOF. *)
        Some (tok_eof, st)
      else
        (* Otherwise, just return the character as its ascii value. *)
        let thisChar := LastChar st in
        let '(c, r) := getchar (stdin st) in
        Some (thisChar, set_input c r st)
  end.

(** One more unit of fuel than there are unread characters covers every
    recursive call ([gettok_total] below). *)
Definition gettok (st : state) : option (Z * state) :=
  gettok_rec (S (String.length (stdin st))) st.

(** ** parser.h *)

(** Computations over the program state; [None] is "out of fuel". *)
Definition M (A : Type) : Type := state -> option (A * state).

Definition ret {A} (a : A) : M A := fun st => Some (a, st).
Definition bind {A B} (m : M A) (k : A -> M B) : M B :=
  fun st => match m st with
            | Some (a, st') => k a st'
            | None => None
            end.
Definition gets {A} (f : state -> A) : M A := fun st => Some (f st, st).
Definition modify (f : state -> state) : M unit := fun st => Some (tt, f st).
Definition out_of_fuel {A} : M A := fun _ => None.

Notation "'let*' x ':=' m 'in' k" := (bind m (fun x => k))
  (at level 10, x name, m at level 100, k at level 200).

Definition newline : string := String (chr 10) "".

Definition getNextToken : M Z :=
  fun st => match gettok st with
            | Some (t, st') => Some (t, set_CurTok t st')
            | None => None
            end.

Definition make_unique (k : NodeKind) : M unit := modify (record_node k).

(** [LogError] and [LogErrorP]: print and return [nullptr]. *)
Definition LogError {A} (str : string) : M (option A) :=
  let* _ := modify (write_stderr ("Error: " ++ str ++ newline)) in ret None.
Definition LogErrorP (str : string) : M (option PrototypeAST) := LogError str.

(** [int] to [char], as in [BinopPrecedence[CurTok]] and in the
    [BinaryExprAST] constructor call. *)
Definition to_char (c : Z) : ascii := chr (c mod 256).

Definition BinaryOperatorsInstalled (st : state) : bool :=
  negb (bool_decide (BinopPrecedence st = ∅)).

Definition InstallBinaryOperators : M unit :=
  fun st =>
    if BinaryOperatorsInstalled st then Some (tt, st)
    else
      Some (tt, set_BinopPrecedence
                  (<["*"%char := 40]> (<["-"%char := 20]> (<["+"%char := 20]>
                     (<["<"%char := 10]> (BinopPrecedence st))))) st).

(** [std::map::operator[]]: the value stored under the key, after
    inserting a value-initialised (zero) entry when the key is absent. *)
Definition map_subscript (k : ascii) (m : gmap ascii Z) : Z * gmap ascii Z :=
  match m !! k with
  | Some v => (v, m)
  | None => (0, <[k := 0]> m)
  end.

Definition GetTokPrecendence : M Z :=
  let* tok := gets CurTok in
  if negb (isascii tok) then ret (-1)
  else
    let* installed := gets BinaryOperatorsInstalled in
    if negb installed then
      let* _ := @LogError ExprAST "Binary operators are not installed yet." in
      ret (-2)
    else
      fun st =>
        let '(tokPrec, m) := map_subscript (to_char tok) (BinopPrecedence st) in
        let st := set_BinopPrecedence m st in
        if tokPrec <=? 0 then Some (-1, st) else Some (tokPrec, st).

(** numberexpr ::= number *)
Definition ParseNumberExpr : M (option ExprAST) :=
  let* v := gets NumVal in
  let* _ := make_unique NumberNode in
  let result := NumberExprAST v in
  let* _ := getNextToken in   (* consume the number *)
  ret (Some result).

(** The recursive-descent functions, parser.h:47-214.  [while (true)]
    loops become recursive calls: [ParseIdentifierExpr_args] is the
    argument loop of [ParseIdentifierExpr] (lines 78-92), and the loop of
    [ParseBinOpRHS] continues through a call with the merged [LHS]. *)
Fixpoint ParsePrimary (fuel : nat) : M (option ExprAST) :=
  match fuel with
  | O => out_of_fuel
  | S fuel =>
      let* tok := gets CurTok in
      if tok =? tok_identifier then ParseIdentifierExpr fuel
      else if tok =? tok_number then ParseNumberExpr
      else if tok =? 40 (* '(' *) then ParseParenExpr fuel
      else LogError "Unknown token when expecting an expression."
  end

(** parenexpr ::= '(' expression ')' *)
with ParseParenExpr (fuel : nat) : M (option ExprAST) :=
  match fuel with
  | O => out_of_fuel
  | S fuel =>
      let* _ := getNextToken in   (* consume (. *)
      let* expression := ParseExpression fuel in
      match expression with
      | None => ret None
      | Some expression =>
          let* tok := gets CurTok in
          if negb (tok =? 41 (* ')' *)) then LogError "expected ')'"
          else
            let* _ := getNextToken in   (* consume ). *)
            ret (Some expression)
      end
  end

(** identifierexpr ::= identifier | identifier '(' expression* ')' *)
with ParseIdentifierExpr (fuel : nat) : M (option ExprAST) :=
  match fuel with
  | O => out_of_fuel
  | S fuel =>
      let* idName := gets IdentifierStr in
      let* _ := getNextToken in   (* consume the identifier. *)
      let* tok := gets CurTok in
      if negb (tok =? 40 (* '(' *)) then   (* Simple variable ref. *)
        let* _ := make_unique VariableNode in
        ret (Some (VariableExprAST idName))
      else
        let* _ := getNextToken in   (* consume (. *)
        let* tok := gets CurTok in
        let* args :=
          (if negb (tok =? 41 (* ')' *)) then ParseIdentifierExpr_args fuel []
           else ret (Some [])) in
        match args with
        | None => ret None
        | Some args =>
            let* _ := getNextToken in   (* Consume the ')'. *)
            let* _ := make_unique CallNode in
            ret (Some (CallExprAST idName args))
        end
  end

with ParseIdentifierExpr_args (fuel : nat) (args : list ExprAST)
  : M (option (list ExprAST)) :=
  match fuel with
  | O => out_of_fuel
  | S fuel =>
      let* arg := ParseExpression fuel in
      match arg with
      | None => ret None
      | Some arg =>
          let args := (args ++ [arg])%list in
          let* tok := gets CurTok in
          if tok =? 41 (* ')' *) then ret (Some args)
          else if negb (tok =? 44 (* ',' *)) then
            LogError "Expected ')' or ',' in argument list"
          else
            let* _ := getNextToken in
            ParseIdentifierExpr_args fuel args
      end
  end

(** expression ::= primary binoprhs *)
with ParseExpression (fuel : nat) : M (option ExprAST) :=
  match fuel with
  | O => out_of_fuel
  | S fuel =>
      let* LHS := ParsePrimary fuel in
      match LHS with
      | None => ret None
      | Some LHS => ParseBinOpRHS fuel 0 LHS
      end
  end

(** binoprhs ::= ('+' primary)* *)
with ParseBinOpRHS (fuel : nat) (exprPrec : Z) (LHS : ExprAST)
  : M (option ExprAST) :=
  match fuel with
  | O => out_of_fuel
  | S fuel =>
      let* tokPrec := GetTokPrecendence in
      if tokPrec <? exprPrec then ret (Some LHS)   (* done *)
      else
        let* binOp := gets CurTok in
        let* _ := getNextToken in   (* consume binop *)
        let* RHS := ParsePrimary fuel in
        match RHS with
        | None => ret None
        | Some RHS =>
            let* nextPrec := GetTokPrecendence in
            let* RHS :=
              (if tokPrec <? nextPrec then ParseBinOpRHS fuel (tokPrec + 1) RHS
               else ret (Some RHS)) in
            match RHS with
            | None => ret None
            | Some RHS =>
                let* _ := make_unique BinaryNode in
                ParseBinOpRHS fuel exprPrec (BinaryExprAST (to_char binOp) LHS RHS)
            end
        end
  end.

(** The loop [while (getNextToken() == tok_identifier)
    argNames.push_back(IdentifierStr);] of [ParsePrototype]. *)
Fixpoint ParsePrototype_args (fuel : nat) (argNames : list string)
  : M (list string) :=
  match fuel with
  | O => out_of_fuel
  | S fuel =>
      let* tok := getNextToken in
      if tok =? tok_identifier then
        let* id := gets IdentifierStr in
        ParsePrototype_args fuel (argNames ++ [id])%list
      else ret argNames
  end.

(** prototype ::= id '(' id* ')' *)
Definition ParsePrototype (fuel : nat) : M (option PrototypeAST) :=
  let* tok := gets CurTok in
  if negb (tok =? tok_identifier) then
    LogErrorP "Expected function name in prototype"
  else
    let* fnName := gets IdentifierStr in
    let* _ := getNextToken in
    let* tok := gets CurTok in
    if negb (tok =? 40 (* '(' *)) then LogErrorP "Expected '(' in prototype"
    else
      (* Read the list of argument names. *)
      let* argNames := ParsePrototype_args fuel [] in
      let* tok := gets CurTok in
      if negb (tok =? 41 (* ')' *)) then LogErrorP "Expected ')' in prototype"
      else
        let* _ := getNextToken in   (* consume ')'. *)
        let* _ := make_unique PrototypeNode in
        ret (Some (mkPrototypeAST fnName argNames)).

(** definition ::= 'def' prototype expression *)
Definition ParseDefinition (fuel : nat) : M (option FunctionAST) :=
  let* _ := getNextToken in   (* consume 'def'. *)
  let* prototype := ParsePrototype fuel in
  match prototype with
  | None => ret None
  | Some prototype =>
      let* expression := ParseExpression fuel in
      match expression with
      | Some expression =>
          let* _ := make_unique FunctionNode in
          ret (Some (mkFunctionAST prototype expression))
      | None => ret None
      end
  end.

(** external ::= 'extern' prototype *)
Definition ParseExtern (fuel : nat) : M (option PrototypeAST) :=
  let* _ := getNextToken in   (* consume 'extern'. *)
  ParsePrototype fuel.

(** toplevelexpr ::= expression *)
Definition ParseTopLevelExpr (fuel : nat) : M (option FunctionAST) :=
  let* expression := ParseExpression fuel in
  match expression with
  | Some expression =>
      (* Make an anonymous prototype. *)
      let* _ := make_unique PrototypeNode in
      let prototype := mkPrototypeAST "" [] in
      let* _ := make_unique FunctionNode in
      ret (Some (mkFunctionAST prototype expression))
  | None => ret None
  end.

(** Top-level parsing, parser.h:276-325. *)
Definition fprintf_stderr (s : string) : M unit := modify (write_stderr s).

Definition HandleDefinition (fuel : nat) : M unit :=
  let* r := ParseDefinition fuel in
  match r with
  | Some _ => fprintf_stderr ("Parsed a function definition." ++ newline)
  | None => let* _ := getNextToken in ret tt   (* Skip token for error recovery. *)
  end.

Definition HandleExtern (fuel : nat) : M unit :=
  let* r := ParseExtern fuel in
  match r with
  | Some _ => fprintf_stderr ("Parsed an extern" ++ newline)
  | None => let* _ := getNextToken in ret tt
  end.

Definition HandleTopLevelExpression (fuel : nat) : M unit :=
  let* r := ParseTopLevelExpr fuel in
  match r with
  | Some _ => fprintf_stderr ("Parsed a top-level expr" ++ newline)
  | None => let* _ := getNextToken in ret tt
  end.

Fixpoint MainLoop (fuel : nat) : M unit :=
  match fuel with
  | O => out_of_fuel
  | S fuel =>
      let* _ := fprintf_stderr "ready> " in
      let* tok := gets CurTok in
      if tok =? tok_eof then ret tt
      else if tok =? 59 (* ';' *) then   (* ignore top-level semicolons. *)
        let* _ := getNextToken in MainLoop fuel
      else if tok =? tok_def then
        let* _ := HandleDefinition fuel in MainLoop fuel
      else if tok =? tok_extern then
        let* _ := HandleExtern fuel in MainLoop fuel
      else
        let* _ := HandleTopLevelExpression fuel in MainLoop fuel
  end.

(** ** Running the parser on an input text

    Every parse function assumes that [CurTok] is the token to parse, so
    a run first reads one token; the table is installed before that when
    [installed] is set (the driver's duty before the first parse). *)
Definition start (installed : bool) : M unit :=
  let* _ := (if installed then InstallBinaryOperators else ret tt) in
  let* _ := getNextToken in
  ret tt.

Definition parse_input {A} (installed : bool) (p : M A) (input : string)
  : option (A * state) :=
  (let* _ := start installed in p) (initial_state input).

(** * Vocabulary of the properties *)

(** ** Fuel and results *)

(** [le m m']: whatever [m] returns, [m'] returns as well.  Used between
    a function at some fuel and the same function at more fuel. *)
Definition le {A} (m m' : M A) : Prop :=
  forall st r, m st = Some r -> m' st = Some r.

(** [returns p st]: started in [st], [p] comes back with a result (a tree
    or [nullptr]) once it is given enough fuel. *)
Definition returns {A} (p : nat -> M A) (st : state) : Prop :=
  exists f r, p f st = Some r.

(** [preserves R m]: every run of [m] relates the state it starts in to
    the state it ends in by [R]. *)
Definition preserves {A} (R : state -> state -> Prop) (m : M A) : Prop :=
  forall st a st', m st = Some (a, st') -> R st st'.

(** ** Expected values *)

(** The literal [z] as the lexer and [ParseNumberExpr] deliver it. *)
Definition Num (z : Z) : ExprAST := NumberExprAST (of_Z z).

(** What [LogError msg] writes. *)
Definition error_line (msg : string) : string := "Error: " ++ msg ++ newline.

Definition not_installed_line : string :=
  error_line "Binary operators are not installed yet.".

(** The table that [InstallBinaryOperators] builds from the empty one. *)
Definition installed_table : gmap ascii Z :=
  <["*"%char := 40]> (<["-"%char := 20]> (<["+"%char := 20]>
    (<["<"%char := 10]> ∅))).

(** The state in which the first token of [input] is read, with the table
    installed or not. *)
Definition prepared (installed : bool) (input : string) : state :=
  set_BinopPrecedence (if installed then installed_table else ∅)
                      (initial_state input).

Definition after_install (input : string) : state := prepared true input.

(** How the parse of "foo(" ends: one diagnostic, the one of
    [ParsePrimary], and no node constructed, so no [CallExprAST]. *)
Definition rejected_without_call (st : state) : Prop :=
  stderr st = [error_line "Unknown token when expecting an expression."] /\
  ~ In CallNode (constructed st) /\
  constructed st = [].

(** The text [1 o1 2 o2 3] without the spaces. *)
Definition chain (o1 o2 : ascii) : string :=
  String "1" (String o1 (String "2" (String o2 "3"))).

(** States for exercising the precedence query: a given table and current
    token; [queried_table] is the installed table after a query for ';'. *)
Definition queried_table : gmap ascii Z := <[";"%char := 0]> installed_table.
Definition query_state (table : gmap ascii Z) (tok : Z) : state :=
  set_CurTok tok (set_BinopPrecedence table (initial_state "")).

(** The state in which parsing "1@" with the installed table ends. *)
Definition after_parsing_1_at : state :=
  mkState "" EOF "" (of_Z 1) (code "@") (<["@"%char := 0]> installed_table)
          [] [NumberNode].

(** ** Measures of what is left to read *)

(** Characters still to be delivered: the unread input and the lookahead
    character, unless that is already [EOF]. *)
Definition remaining (st : state) : nat :=
  (String.length (stdin st) + (if (LastChar st =? EOF)%Z then 0 else 1))%nat.

(** Tokens still to be parsed, counted in characters: the current token
    counts for one unless it is the end of input. *)
Definition pending (st : state) : nat :=
  (remaining st + (if (CurTok st =? tok_eof)%Z then 0 else 1))%nat.

Definition no_more_pending (st st' : state) : Prop :=
  (pending st' <= pending st)%nat.

(** The fields that belong to the parser are the same in both states. *)
Definition same_parser_fields (st st' : state) : Prop :=
  CurTok st' = CurTok st /\ BinopPrecedence st' = BinopPrecedence st /\
  stderr st' = stderr st /\ constructed st' = constructed st.

(** ** The table over time *)

(** [t'] has every entry of [t], and beyond those only keys with value 0. *)
Definition table_extends (t t' : gmap ascii Z) : Prop :=
  forall k, t' !! k = t !! k \/ (t !! k = None /\ t' !! k = Some 0).

Definition table_grows (st st' : state) : Prop :=
  table_extends (BinopPrecedence st) (BinopPrecedence st').

(** An empty table is still empty afterwards. *)
Definition stays_uninstalled (st st' : state) : Prop :=
  BinopPrecedence st = ∅ -> BinopPrecedence st' = ∅.

(** The operations of [parser.h] that a driver can invoke, and runs of
    sequences of them. *)
Inductive operation : Type :=
| Op_InstallBinaryOperators
| Op_getNextToken
| Op_GetTokPrecendence
| Op_ParsePrimary (fuel : nat)
| Op_ParseExpression (fuel : nat)
| Op_ParseBinOpRHS (fuel : nat) (exprPrec : Z) (LHS : ExprAST)
| Op_ParsePrototype (fuel : nat)
| Op_ParseDefinition (fuel : nat)
| Op_ParseExtern (fuel : nat)
| Op_ParseTopLevelExpr (fuel : nat)
| Op_MainLoop (fuel : nat).

Definition discard {A} (m : M A) : M unit := let* _ := m in ret tt.

Definition run_operation (op : operation) : M unit :=
  match op with
  | Op_InstallBinaryOperators => InstallBinaryOperators
  | Op_getNextToken => discard getNextToken
  | Op_GetTokPrecendence => discard GetTokPrecendence
  | Op_ParsePrimary fuel => discard (ParsePrimary fuel)
  | Op_ParseExpression fuel => discard (ParseExpression fuel)
  | Op_ParseBinOpRHS fuel exprPrec LHS => discard (ParseBinOpRHS fuel exprPrec LHS)
  | Op_ParsePrototype fuel => discard (ParsePrototype fuel)
  | Op_ParseDefinition fuel => discard (ParseDefinition fuel)
  | Op_ParseExtern fuel => discard (ParseExtern fuel)
  | Op_ParseTopLevelExpr fuel => discard (ParseTopLevelExpr fuel)
  | Op_MainLoop fuel => MainLoop fuel
  end.

Fixpoint run_operations (ops : list operation) : M unit :=
  match ops with
  | [] => ret tt
  | op :: ops => let* _ := run_operation op in run_operations ops
  end.

(** ** Shapes of input *)

(** Line feed or carriage return: what ends a comment. *)
Definition eol (c : Z) : bool := (c =? 10) || (c =? 13).

(** [blank false s]: [s] consists of whitespace characters and of comments
    that start at '#' and run to the next line feed or carriage return, or
    to the end of [s].  The flag says whether the scan is inside a
    comment. *)
Fixpoint blank (in_comment : bool) (s : string) : bool :=
  match s with
  | EmptyString => true
  | String a rest =>
      if in_comment then blank (negb (eol (code a))) rest
      else if code a =? 35 then blank true rest
      else isspace (code a) && blank false rest
  end.

(** A space, a line feed, and a comment that ends with the input. *)
Definition sample_blank_input : string :=
  String (chr 32) (String (chr 10) "# a comment, then the end").

(** Whether a scan of [s] ends inside a comment, having started inside
    one or not. *)
Fixpoint open_comment (in_comment : bool) (s : string) : bool :=
  match s with
  | EmptyString => in_comment
  | String a rest =>
      open_comment (if in_comment then negb (eol (code a)) else code a =? 35) rest
  end.

(** ** Two runs side by side

    The run on [e] and the run on ["(" ++ e ++ ")"], related state by
    state. *)

(** The two lexer states are aligned: same lookahead with the closing
    parenthesis still to come behind the same unread input, which does not
    end inside a comment; or the first lexer is at the end of input and the
    second one has the parenthesis as its lookahead. *)
Definition lexers_aligned (st1 st2 : state) : Prop :=
  (LastChar st2 = LastChar st1 /\ LastChar st1 <> EOF /\
   stdin st2 = stdin st1 ++ ")" /\
   open_comment (LastChar st1 =? 35) (stdin st1) = false) \/
  (LastChar st1 = EOF /\ LastChar st2 = 41 /\ stdin st2 = "").

Definition same_payload (st1 st2 : state) : Prop :=
  IdentifierStr st2 = IdentifierStr st1 /\ NumVal st2 = NumVal st1.

(** The table does not make ')' a binary operator. *)
Definition closing_not_operator (t : gmap ascii Z) : Prop :=
  forall v, t !! ")"%char = Some v -> v <= 0.

(** [Sync]: both parsers look at the same token, not the end of input,
    with equal payloads and tables, and the lexers are aligned. *)
Definition Sync (st1 st2 : state) : Prop :=
  CurTok st2 = CurTok st1 /\ CurTok st1 <> tok_eof /\
  same_payload st1 st2 /\
  BinopPrecedence st2 = BinopPrecedence st1 /\
  closing_not_operator (BinopPrecedence st1) /\
  lexers_aligned st1 st2.

(** [End]: the first parser is at the end of its input, the second one
    looks at the closing parenthesis with nothing behind it. *)
Definition End (st1 st2 : state) : Prop :=
  CurTok st1 = tok_eof /\ CurTok st2 = 41 /\
  LastChar st1 = EOF /\ LastChar st2 = EOF /\
  closing_not_operator (BinopPrecedence st2).

Definition Sim (st1 st2 : state) : Prop := Sync st1 st2 \/ End st1 st2.

(** ** The lexer's view of its input *)

(** Every character of [s] satisfies [p]. *)
Fixpoint every (p : Z -> bool) (s : string) : bool :=
  match s with
  | EmptyString => true
  | String a rest => p (code a) && every p rest
  end.

(** The shape [[a-zA-Z][a-zA-Z0-9]*] of lexer.h:40. *)
Definition is_identifier (s : string) : bool :=
  match s with
  | EmptyString => false
  | String a rest => isalpha (code a) && every isalnum rest
  end.

(** [s] is empty or starts with a character that does not satisfy [p]. *)
Definition stops (p : Z -> bool) (s : string) : bool :=
  match s with
  | EmptyString => true
  | String a _ => negb (p (code a))
  end.

(** What [getchar] can have left in [LastChar]: [EOF] with the input used
    up, or a byte. *)
Definition lexer_ok (st : state) : Prop :=
  (LastChar st = EOF /\ stdin st = "") \/ 0 <= LastChar st <= 255.

(** The tokens of the [Token] enumeration, and the tokens that are a
    character returned "as its ascii value". *)
Definition named_token (t : Z) : Prop :=
  t = tok_eof \/ t = tok_def \/ t = tok_extern \/ t = tok_identifier \/ t = tok_number.

Definition character_token (t : Z) : Prop :=
  0 <= t <= 255 /\ isspace t = false /\ isalpha t = false /\
  number_char t = false /\ t <> 35.

(** The same as a test on one character code. *)
Definition punctuation (c : Z) : bool :=
  negb (isspace c) && negb (isalpha c) && negb (number_char c) && negb (c =? 35).

(** The token for the word [w], by the two comparisons of lexer.h:47-51. *)
Definition keyword_or_identifier (w : string) : Z :=
  if String.eqb w "def" then tok_def
  else if String.eqb w "extern" then tok_extern
  else tok_identifier.

(** The characters the lexer has still to deliver: its lookahead, unless
    that is [EOF], followed by the unread input. *)
Definition lexer_input (st : state) : string :=
  if LastChar st =? EOF then "" else String (chr (LastChar st)) (stdin st).

(** The state that has exactly [s] still to deliver. *)
Definition at_input (s : string) (st : state) : state :=
  let '(c, r) := getchar s in set_input c r st.

(** A name that [gettok] reports as [tok_identifier]: of the identifier
    shape and not one of the two keywords. *)
Definition identifier_name (s : string) : Prop :=
  is_identifier s = true /\ s <> "def" /\ s <> "extern".

(** The lexer state is in order, and when the current token is an
    identifier, [IdentifierStr] holds a proper name. *)
Definition token_ok (st : state) : Prop :=
  lexer_ok st /\ (CurTok st = tok_identifier -> identifier_name (IdentifierStr st)).

Definition keeps_token_ok (st st' : state) : Prop := token_ok st -> token_ok st'.

(** ** Diagnostics *)

(** The messages that the expression parser and the prototype parser pass
    to [LogError]. *)
Definition expression_errors : list string :=
  ["Unknown token when expecting an expression.";
   "expected ')'";
   "Expected ')' or ',' in argument list"].

Definition prototype_errors : list string :=
  ["Expected function name in prototype";
   "Expected '(' in prototype";
   "Expected ')' in prototype"].

(** Between [st] and [st'] exactly one line was printed, an error with a
    message of [msgs]. *)
Definition one_error (msgs : list string) (st st' : state) : Prop :=
  exists msg, In msg msgs /\ stderr st' = (stderr st ++ [error_line msg])%list.

(** The table is still installed in [st'], and the diagnostics match the
    result: nothing printed with a tree, one error with [nullptr]. *)
Definition reported {A} (msgs : list string) (r : option A) (st st' : state) : Prop :=
  BinopPrecedence st' <> ∅ /\
  match r with
  | Some _ => stderr st' = stderr st
  | None => one_error msgs st st'
  end.

(** Exactly one line was printed: [line], or an error of [msgs]. *)
Definition one_line (line : string) (msgs : list string) (st st' : state) : Prop :=
  stderr st' = (stderr st ++ [line])%list \/ one_error msgs st st'.

(** ** Reading a tree *)

(** The [make_unique] calls that build [e], in the order the parser makes
    them: operands before their operator, arguments before their call. *)
Fixpoint nodes (e : ExprAST) : list NodeKind :=
  match e with
  | NumberExprAST _ => [NumberNode]
  | VariableExprAST _ => [VariableNode]
  | BinaryExprAST _ l r => nodes l ++ nodes r ++ [BinaryNode]
  | CallExprAST _ args => flat_map nodes args ++ [CallNode]
  end.

(** The operator characters of the binary nodes of [e]. *)
Fixpoint operators (e : ExprAST) : list ascii :=
  match e with
  | NumberExprAST _ => []
  | VariableExprAST _ => []
  | BinaryExprAST op l r => op :: operators l ++ operators r
  | CallExprAST _ args => flat_map operators args
  end.

(** [op] has a positive precedence in the table [t]. *)
Definition binary_operator (t : gmap ascii Z) (op : ascii) : Prop :=
  exists v, 0 < v /\ t !! op = Some v.

(** The variable and callee names of [e]. *)
Fixpoint names (e : ExprAST) : list string :=
  match e with
  | NumberExprAST _ => []
  | VariableExprAST name => [name]
  | BinaryExprAST _ l r => names l ++ names r
  | CallExprAST callee args => callee :: flat_map names args
  end.

(** ** Chains of operators

    The text [1 o1 1 o2 1 ...] for the operators [o1, o2, ...], written
    without spaces, and the tree that groups it to the left. *)
Fixpoint operands (ops : list ascii) : string :=
  match ops with
  | [] => ""
  | o :: ops => String o (String "1" (operands ops))
  end.

Definition ones (ops : list ascii) : string := String "1" (operands ops).

Definition left_nested (ops : list ascii) (lhs : ExprAST) : ExprAST :=
  fold_left (fun t o => BinaryExprAST o t (Num 1)) ops lhs.

(** The parser stands in front of the operators [ops] of a chain, with
    the installed table: the first of them is the current token and its
    operand comes next, or the chain and the input have ended. *)
Definition chain_state (ops : list ascii) (st : state) : Prop :=
  lexer_ok st /\ BinopPrecedence st = installed_table /\
  match ops with
  | [] => CurTok st = tok_eof /\ lexer_input st = ""
  | o :: ops' => CurTok st = code o /\ lexer_input st = String "1" (operands ops')
  end.

(** * Properties *)

(** ** The C library models on sample values *)

Example strtod_one : strtod "1" = S754_finite false 4503599627370496 (-52).
Proof. reflexivity. Qed.

Example strtod_lenient : strtod "1.23.45.67" = strtod "1.23".
Proof. reflexivity. Qed.

Example strtod_lone_point : strtod "." = S754_zero false.
Proof. reflexivity. Qed.

(** ** Fuel: more never changes a result *)

Lemma le_refl {A} (m : M A) : le m m.
Proof. intros st r H; exact H. Qed.

Lemma le_bind {A B} (m m' : M A) (k k' : A -> M B) :
  le m m' -> (forall a, le (k a) (k' a)) -> le (bind m k) (bind m' k').
Proof.
  intros Hm Hk st r. unfold bind.
  destruct (m st) as [[a st1]|] eqn:E; [|discriminate].
  rewrite (Hm _ _ E). apply Hk.
Qed.

Lemma le_out_of_fuel {A} (m : M A) : le out_of_fuel m.
Proof. intros st r H; discriminate. Qed.

Ltac le_step :=
  match goal with
  | |- le out_of_fuel _ => apply le_out_of_fuel
  | |- le (bind _ _) (bind _ _) => apply le_bind; [| intros ?]
  | |- le (if ?b then _ else _) (if ?b then _ else _) => destruct b
  | |- le (match ?x with Some _ => _ | None => _ end)
          (match ?x with Some _ => _ | None => _ end) => destruct x
  | |- le ?m ?m => apply le_refl
  | H : forall f', (_ <= f')%nat -> le _ _ |- le _ _ => apply H; lia
  | H : forall f', (_ <= f')%nat -> forall _, le _ _ |- le _ _ => apply H; lia
  | H : forall f', (_ <= f')%nat -> forall _ _, le _ _ |- le _ _ => apply H; lia
  end.

Lemma parse_le (f : nat) :
  (forall f', (f <= f')%nat -> le (ParsePrimary f) (ParsePrimary f')) /\
  (forall f', (f <= f')%nat -> le (ParseParenExpr f) (ParseParenExpr f')) /\
  (forall f', (f <= f')%nat -> le (ParseIdentifierExpr f) (ParseIdentifierExpr f')) /\
  (forall f', (f <= f')%nat -> forall args,
      le (ParseIdentifierExpr_args f args) (ParseIdentifierExpr_args f' args)) /\
  (forall f', (f <= f')%nat -> le (ParseExpression f) (ParseExpression f')) /\
  (forall f', (f <= f')%nat -> forall prec lhs,
      le (ParseBinOpRHS f prec lhs) (ParseBinOpRHS f' prec lhs)).
Proof.
  induction f as [|f (IH1 & IH2 & IH3 & IH4 & IH5 & IH6)].
  - repeat split; intros; apply le_out_of_fuel.
  - repeat split; intros f' Hf; (destruct f' as [|f']; [lia|]); intros;
      cbn [ParsePrimary ParseParenExpr ParseIdentifierExpr
           ParseIdentifierExpr_args ParseExpression ParseBinOpRHS];
      repeat le_step.
Qed.

Lemma ParseExpression_le f f' : (f <= f')%nat -> le (ParseExpression f) (ParseExpression f').
Proof. intros; now apply parse_le. Qed.

Lemma ParsePrimary_le f f' : (f <= f')%nat -> le (ParsePrimary f) (ParsePrimary f').
Proof. intros; now apply parse_le. Qed.

Lemma ParseBinOpRHS_le f f' prec lhs :
  (f <= f')%nat -> le (ParseBinOpRHS f prec lhs) (ParseBinOpRHS f' prec lhs).
Proof. intros; now apply parse_le. Qed.

Lemma ParsePrototype_args_le f :
  forall f', (f <= f')%nat -> forall names,
    le (ParsePrototype_args f names) (ParsePrototype_args f' names).
Proof.
  induction f as [|f IH]; intros f' Hf names; [apply le_out_of_fuel|].
  destruct f' as [|f']; [lia|]. cbn [ParsePrototype_args]. repeat le_step.
Qed.

Lemma ParsePrototype_le f f' : (f <= f')%nat -> le (ParsePrototype f) (ParsePrototype f').
Proof.
  intros Hf. pose proof (ParsePrototype_args_le f) as IH.
  unfold ParsePrototype. repeat le_step.
Qed.

Lemma ParseDefinition_le f f' : (f <= f')%nat -> le (ParseDefinition f) (ParseDefinition f').
Proof.
  intros Hf. unfold ParseDefinition.
  apply le_bind; [apply le_refl|intros _].
  apply le_bind; [now apply ParsePrototype_le|intros [p|]]; [|apply le_refl].
  apply le_bind; [now apply ParseExpression_le|intros a; apply le_refl].
Qed.

Lemma ParseTopLevelExpr_le f f' :
  (f <= f')%nat -> le (ParseTopLevelExpr f) (ParseTopLevelExpr f').
Proof.
  intros Hf. unfold ParseTopLevelExpr.
  apply le_bind; [now apply ParseExpression_le|intros a; apply le_refl].
Qed.

Lemma parse_input_le {A} (installed : bool) (p p' : M A) (input : string) r :
  le p p' -> parse_input installed p input = Some r ->
  parse_input installed p' input = Some r.
Proof.
  intros Hp. unfold parse_input. apply le_bind; [apply le_refl|intros _; exact Hp].
Qed.

(** A run evaluated at one fuel value stands for every larger one. *)
Lemma parse_input_more_fuel {A} (p : nat -> M A) (installed : bool)
      (input : string) (f0 : nat) (r : A * state) :
  (forall f f', (f <= f')%nat -> le (p f) (p f')) ->
  parse_input installed (p f0) input = Some r ->
  forall fuel, parse_input installed (p (f0 + fuel)%nat) input = Some r.
Proof.
  intros Hp H fuel.
  apply (parse_input_le installed (p f0) (p (f0 + fuel)%nat)); [apply Hp; lia|exact H].
Qed.

Lemma ParseIdentifierExpr_le f f' :
  (f <= f')%nat -> le (ParseIdentifierExpr f) (ParseIdentifierExpr f').
Proof. intros; now apply parse_le. Qed.

Lemma run_at {A} (p : nat -> M A) (installed : bool) (input : string)
      (f0 : nat) (Q : A -> state -> Prop) :
  (forall f f', (f <= f')%nat -> le (p f) (p f')) ->
  match parse_input installed (p f0) input with
  | Some (a, st) => Q a st
  | None => False
  end ->
  forall fuel, exists a st,
    parse_input installed (p (f0 + fuel)%nat) input = Some (a, st) /\ Q a st.
Proof.
  intros Hp H fuel.
  destruct (parse_input installed (p f0) input) as [[a st]|] eqn:E; [|contradiction].
  exists a, st. split; [|exact H].
  now apply parse_input_more_fuel.
Qed.

Ltac run_concrete lem :=
  let fuel := fresh "fuel" in
  let H := fresh "H" in
  intros fuel;
  match goal with
  | |- exists st, parse_input ?b (?p (?f0 + _)%nat) ?s = Some (?a, st) /\ @?Q st =>
      destruct (run_at p b s f0 (fun a' st => a' = a /\ Q st)
                  lem ltac:(vm_compute; repeat split; reflexivity) fuel)
        as (a' & st & H & -> & ?);
      exists st; split; [exact H | assumption]
  end.

(** ** Parses of concrete inputs *)

Example of_Z_1 : of_Z 1 = S754_finite false 4503599627370496 (-52).
Proof. reflexivity. Qed.

(** C1.  On the input "1+2*3", with the table installed, [ParseExpression]
    returns [BinaryExprAST '+' 1 (BinaryExprAST '*' 2 3)] for every fuel
    from 8 on, with the whole input consumed and nothing written to the
    diagnostic stream: multiplication binds tighter than addition. *)
Theorem precedence_1_plus_2_times_3 :
  forall fuel, exists st,
    parse_input true (ParseExpression (8 + fuel)) "1+2*3"
    = Some (Some (BinaryExprAST "+" (Num 1)
                    (BinaryExprAST "*" (Num 2) (Num 3))), st)
    /\ (CurTok st = tok_eof /\ stderr st = []).
Proof. run_concrete ParseExpression_le. Qed.

Lemma installed_table_entries (o : ascii) (p : Z) :
  installed_table !! o = Some p ->
  In (o, p) [("<"%char, 10); ("+"%char, 20); ("-"%char, 20); ("*"%char, 40)].
Proof.
  unfold installed_table. intros H.
  repeat (apply lookup_insert_Some in H as [[<- <-]|[_ H]]; [simpl; tauto|]).
  now rewrite lookup_empty in H.
Qed.

Lemma equal_precedence_chain (o1 o2 : ascii) (p : Z) :
  installed_table !! o1 = Some p -> installed_table !! o2 = Some p ->
  forall fuel, exists st,
    parse_input true (ParseExpression (8 + fuel)) (chain o1 o2)
    = Some (Some (BinaryExprAST o2 (BinaryExprAST o1 (Num 1) (Num 2)) (Num 3)), st)
    /\ (CurTok st = tok_eof /\ stderr st = []).
Proof.
  intros H1 H2.
  apply installed_table_entries in H1, H2. simpl in H1, H2.
  repeat match goal with
         | H : _ \/ _ |- _ => destruct H
         | H : (_, _) = (_, _) |- _ => inversion H; clear H; subst
         | H : False |- _ => destruct H
         end;
    try discriminate; run_concrete ParseExpression_le.
Qed.

(** C2.  On the input "1-2-3", with the table installed, [ParseExpression]
    returns [BinaryExprAST '-' (BinaryExprAST '-' 1 2) 3]; and for any two
    operators that the installed table gives the same precedence, the
    chain [1 o1 2 o2 3] is grouped to the left: an equal following
    precedence does not trigger the recursive re-parse. *)
Theorem left_assoc_1_minus_2_minus_3 :
  (forall fuel, exists st,
      parse_input true (ParseExpression (8 + fuel)) "1-2-3"
      = Some (Some (BinaryExprAST "-" (BinaryExprAST "-" (Num 1) (Num 2)) (Num 3)), st)
      /\ (CurTok st = tok_eof /\ stderr st = [])) /\
  (forall (o1 o2 : ascii) (p : Z),
      installed_table !! o1 = Some p -> installed_table !! o2 = Some p ->
      forall fuel, exists st,
        parse_input true (ParseExpression (8 + fuel)) (chain o1 o2)
        = Some (Some (BinaryExprAST o2 (BinaryExprAST o1 (Num 1) (Num 2)) (Num 3)), st)
        /\ (CurTok st = tok_eof /\ stderr st = [])).
Proof.
  split; [run_concrete ParseExpression_le | exact equal_precedence_chain].
Qed.

Lemma left_assoc_1_minus_2_minus_3_witness :
  installed_table !! "+"%char = Some 20 /\ installed_table !! "-"%char = Some 20 /\
  exists st,
    parse_input true (ParseExpression 8) "1+2-3"
    = Some (Some (BinaryExprAST "-" (BinaryExprAST "+" (Num 1) (Num 2)) (Num 3)), st)
    /\ (CurTok st = tok_eof /\ stderr st = []).
Proof.
  split; [reflexivity|]. split; [reflexivity|].
  exact (proj2 left_assoc_1_minus_2_minus_3 "+"%char "-"%char 20
           eq_refl eq_refl 0%nat).
Defined.

(** C5.  On the input "def foo(a b) a+b", with the table installed,
    [ParseDefinition] returns the function whose prototype is named "foo"
    with the parameters "a", "b" in that order and whose body is
    [BinaryExprAST '+' a b]. *)
Theorem definition_foo_a_b :
  forall fuel, exists st,
    parse_input true (ParseDefinition (8 + fuel)) "def foo(a b) a+b"
    = Some (Some (mkFunctionAST (mkPrototypeAST "foo" ["a"; "b"])
                    (BinaryExprAST "+" (VariableExprAST "a") (VariableExprAST "b"))), st)
    /\ (CurTok st = tok_eof /\ stderr st = []).
Proof. run_concrete ParseDefinition_le. Qed.

(** C6.  On the input "foo(", with the table installed, the parse fails
    ([nullptr]) after the single diagnostic "Unknown token when expecting
    an expression." of [ParsePrimary], and the run constructs no node at
    all, in particular no [CallExprAST]: this holds for
    [ParseIdentifierExpr] itself and for its callers [ParseExpression] and
    [ParseTopLevelExpr]. *)
Theorem unterminated_call_fails :
  (forall fuel, exists st,
      parse_input true (ParseIdentifierExpr (8 + fuel)) "foo(" = Some (None, st)
      /\ rejected_without_call st) /\
  (forall fuel, exists st,
      parse_input true (ParseExpression (8 + fuel)) "foo(" = Some (None, st)
      /\ rejected_without_call st) /\
  (forall fuel, exists st,
      parse_input true (ParseTopLevelExpr (8 + fuel)) "foo(" = Some (None, st)
      /\ rejected_without_call st).
Proof.
  assert (Hr : forall st,
             stderr st = [error_line "Unknown token when expecting an expression."]
             /\ constructed st = [] -> rejected_without_call st).
  { intros st [Hs Hc]. unfold rejected_without_call. rewrite Hc.
    repeat split; [exact Hs|]. simpl. tauto. }
  split; [|split]; intros fuel.
  - destruct (run_at ParseIdentifierExpr true "foo(" 8
                (fun a st =>
                   a = None /\
                   (stderr st
                    = [error_line "Unknown token when expecting an expression."]
                    /\ constructed st = []))
                ParseIdentifierExpr_le
                ltac:(vm_compute; repeat split; reflexivity) fuel)
      as (a & st & H & -> & Ho); exists st; split; [exact H|exact (Hr st Ho)].
  - destruct (run_at ParseExpression true "foo(" 8
                (fun a st =>
                   a = None /\
                   (stderr st
                    = [error_line "Unknown token when expecting an expression."]
                    /\ constructed st = []))
                ParseExpression_le
                ltac:(vm_compute; repeat split; reflexivity) fuel)
      as (a & st & H & -> & Ho); exists st; split; [exact H|exact (Hr st Ho)].
  - destruct (run_at ParseTopLevelExpr true "foo(" 8
                (fun a st =>
                   a = None /\
                   (stderr st
                    = [error_line "Unknown token when expecting an expression."]
                    /\ constructed st = []))
                ParseTopLevelExpr_le
                ltac:(vm_compute; repeat split; reflexivity) fuel)
      as (a & st & H & -> & Ho); exists st; split; [exact H|exact (Hr st Ho)].
Qed.

(** ** The precedence query *)

Lemma BinaryOperatorsInstalled_false (st : state) :
  BinaryOperatorsInstalled st = false <-> BinopPrecedence st = ∅.
Proof.
  unfold BinaryOperatorsInstalled. rewrite negb_false_iff.
  apply bool_decide_eq_true.
Qed.

Lemma BinaryOperatorsInstalled_true (st : state) :
  BinaryOperatorsInstalled st = true <-> BinopPrecedence st <> ∅.
Proof.
  unfold BinaryOperatorsInstalled. rewrite negb_true_iff.
  apply bool_decide_eq_false.
Qed.

(** The four outcomes of [GetTokPrecendence], by the tests it makes in
    order. *)
Lemma GetTokPrecendence_not_ascii (st : state) :
  isascii (CurTok st) = false -> GetTokPrecendence st = Some (-1, st).
Proof.
  intros H. cbv [GetTokPrecendence bind gets ret]. now rewrite H.
Qed.

Lemma GetTokPrecendence_not_installed (st : state) :
  isascii (CurTok st) = true -> BinopPrecedence st = ∅ ->
  GetTokPrecendence st = Some (-2, write_stderr not_installed_line st).
Proof.
  intros H E. apply BinaryOperatorsInstalled_false in E.
  cbv [GetTokPrecendence bind gets ret LogError modify].
  rewrite H; cbn [negb]. now rewrite E.
Qed.

Lemma GetTokPrecendence_present (st : state) (p : Z) :
  isascii (CurTok st) = true -> BinopPrecedence st <> ∅ ->
  BinopPrecedence st !! to_char (CurTok st) = Some p ->
  GetTokPrecendence st = Some (if p <=? 0 then -1 else p, st).
Proof.
  intros H E L. apply BinaryOperatorsInstalled_true in E.
  cbv [GetTokPrecendence bind gets ret map_subscript].
  rewrite H; cbn [negb]; rewrite E; cbn [negb]; rewrite L.
  assert (set_BinopPrecedence (BinopPrecedence st) st = st) as -> by now destruct st.
  now destruct (p <=? 0).
Qed.

Lemma GetTokPrecendence_absent (st : state) :
  isascii (CurTok st) = true -> BinopPrecedence st <> ∅ ->
  BinopPrecedence st !! to_char (CurTok st) = None ->
  GetTokPrecendence st
  = Some (-1, set_BinopPrecedence
                (<[to_char (CurTok st) := 0]> (BinopPrecedence st)) st).
Proof.
  intros H E L. apply BinaryOperatorsInstalled_true in E.
  cbv [GetTokPrecendence bind gets ret map_subscript].
  rewrite H; cbn [negb]; rewrite E; cbn [negb]; now rewrite L.
Qed.

(** Whatever the state, the query answers, and with the table empty the
    answer is one of the two negative values. *)
Lemma GetTokPrecendence_empty_table (st : state) :
  BinopPrecedence st = ∅ ->
  GetTokPrecendence st = Some (-1, st) \/
  GetTokPrecendence st = Some (-2, write_stderr not_installed_line st).
Proof.
  intros E. destruct (isascii (CurTok st)) eqn:H.
  - right. now apply GetTokPrecendence_not_installed.
  - left. now apply GetTokPrecendence_not_ascii.
Qed.

Lemma ParseBinOpRHS_empty_table (st : state) (prec : Z) (lhs : ExprAST) (fuel : nat) :
  BinopPrecedence st = ∅ -> 0 <= prec ->
  exists st', ParseBinOpRHS (S fuel) prec lhs st = Some (Some lhs, st') /\
              (st' = st \/ st' = write_stderr not_installed_line st).
Proof.
  intros E Hp. cbn [ParseBinOpRHS]. unfold bind at 1.
  destruct (GetTokPrecendence_empty_table st E) as [-> | ->].
  - assert ((-1 <? prec) = true) as -> by lia. eexists; split; [reflexivity|now left].
  - assert ((-2 <? prec) = true) as -> by lia. eexists; split; [reflexivity|now right].
Qed.

(** Before installation, on the empty input, the first token is the end
    of input and the query answers -1, the same value as for an unknown
    operator, and prints nothing: the "not installed" answer -2 is not
    given. *)
Lemma GetTokPrecendence_eof_before_install :
  exists st,
    parse_input false GetTokPrecendence "" = Some (-1, st) /\
    CurTok st = tok_eof /\ BinopPrecedence st = ∅ /\ stderr st = [].
Proof. eexists. repeat split; reflexivity. Qed.

(** C4, amended.  [GetTokPrecendence] first tests whether the current
    token is an ASCII character code.  If it is not (end of input,
    keywords, identifiers, numbers, bytes from 128 on) the answer is -1,
    installed table or not.  Otherwise, with an empty table the answer is
    -2 and the "not installed" diagnostic is printed; with a non-empty
    table the answer is the stored value when that is positive, and -1
    when the stored value is not positive or the character is absent (an
    absent character is then entered with value 0). *)
Theorem GetTokPrecendence_cases (st : state) :
  (isascii (CurTok st) = false -> GetTokPrecendence st = Some (-1, st)) /\
  (isascii (CurTok st) = true -> BinopPrecedence st = ∅ ->
   GetTokPrecendence st = Some (-2, write_stderr not_installed_line st)) /\
  (forall p, isascii (CurTok st) = true -> BinopPrecedence st <> ∅ ->
             BinopPrecedence st !! to_char (CurTok st) = Some p -> 0 < p ->
             GetTokPrecendence st = Some (p, st)) /\
  (forall p, isascii (CurTok st) = true -> BinopPrecedence st <> ∅ ->
             BinopPrecedence st !! to_char (CurTok st) = Some p -> p <= 0 ->
             GetTokPrecendence st = Some (-1, st)) /\
  (isascii (CurTok st) = true -> BinopPrecedence st <> ∅ ->
   BinopPrecedence st !! to_char (CurTok st) = None ->
   GetTokPrecendence st
   = Some (-1, set_BinopPrecedence
                 (<[to_char (CurTok st) := 0]> (BinopPrecedence st)) st)).
Proof.
  split; [apply GetTokPrecendence_not_ascii|].
  split; [apply GetTokPrecendence_not_installed|].
  split; [|split; [|apply GetTokPrecendence_absent]].
  - intros p H E L Hp. rewrite (GetTokPrecendence_present st p H E L).
    assert ((p <=? 0) = false) as -> by lia. reflexivity.
  - intros p H E L Hp. rewrite (GetTokPrecendence_present st p H E L).
    assert ((p <=? 0) = true) as -> by lia. reflexivity.
Qed.

Lemma installed_table_nonempty : installed_table <> ∅.
Proof. unfold installed_table. apply insert_non_empty. Qed.

Lemma queried_table_nonempty : queried_table <> ∅.
Proof. unfold queried_table. apply insert_non_empty. Qed.

Lemma GetTokPrecendence_cases_witness :
  GetTokPrecendence (query_state installed_table tok_identifier)
  = Some (-1, query_state installed_table tok_identifier) /\
  GetTokPrecendence (query_state ∅ (code "*"))
  = Some (-2, write_stderr not_installed_line (query_state ∅ (code "*"))) /\
  GetTokPrecendence (query_state installed_table (code "*"))
  = Some (40, query_state installed_table (code "*")) /\
  GetTokPrecendence (query_state queried_table (code ";"))
  = Some (-1, query_state queried_table (code ";")) /\
  GetTokPrecendence (query_state installed_table (code "@"))
  = Some (-1, set_BinopPrecedence (<["@"%char := 0]> installed_table)
                (query_state installed_table (code "@"))).
Proof.
  split; [|split; [|split; [|split]]].
  - apply (proj1 (GetTokPrecendence_cases _)). reflexivity.
  - apply (proj1 (proj2 (GetTokPrecendence_cases _))); reflexivity.
  - apply (proj1 (proj2 (proj2 (GetTokPrecendence_cases _))) 40);
      [reflexivity | exact installed_table_nonempty | reflexivity | lia].
  - apply (proj1 (proj2 (proj2 (proj2 (GetTokPrecendence_cases _)))) 0);
      [reflexivity | exact queried_table_nonempty | reflexivity | lia].
  - apply (proj2 (proj2 (proj2 (proj2
             (GetTokPrecendence_cases (query_state installed_table (code "@")))))));
      [reflexivity | exact installed_table_nonempty | reflexivity].
Defined.

(** ** Relations that every parser step preserves

    A relation between the state before and after, reflexive and
    transitive, that the two token-level operations and the two output
    operations respect, is respected by every parse function and by the
    driver loop. *)

Section Preservation.

Variable R : state -> state -> Prop.
Hypothesis R_refl : forall st, R st st.
Hypothesis R_trans : forall st1 st2 st3, R st1 st2 -> R st2 st3 -> R st1 st3.
Hypothesis R_getNextToken : preserves R getNextToken.
Hypothesis R_GetTokPrecendence : preserves R GetTokPrecendence.
Hypothesis R_write_stderr : forall s st, R st (write_stderr s st).
Hypothesis R_record_node : forall k st, R st (record_node k st).

Lemma preserves_bind {A B} (m : M A) (k : A -> M B) :
  preserves R m -> (forall a, preserves R (k a)) -> preserves R (bind m k).
Proof.
  intros Hm Hk st b st'. unfold bind.
  destruct (m st) as [[a st1]|] eqn:E; [|discriminate].
  intros H. eapply R_trans; [eapply Hm, E|eapply Hk, H].
Qed.

Lemma preserves_ret {A} (a : A) : preserves R (ret a).
Proof. intros st a' st' H. injection H as _ <-. apply R_refl. Qed.

Lemma preserves_gets {A} (f : state -> A) : preserves R (gets f).
Proof. intros st a' st' H. injection H as _ <-. apply R_refl. Qed.

Lemma preserves_out_of_fuel {A} : preserves R (@out_of_fuel A).
Proof. intros st a st' H. discriminate. Qed.

Lemma preserves_make_unique k : preserves R (make_unique k).
Proof. intros st a st' H. injection H as _ <-. apply R_record_node. Qed.

Lemma preserves_fprintf_stderr s : preserves R (fprintf_stderr s).
Proof. intros st a st' H. injection H as _ <-. apply R_write_stderr. Qed.

Lemma preserves_LogError {A} s : preserves R (@LogError A s).
Proof. intros st a st' H. injection H as _ <-. apply R_write_stderr. Qed.

Ltac pres_step :=
  match goal with
  | |- preserves _ (bind _ _) => apply preserves_bind; [| intros ?]
  | |- preserves _ (ret _) => apply preserves_ret
  | |- preserves _ (gets _) => apply preserves_gets
  | |- preserves _ out_of_fuel => apply preserves_out_of_fuel
  | |- preserves _ (make_unique _) => apply preserves_make_unique
  | |- preserves _ (fprintf_stderr _) => apply preserves_fprintf_stderr
  | |- preserves _ (LogError _) => apply preserves_LogError
  | |- preserves _ (LogErrorP _) => apply preserves_LogError
  | |- preserves _ getNextToken => apply R_getNextToken
  | |- preserves _ GetTokPrecendence => apply R_GetTokPrecendence
  | |- preserves _ (if ?b then _ else _) => destruct b
  | |- preserves _ (match ?x with Some _ => _ | None => _ end) => destruct x
  | H : _ |- preserves _ _ => apply H
  end.

Lemma ParseNumberExpr_preserves : preserves R ParseNumberExpr.
Proof. unfold ParseNumberExpr. repeat pres_step. Qed.

Lemma parse_preserves (f : nat) :
  preserves R (ParsePrimary f) /\
  preserves R (ParseParenExpr f) /\
  preserves R (ParseIdentifierExpr f) /\
  (forall args, preserves R (ParseIdentifierExpr_args f args)) /\
  preserves R (ParseExpression f) /\
  (forall prec lhs, preserves R (ParseBinOpRHS f prec lhs)).
Proof.
  pose proof ParseNumberExpr_preserves as HN.
  induction f as [|f (IH1 & IH2 & IH3 & IH4 & IH5 & IH6)].
  - repeat split; intros; apply preserves_out_of_fuel.
  - repeat split; intros;
      cbn [ParsePrimary ParseParenExpr ParseIdentifierExpr
           ParseIdentifierExpr_args ParseExpression ParseBinOpRHS];
      repeat pres_step.
Qed.

Lemma ParsePrototype_args_preserves (f : nat) :
  forall names, preserves R (ParsePrototype_args f names).
Proof.
  induction f as [|f IH]; intros names; [apply preserves_out_of_fuel|].
  cbn [ParsePrototype_args]. repeat pres_step.
Qed.

Lemma ParsePrototype_preserves (f : nat) : preserves R (ParsePrototype f).
Proof.
  pose proof (ParsePrototype_args_preserves f) as IH.
  unfold ParsePrototype. repeat pres_step.
Qed.

Lemma ParseDefinition_preserves (f : nat) : preserves R (ParseDefinition f).
Proof.
  pose proof (ParsePrototype_preserves f) as HP.
  destruct (parse_preserves f) as (_ & _ & _ & _ & HE & _).
  unfold ParseDefinition. repeat pres_step.
Qed.

Lemma ParseExtern_preserves (f : nat) : preserves R (ParseExtern f).
Proof.
  pose proof (ParsePrototype_preserves f) as HP.
  unfold ParseExtern. repeat pres_step.
Qed.

Lemma ParseTopLevelExpr_preserves (f : nat) : preserves R (ParseTopLevelExpr f).
Proof.
  destruct (parse_preserves f) as (_ & _ & _ & _ & HE & _).
  unfold ParseTopLevelExpr. repeat pres_step.
Qed.

Lemma MainLoop_preserves (f : nat) : preserves R (MainLoop f).
Proof.
  induction f as [|f IH]; [apply preserves_out_of_fuel|].
  pose proof (ParseDefinition_preserves f) as HD.
  pose proof (ParseExtern_preserves f) as HX.
  pose proof (ParseTopLevelExpr_preserves f) as HT.
  cbn [MainLoop]. unfold HandleDefinition, HandleExtern, HandleTopLevelExpression.
  repeat pres_step.
Qed.

End Preservation.

(** ** The lexer consumes input and touches nothing else *)

Lemma getchar_while_length p inp acc c r :
  getchar_while p inp = (acc, c, r) ->
  (String.length r + (if (c =? EOF)%Z then 0 else 1) <= String.length inp)%nat.
Proof.
  revert acc c r. induction inp as [|a rest IH]; intros acc c r H; simpl in H.
  - injection H as _ <- <-. simpl. lia.
  - destruct (p (code a)).
    + destruct (getchar_while p rest) as [[acc' c'] r'] eqn:E.
      injection H as _ <- <-. specialize (IH _ _ _ eq_refl). simpl. lia.
    + injection H as _ <- <-. simpl. destruct (code a =? EOF); lia.
Qed.

Lemma getchar_while_stop p inp acc c r :
  p EOF = false -> getchar_while p inp = (acc, c, r) -> p c = false.
Proof.
  intros HE. revert acc c r.
  induction inp as [|a rest IH]; intros acc c r H; simpl in H.
  - injection H as _ <- _. exact HE.
  - destruct (p (code a)) eqn:Hp.
    + destruct (getchar_while p rest) as [[acc' c'] r'] eqn:E.
      injection H as _ <- _. eapply IH; reflexivity.
    + injection H as _ <- _. exact Hp.
Qed.

Lemma getchar_length inp c r :
  getchar inp = (c, r) ->
  (String.length r + (if (c =? EOF)%Z then 0 else 1) <= String.length inp)%nat.
Proof.
  destruct inp as [|a rest]; simpl; intros H; injection H as <- <-; simpl.
  - lia.
  - destruct (code a =? EOF); lia.
Qed.

Lemma skip_whitespace_spec (st : state) :
  same_parser_fields st (skip_whitespace st) /\
  (remaining (skip_whitespace st) <= remaining st)%nat /\
  isspace (LastChar (skip_whitespace st)) = false.
Proof.
  unfold skip_whitespace. destruct (isspace (LastChar st)) eqn:Hs.
  - destruct (getchar_while isspace (stdin st)) as [[acc c] r] eqn:E.
    pose proof (getchar_while_length _ _ _ _ _ E).
    pose proof (getchar_while_stop _ _ _ _ _ eq_refl E).
    unfold same_parser_fields, remaining. simpl.
    repeat split; try assumption. lia.
  - unfold same_parser_fields. repeat split; try assumption. lia.
Qed.

Lemma gettok_rec_spec (f : nat) :
  forall st t st', gettok_rec f st = Some (t, st') ->
    same_parser_fields st st' /\
    (remaining st' <= remaining st)%nat /\
    (t <> tok_eof -> (remaining st' < remaining st)%nat).
Proof.
  induction f as [|f IH]; intros st t st' H; [discriminate|].
  cbn [gettok_rec] in H.
  destruct (skip_whitespace_spec st) as ((F1 & F2 & F3 & F4) & Hm & _).
  set (st1 := skip_whitespace st) in *.
  assert (Hne : LastChar st1 <> EOF ->
                remaining st1 = S (String.length (stdin st1))).
  { intros Hc. unfold remaining.
    destruct (LastChar st1 =? EOF) eqn:E; [apply Z.eqb_eq in E; contradiction|lia]. }
  unfold same_parser_fields.
  destruct (isalpha (LastChar st1)) eqn:Ha.
  { assert (LastChar st1 <> EOF) as Hc by (intros E; rewrite E in Ha; discriminate).
    destruct (getchar_while isalnum (stdin st1)) as [[acc c] r] eqn:E.
    pose proof (getchar_while_length _ _ _ _ _ E) as HL.
    specialize (Hne Hc).
    assert (remaining (set_input c r
              (set_IdentifierStr (String (chr (LastChar st1)) acc) st1))
            < remaining st)%nat by (unfold remaining at 1; simpl; lia).
    destruct (String.eqb _ "def"); [|destruct (String.eqb _ "extern")];
      injection H as <- <-; simpl; (repeat split; [congruence..|lia|lia]). }
  destruct (number_char (LastChar st1)) eqn:Hn.
  { assert (LastChar st1 <> EOF) as Hc by (intros E; rewrite E in Hn; discriminate).
    destruct (getchar_while number_char (stdin st1)) as [[acc c] r] eqn:E.
    pose proof (getchar_while_length _ _ _ _ _ E) as HL.
    specialize (Hne Hc).
    injection H as <- <-. unfold remaining at 1 3. simpl.
    repeat split; [congruence..|lia|lia]. }
  destruct (LastChar st1 =? 35) eqn:Hh.
  { assert (LastChar st1 <> EOF) as Hc by (apply Z.eqb_eq in Hh; rewrite Hh; discriminate).
    destruct (getchar_while comment_char (stdin st1)) as [[acc c] r] eqn:E.
    pose proof (getchar_while_length _ _ _ _ _ E) as HL.
    specialize (Hne Hc).
    assert (remaining (set_input c r st1) < remaining st)%nat
      by (unfold remaining at 1; simpl; lia).
    destruct (negb (c =? EOF)).
    - apply IH in H as ((G1 & G2 & G3 & G4) & Gm & _). simpl in *.
      repeat split; [congruence..|lia|lia].
    - injection H as <- <-. simpl. repeat split; [congruence..|lia|lia]. }
  destruct (LastChar st1 =? EOF) eqn:He.
  { injection H as <- <-. repeat split; [congruence..|lia|congruence]. }
  destruct (getchar (stdin st1)) as [c r] eqn:E.
  pose proof (getchar_length _ _ _ E) as HL.
  apply Z.eqb_neq in He. specialize (Hne He).
  injection H as <- <-. unfold remaining at 1 3. simpl.
  repeat split; [congruence..|lia|lia].
Qed.

Lemma skip_whitespace_stdin (st : state) :
  (String.length (stdin (skip_whitespace st)) <= String.length (stdin st))%nat.
Proof.
  unfold skip_whitespace. destruct (isspace (LastChar st)); [|lia].
  destruct (getchar_while isspace (stdin st)) as [[acc c] r] eqn:E.
  pose proof (getchar_while_length _ _ _ _ _ E). simpl. lia.
Qed.

(** [gettok] returns: the fuel it is given covers the one recursive call
    per comment. *)
Lemma gettok_rec_enough (f : nat) :
  forall st, (String.length (stdin st) < f)%nat ->
             exists t st', gettok_rec f st = Some (t, st').
Proof.
  induction f as [|f IH]; intros st Hf; [lia|].
  cbn [gettok_rec].
  pose proof (skip_whitespace_stdin st) as Hs.
  set (st1 := skip_whitespace st) in *.
  destruct (isalpha (LastChar st1)).
  { destruct (getchar_while isalnum (stdin st1)) as [[acc c] r].
    destruct (String.eqb _ "def"); [|destruct (String.eqb _ "extern")]; eauto. }
  destruct (number_char (LastChar st1)).
  { destruct (getchar_while number_char (stdin st1)) as [[acc c] r]. eauto. }
  destruct (LastChar st1 =? 35).
  { destruct (getchar_while comment_char (stdin st1)) as [[acc c] r] eqn:E.
    pose proof (getchar_while_length _ _ _ _ _ E) as HL.
    destruct (c =? EOF) eqn:Hc; simpl; [eauto|].
    apply IH. simpl. lia. }
  destruct (LastChar st1 =? EOF); [eauto|].
  destruct (getchar (stdin st1)) as [c r]. eauto.
Qed.

Lemma gettok_total (st : state) : exists t st', gettok st = Some (t, st').
Proof. apply gettok_rec_enough. lia. Qed.

Lemma gettok_rec_more_fuel (f : nat) :
  forall f' st r, (f <= f')%nat -> gettok_rec f st = Some r -> gettok_rec f' st = Some r.
Proof.
  induction f as [|f IH]; intros f' st r Hf H; [discriminate|].
  destruct f' as [|f']; [lia|]. cbn [gettok_rec] in *.
  set (st1 := skip_whitespace st) in *.
  destruct (isalpha (LastChar st1)); [exact H|].
  destruct (number_char (LastChar st1)); [exact H|].
  destruct (LastChar st1 =? 35); [|exact H].
  destruct (getchar_while comment_char (stdin st1)) as [[acc c] r'].
  destruct (negb (c =? EOF)); [|exact H].
  apply IH; [lia|exact H].
Qed.

Lemma getNextToken_total (st : state) :
  exists t st', getNextToken st = Some (t, st').
Proof.
  unfold getNextToken. destruct (gettok_total st) as (t & st' & ->). eauto.
Qed.

Lemma getNextToken_spec (st : state) (t : Z) (st' : state) :
  getNextToken st = Some (t, st') ->
  CurTok st' = t /\ BinopPrecedence st' = BinopPrecedence st /\
  stderr st' = stderr st /\ constructed st' = constructed st /\
  (pending st' <= pending st)%nat /\
  (CurTok st <> tok_eof -> (pending st' < pending st)%nat).
Proof.
  unfold getNextToken, gettok.
  destruct (gettok_rec _ st) as [[t0 st0]|] eqn:E; [|discriminate].
  intros H; injection H as <- <-.
  apply gettok_rec_spec in E as ((F1 & F2 & F3 & F4) & Hm & Hs).
  unfold pending. simpl.
  assert (remaining (set_CurTok t0 st0) = remaining st0) as -> by reflexivity.
  repeat split; try assumption.
  - destruct (t0 =? tok_eof) eqn:Et; [lia|].
    apply Z.eqb_neq in Et. specialize (Hs Et). lia.
  - intros Hc. apply Z.eqb_neq in Hc. rewrite Hc.
    destruct (t0 =? tok_eof) eqn:Et; [lia|].
    apply Z.eqb_neq in Et. specialize (Hs Et). lia.
Qed.

(** ** What becomes of the table after installation *)

Lemma table_extends_refl t : table_extends t t.
Proof. intros k; now left. Qed.

Lemma table_extends_trans t1 t2 t3 :
  table_extends t1 t2 -> table_extends t2 t3 -> table_extends t1 t3.
Proof.
  intros H12 H23 k. destruct (H12 k) as [E|[E1 E2]], (H23 k) as [F|[F1 F2]].
  - left; congruence.
  - right; split; congruence.
  - right; split; congruence.
  - congruence.
Qed.

Lemma table_extends_nonempty t t' : table_extends t t' -> t <> ∅ -> t' <> ∅.
Proof.
  intros H Hne E. apply Hne. apply map_eq. intros k. rewrite lookup_empty.
  destruct (H k) as [F|[F _]]; [|exact F].
  rewrite <- F, E. apply lookup_empty.
Qed.

Lemma table_extends_insert_zero (t : gmap ascii Z) (k : ascii) :
  t !! k = None -> table_extends t (<[k := 0]> t).
Proof.
  intros H j. destruct (decide (k = j)) as [<-|Hne].
  - right. split; [exact H|apply lookup_insert_eq].
  - left. now apply lookup_insert_ne.
Qed.

Lemma GetTokPrecendence_table_grows : preserves table_grows GetTokPrecendence.
Proof.
  intros st v st' H. unfold table_grows.
  destruct (isascii (CurTok st)) eqn:Ha.
  2: { rewrite GetTokPrecendence_not_ascii in H by assumption.
       injection H as _ <-. apply table_extends_refl. }
  destruct (decide (BinopPrecedence st = ∅)) as [E|E].
  { rewrite GetTokPrecendence_not_installed in H by assumption.
    injection H as _ <-. apply table_extends_refl. }
  destruct (BinopPrecedence st !! to_char (CurTok st)) as [p|] eqn:L.
  - rewrite (GetTokPrecendence_present st p) in H by assumption.
    injection H as _ <-. apply table_extends_refl.
  - rewrite GetTokPrecendence_absent in H by assumption.
    injection H as _ <-. simpl. now apply table_extends_insert_zero.
Qed.

Lemma getNextToken_table_grows : preserves table_grows getNextToken.
Proof.
  intros st t st' H. apply getNextToken_spec in H as (_ & E & _).
  unfold table_grows. rewrite E. apply table_extends_refl.
Qed.

Lemma discard_preserves {A} R (m : M A) : preserves R m -> preserves R (discard m).
Proof.
  intros Hm st a st' H. unfold discard, bind, ret in H.
  destruct (m st) as [[x st1]|] eqn:E; [|discriminate].
  injection H as _ <-. eapply Hm, E.
Qed.

Lemma run_operation_table (op : operation) (st st' : state) :
  BinopPrecedence st <> ∅ -> run_operation op st = Some (tt, st') ->
  table_grows st st'.
Proof.
  intros Hne H.
  assert (Hw : forall s st0, table_grows st0 (write_stderr s st0))
    by (intros; apply table_extends_refl).
  assert (Hr : forall k st0, table_grows st0 (record_node k st0))
    by (intros; apply table_extends_refl).
  assert (Ht : forall st1 st2 st3, table_grows st1 st2 -> table_grows st2 st3 ->
                                   table_grows st1 st3)
    by (intros ? ? ?; apply table_extends_trans).
  assert (Hf : forall st0, table_grows st0 st0) by (intros; apply table_extends_refl).
  pose proof (fun f => parse_preserves table_grows Hf Ht getNextToken_table_grows
                         GetTokPrecendence_table_grows Hw Hr f) as HP.
  destruct op; simpl in H.
  - unfold InstallBinaryOperators in H.
    apply BinaryOperatorsInstalled_true in Hne. rewrite Hne in H.
    injection H as <-. apply Hf.
  - eapply discard_preserves, H. apply getNextToken_table_grows.
  - eapply discard_preserves, H. apply GetTokPrecendence_table_grows.
  - eapply discard_preserves, H. apply HP.
  - eapply discard_preserves, H. apply HP.
  - eapply discard_preserves, H. apply HP.
  - eapply discard_preserves, H.
    apply ParsePrototype_preserves; auto using getNextToken_table_grows.
  - eapply discard_preserves, H.
    apply ParseDefinition_preserves;
      auto using getNextToken_table_grows, GetTokPrecendence_table_grows.
  - eapply discard_preserves, H.
    apply ParseExtern_preserves; auto using getNextToken_table_grows.
  - eapply discard_preserves, H.
    apply ParseTopLevelExpr_preserves;
      auto using getNextToken_table_grows, GetTokPrecendence_table_grows.
  - eapply MainLoop_preserves, H;
      auto using getNextToken_table_grows, GetTokPrecendence_table_grows.
Qed.

Lemma run_operations_table (ops : list operation) :
  forall st st', BinopPrecedence st <> ∅ ->
                 run_operations ops st = Some (tt, st') -> table_grows st st'.
Proof.
  induction ops as [|op ops IH]; intros st st' Hne H; simpl in H.
  - injection H as <-. apply table_extends_refl.
  - unfold bind in H.
    destruct (run_operation op st) as [[[] st1]|] eqn:E; [|discriminate].
    pose proof (run_operation_table op st st1 Hne E) as H1.
    eapply table_extends_trans; [exact H1|].
    apply IH; [|exact H]. eapply table_extends_nonempty; eassumption.
Qed.

Lemma InstallBinaryOperators_nonempty (st0 st1 : state) :
  InstallBinaryOperators st0 = Some (tt, st1) -> BinopPrecedence st1 <> ∅.
Proof.
  unfold InstallBinaryOperators.
  destruct (BinaryOperatorsInstalled st0) eqn:E; intros H; injection H as <-.
  - now apply BinaryOperatorsInstalled_true.
  - simpl. apply insert_non_empty.
Qed.

(** Two tables related by [table_extends] answer every query alike. *)
Lemma GetTokPrecendence_same_answer (st st' : state) (tok : Z) :
  BinopPrecedence st <> ∅ -> table_grows st st' ->
  option_map fst (GetTokPrecendence (set_CurTok tok st'))
  = option_map fst (GetTokPrecendence (set_CurTok tok st)).
Proof.
  intros Hne Hext.
  pose proof (table_extends_nonempty _ _ Hext Hne) as Hne'.
  destruct (isascii tok) eqn:Ha.
  2: { now rewrite !GetTokPrecendence_not_ascii by exact Ha. }
  destruct (Hext (to_char tok)) as [E|[E1 E2]].
  - destruct (BinopPrecedence st !! to_char tok) as [p|] eqn:L.
    + rewrite (GetTokPrecendence_present (set_CurTok tok st') p),
        (GetTokPrecendence_present (set_CurTok tok st) p) by assumption.
      reflexivity.
    + now rewrite !GetTokPrecendence_absent by assumption.
  - rewrite (GetTokPrecendence_present (set_CurTok tok st') 0) by assumption.
    now rewrite GetTokPrecendence_absent by assumption.
Qed.

(** A query for '@' enters '@' into the installed table: parsing "1@"
    after installation leaves a table that differs from the installed
    one. *)
Lemma query_adds_table_entry :
  exists st1 st2,
    InstallBinaryOperators (initial_state "1@") = Some (tt, st1) /\
    run_operations [Op_getNextToken; Op_ParseExpression 3] st1 = Some (tt, st2) /\
    BinopPrecedence st1 !! "@"%char = None /\
    BinopPrecedence st2 !! "@"%char = Some 0 /\
    BinopPrecedence st2 <> BinopPrecedence st1.
Proof.
  eexists. eexists.
  split; [reflexivity|]. split; [vm_compute; reflexivity|].
  split; [reflexivity|]. split; [reflexivity|].
  intros E. apply (f_equal (fun t => t !! "@"%char)) in E. discriminate E.
Qed.

(** C3, amended.  Once [InstallBinaryOperators] has run, whatever sequence
    of operations follows (installing again, reading tokens, precedence
    queries, any parse function, the driver loop), the table stays
    installed, every entry keeps its value, the only entries that appear
    are characters that were absent and now carry the value 0, and
    [GetTokPrecendence] gives the same answer for every token as right
    after installation.  (The table itself can grow: a query for an
    absent ASCII character enters it with value 0.) *)
Theorem table_after_installation
        (st0 st1 st2 : state) (ops : list operation) :
  InstallBinaryOperators st0 = Some (tt, st1) ->
  run_operations ops st1 = Some (tt, st2) ->
  BinopPrecedence st2 <> ∅ /\
  (forall k v, BinopPrecedence st1 !! k = Some v ->
               BinopPrecedence st2 !! k = Some v) /\
  (forall k v, BinopPrecedence st2 !! k = Some v ->
               BinopPrecedence st1 !! k = Some v \/
               (BinopPrecedence st1 !! k = None /\ v = 0)) /\
  (forall tok, option_map fst (GetTokPrecendence (set_CurTok tok st2))
               = option_map fst (GetTokPrecendence (set_CurTok tok st1))).
Proof.
  intros Hi Hr. apply InstallBinaryOperators_nonempty in Hi.
  pose proof (run_operations_table ops st1 st2 Hi Hr) as Hext.
  split; [eapply table_extends_nonempty; eassumption|].
  split; [|split].
  - intros k v L. destruct (Hext k) as [E|[E _]]; congruence.
  - intros k v L. destruct (Hext k) as [E|[E1 E2]].
    + left; congruence.
    + right; split; congruence.
  - intros tok. now apply GetTokPrecendence_same_answer.
Qed.

Lemma table_after_installation_witness :
  InstallBinaryOperators (initial_state "1@") = Some (tt, after_install "1@") /\
  run_operations [Op_InstallBinaryOperators; Op_getNextToken; Op_ParseExpression 3]
                 (after_install "1@")
  = Some (tt, after_parsing_1_at) /\
  BinopPrecedence after_parsing_1_at <> ∅ /\
  (forall k v, BinopPrecedence (after_install "1@") !! k = Some v ->
               BinopPrecedence after_parsing_1_at !! k = Some v) /\
  (forall k v, BinopPrecedence after_parsing_1_at !! k = Some v ->
               BinopPrecedence (after_install "1@") !! k = Some v \/
               (BinopPrecedence (after_install "1@") !! k = None /\ v = 0)) /\
  (forall tok, option_map fst (GetTokPrecendence (set_CurTok tok after_parsing_1_at))
               = option_map fst (GetTokPrecendence (set_CurTok tok (after_install "1@")))).
Proof.
  split; [reflexivity|]. split; [vm_compute; reflexivity|].
  apply (table_after_installation (initial_state "1@") (after_install "1@")
           after_parsing_1_at
           [Op_InstallBinaryOperators; Op_getNextToken; Op_ParseExpression 3]);
    vm_compute; reflexivity.
Defined.

(** ** Parsing before the table is installed

    With an empty table the query answers -1 or -2 and enters nothing, so
    the table stays empty through every parse function, and the operator
    loop hands back its left-hand side without reading a token. *)

Lemma parse_stays_uninstalled (f : nat) :
  preserves stays_uninstalled (ParsePrimary f) /\
  preserves stays_uninstalled (ParseParenExpr f) /\
  preserves stays_uninstalled (ParseIdentifierExpr f) /\
  (forall args, preserves stays_uninstalled (ParseIdentifierExpr_args f args)) /\
  preserves stays_uninstalled (ParseExpression f) /\
  (forall prec lhs, preserves stays_uninstalled (ParseBinOpRHS f prec lhs)).
Proof.
  apply parse_preserves; unfold stays_uninstalled.
  - auto.
  - auto.
  - intros st t st' H E. apply getNextToken_spec in H as (_ & -> & _). exact E.
  - intros st v st' H E.
    destruct (GetTokPrecendence_empty_table st E) as [H'|H'];
      rewrite H' in H; injection H as _ <-; exact E.
  - auto.
  - auto.
Qed.

(** With an empty table [ParseExpression] returns what its leading
    [ParsePrimary] returns, tree or [nullptr]; beyond the primary it reads
    nothing and at most prints the "not installed" diagnostic. *)
Lemma ParseExpression_empty_table (f : nat) (st : state)
      (r : option ExprAST) (st1 : state) :
  BinopPrecedence st = ∅ -> ParsePrimary f st = Some (r, st1) ->
  BinopPrecedence st1 = ∅ /\
  exists st', ParseExpression (S f) st = Some (r, st') /\
              (st' = st1 \/
               (r <> None /\ st' = write_stderr not_installed_line st1)).
Proof.
  intros E H.
  pose proof (proj1 (parse_stays_uninstalled f) _ _ _ H E) as E1.
  split; [exact E1|].
  cbn [ParseExpression]. unfold bind at 1. rewrite H.
  destruct r as [lhs|].
  - destruct f as [|f]; [discriminate|].
    destruct (ParseBinOpRHS_empty_table st1 0 lhs f E1 (Z.le_refl 0))
      as (st' & -> & [->| ->]); eexists; (split; [reflexivity|]).
    + now left.
    + right. now split.
  - eexists. split; [reflexivity|now left].
Qed.

(** Without the table, "(1+2)" and "f(1+2)" are rejected: the inner
    expression parse stops at '+', which is not the ')' or ',' its caller
    expects.  With the table installed both inputs parse. *)
Lemma uninstalled_table_fails_in_parentheses :
  (forall fuel, exists st,
      parse_input false (ParseExpression (8 + fuel)) "(1+2)" = Some (None, st) /\
      stderr st = [not_installed_line; error_line "expected ')'"]) /\
  (forall fuel, exists st,
      parse_input true (ParseExpression (8 + fuel)) "(1+2)"
      = Some (Some (BinaryExprAST "+" (Num 1) (Num 2)), st) /\
      stderr st = []) /\
  (forall fuel, exists st,
      parse_input false (ParseExpression (8 + fuel)) "f(1+2)" = Some (None, st) /\
      stderr st = [not_installed_line;
                   error_line "Expected ')' or ',' in argument list"]) /\
  (forall fuel, exists st,
      parse_input true (ParseExpression (8 + fuel)) "f(1+2)"
      = Some (Some (CallExprAST "f" [BinaryExprAST "+" (Num 1) (Num 2)]), st) /\
      stderr st = []).
Proof.
  split; [|split; [|split]]; run_concrete ParseExpression_le.
Qed.

(** C10, amended.  With the table not installed the query answers -2 at
    an ASCII character and -1 at any other token, both below every floor
    [0 <= exprPrec], so [ParseBinOpRHS] never fails and never reads a
    token: it hands back its left-hand side at once.  [ParseExpression]
    therefore returns exactly what its leading [ParsePrimary] returns, and
    on "1+2" that is [NumberExprAST 1] with '+' left as the current token
    and the "not installed" diagnostic printed once.  The operator that is
    left behind can still make an enclosing construct fail: on "(1+2)" the
    primary is the parenthesised expression, whose inner parse stops at
    '+' where ')' is required, and on "f(1+2)" the argument stops at '+'
    where ')' or ',' is required; in both cases the result is [nullptr],
    while with the table installed both inputs parse. *)
Theorem ParseExpression_before_installation :
  (forall st : state,
      BinopPrecedence st = ∅ ->
      (isascii (CurTok st) = true ->
       GetTokPrecendence st = Some (-2, write_stderr not_installed_line st)) /\
      (isascii (CurTok st) = false -> GetTokPrecendence st = Some (-1, st))) /\
  (forall (st : state) (prec : Z) (lhs : ExprAST) (fuel : nat),
      BinopPrecedence st = ∅ -> 0 <= prec ->
      exists st', ParseBinOpRHS (S fuel) prec lhs st = Some (Some lhs, st') /\
                  (st' = st \/ st' = write_stderr not_installed_line st)) /\
  (forall (f : nat) (st : state) (r : option ExprAST) (st1 : state),
      BinopPrecedence st = ∅ -> ParsePrimary f st = Some (r, st1) ->
      BinopPrecedence st1 = ∅ /\
      exists st', ParseExpression (S f) st = Some (r, st') /\
                  (st' = st1 \/
                   (r <> None /\ st' = write_stderr not_installed_line st1))) /\
  (forall fuel, exists st,
      parse_input false (ParseExpression (3 + fuel)) "1+2" = Some (Some (Num 1), st)
      /\ (CurTok st = code "+" /\ BinopPrecedence st = ∅
          /\ stderr st = [not_installed_line])) /\
  (forall fuel, exists st,
      parse_input false (ParseExpression (8 + fuel)) "(1+2)" = Some (None, st)
      /\ (CurTok st = code "+" /\ BinopPrecedence st = ∅
          /\ stderr st = [not_installed_line; error_line "expected ')'"])) /\
  (forall fuel, exists st,
      parse_input false (ParseExpression (8 + fuel)) "f(1+2)" = Some (None, st)
      /\ (CurTok st = code "+" /\ BinopPrecedence st = ∅
          /\ stderr st = [not_installed_line;
                          error_line "Expected ')' or ',' in argument list"])) /\
  (forall fuel, exists st,
      parse_input true (ParseExpression (8 + fuel)) "(1+2)"
      = Some (Some (BinaryExprAST "+" (Num 1) (Num 2)), st)
      /\ (CurTok st = tok_eof /\ stderr st = [])) /\
  (forall fuel, exists st,
      parse_input true (ParseExpression (8 + fuel)) "f(1+2)"
      = Some (Some (CallExprAST "f" [BinaryExprAST "+" (Num 1) (Num 2)]), st)
      /\ (CurTok st = tok_eof /\ stderr st = [])).
Proof.
  split; [|split; [|split; [|split; [|split; [|split; [|split]]]]]].
  - intros st E. split.
    + intros Ha. now apply GetTokPrecendence_not_installed.
    + apply GetTokPrecendence_not_ascii.
  - exact ParseBinOpRHS_empty_table.
  - exact ParseExpression_empty_table.
  - run_concrete ParseExpression_le.
  - run_concrete ParseExpression_le.
  - run_concrete ParseExpression_le.
  - run_concrete ParseExpression_le.
  - run_concrete ParseExpression_le.
Qed.

Lemma ParseExpression_before_installation_witness :
  exists st st1,
    BinopPrecedence st = ∅ /\
    ParsePrimary 1 st = Some (Some (Num 1), st1) /\
    BinopPrecedence st1 = ∅ /\
    ParseExpression 2 st = Some (Some (Num 1), write_stderr not_installed_line st1).
Proof.
  exists (set_CurTok tok_number
            (set_NumVal (of_Z 1) (set_input (code "+") "2" (initial_state "")))).
  eexists.
  split; [reflexivity|]. split; [vm_compute; reflexivity|].
  match goal with
  | |- BinopPrecedence ?s1 = _ /\ ParseExpression _ ?s = _ =>
      destruct (proj1 (proj2 (proj2 ParseExpression_before_installation))
                  1%nat s (Some (Num 1)) s1 eq_refl ltac:(vm_compute; reflexivity))
        as (E1 & st' & H & Hs)
  end.
  split; [exact E1|]. rewrite H. f_equal. f_equal.
  destruct Hs as [->|[_ ->]]; [|reflexivity].
  vm_compute in H. discriminate H.
Defined.

(** ** Inputs made of whitespace and comments *)

Lemma getchar_while_isspace_blank s acc c r :
  blank false s = true -> getchar_while isspace s = (acc, c, r) ->
  (c = EOF /\ r = "") \/ (c = 35 /\ blank true r = true).
Proof.
  revert acc c r. induction s as [|a rest IH]; intros acc c r Hb H; simpl in H.
  - injection H as _ <- <-. now left.
  - simpl in Hb. destruct (code a =? 35) eqn:Eh.
    + apply Z.eqb_eq in Eh. rewrite Eh in H. simpl in H.
      injection H as _ <- <-. now right.
    + apply andb_true_iff in Hb as [Hs Hb]. rewrite Hs in H.
      destruct (getchar_while isspace rest) as [[acc' c'] r'] eqn:E.
      injection H as _ <- <-. eapply IH; [exact Hb|reflexivity].
Qed.

Lemma getchar_while_comment_blank s acc c r :
  blank true s = true -> getchar_while comment_char s = (acc, c, r) ->
  (c = EOF /\ r = "") \/ (isspace c = true /\ c <> EOF /\ blank false r = true).
Proof.
  revert acc c r. induction s as [|a rest IH]; intros acc c r Hb H; simpl in H.
  - injection H as _ <- <-. now left.
  - simpl in Hb. unfold eol in Hb. unfold comment_char at 1 in H.
    destruct (code a =? 10) eqn:E10.
    { rewrite andb_false_r in H. simpl in H, Hb.
      injection H as _ <- <-. apply Z.eqb_eq in E10. rewrite E10. now right. }
    destruct (code a =? 13) eqn:E13.
    { rewrite andb_false_r in H. simpl in H, Hb.
      injection H as _ <- <-. apply Z.eqb_eq in E13. rewrite E13. now right. }
    simpl in Hb.
    assert ((code a =? EOF) = false) as EE.
    { unfold code, EOF. apply Z.eqb_neq. lia. }
    rewrite EE in H. simpl in H.
    destruct (getchar_while comment_char rest) as [[acc' c'] r'] eqn:E.
    injection H as _ <- <-. eapply IH; [exact Hb|reflexivity].
Qed.

Lemma gettok_rec_blank (f : nat) :
  forall st, (String.length (stdin st) < f)%nat ->
             isspace (LastChar st) = true -> blank false (stdin st) = true ->
             exists st', gettok_rec f st = Some (tok_eof, st') /\
                         LastChar st' = EOF /\ stdin st' = "" /\
                         same_parser_fields st st'.
Proof.
  induction f as [|f IH]; intros st Hf Hs Hb; [lia|].
  cbn [gettok_rec]. unfold skip_whitespace. rewrite Hs.
  destruct (getchar_while isspace (stdin st)) as [[acc c] r] eqn:E.
  pose proof (getchar_while_length _ _ _ _ _ E) as HL.
  destruct (getchar_while_isspace_blank _ _ _ _ Hb E) as [[-> ->]|[-> Hb1]].
  - simpl. eexists. split; [reflexivity|]. now repeat split.
  - simpl.
    destruct (getchar_while comment_char r) as [[acc1 c1] r1] eqn:E1.
    pose proof (getchar_while_length _ _ _ _ _ E1) as HL1.
    destruct (getchar_while_comment_blank _ _ _ _ Hb1 E1)
      as [[-> ->]|(Hs1 & Hc1 & Hb2)].
    + simpl. eexists. split; [reflexivity|]. now repeat split.
    + apply Z.eqb_neq in Hc1. rewrite Hc1 in *. simpl.
      destruct (IH (set_input c1 r1 (set_input 35 r st))) as (st' & H' & ? & ? & F);
        [simpl in *; lia | exact Hs1 | exact Hb2 |].
      exists st'. split; [exact H'|].
      destruct F as (G1 & G2 & G3 & G4). simpl in G1, G2, G3, G4.
      unfold same_parser_fields. now repeat split.
Qed.

Lemma gettok_blank (input : string) (st : state) :
  stdin st = input -> LastChar st = 32 -> blank false input = true ->
  exists st', gettok st = Some (tok_eof, st') /\
              LastChar st' = EOF /\ stdin st' = "" /\ same_parser_fields st st'.
Proof.
  intros <- HL Hb. unfold gettok. apply gettok_rec_blank; [lia| |exact Hb].
  now rewrite HL.
Qed.

(** Once the end of input has been reported, every later call reports it
    again and leaves the state as it is. *)
Lemma gettok_eof_again (st : state) :
  LastChar st = EOF -> gettok st = Some (tok_eof, st).
Proof.
  intros H. unfold gettok. cbn [gettok_rec].
  assert (skip_whitespace st = st) as ->
    by (unfold skip_whitespace; now rewrite H).
  rewrite H. reflexivity.
Qed.

(** C7.  For every input made only of whitespace and '#' comments (the
    last comment may end with the input), the first call of [gettok]
    returns [tok_eof] with the input used up, and any further call
    returns [tok_eof] again; the driver loop, started on such an input,
    prints its prompt once and returns without constructing a node and
    without reporting a parsed construct or an error. *)
Theorem blank_input_yields_eof (input : string) :
  blank false input = true ->
  (exists st, gettok (initial_state input) = Some (tok_eof, st) /\
              stdin st = "" /\ gettok st = Some (tok_eof, st)) /\
  (forall fuel, exists st,
      parse_input true (MainLoop (S fuel)) input = Some (tt, st) /\
      stderr st = ["ready> "] /\ constructed st = [] /\ CurTok st = tok_eof).
Proof.
  intros Hb. split.
  - destruct (gettok_blank input (initial_state input) eq_refl eq_refl Hb)
      as (st & H & HL & Hs & _).
    exists st. split; [exact H|]. split; [exact Hs|]. now apply gettok_eof_again.
  - intros fuel.
    destruct (gettok_blank input (after_install input) eq_refl eq_refl Hb)
      as (st & H & HL & Hs & (F1 & F2 & F3 & F4)).
    exists (write_stderr "ready> " (set_CurTok tok_eof st)).
    split; [|simpl; rewrite F3, F4; now repeat split].
    unfold parse_input, start. cbn [MainLoop].
    cbv [bind ret gets fprintf_stderr modify InstallBinaryOperators getNextToken].
    change (BinaryOperatorsInstalled (initial_state input)) with false.
    cbv iota.
    change (set_BinopPrecedence _ (initial_state input)) with (after_install input).
    rewrite H. reflexivity.
Qed.

Lemma blank_input_yields_eof_witness :
  blank false sample_blank_input = true /\
  (exists st, gettok (initial_state sample_blank_input) = Some (tok_eof, st) /\
              stdin st = "" /\ gettok st = Some (tok_eof, st)) /\
  (forall fuel, exists st,
      parse_input true (MainLoop (S fuel)) sample_blank_input = Some (tt, st) /\
      stderr st = ["ready> "] /\ constructed st = [] /\ CurTok st = tok_eof).
Proof.
  split; [reflexivity|].
  apply (blank_input_yields_eof sample_blank_input). reflexivity.
Defined.

(** ** Termination of the expression parser *)

(** Symbolic execution of a run given as a hypothesis: the monadic
    operations are unfolded and every call met is named by an equation. *)
Ltac destruct_scrutinee X :=
  lazymatch X with
  | (match ?Y with _ => _ end) _ => destruct_scrutinee Y
  | (match ?Y with _ => _ end) => destruct_scrutinee Y
  | _ => first [is_var X; destruct X | destruct X eqn:?]
  end.

Ltac exec H :=
  cbv [bind ret gets modify make_unique LogError LogErrorP fprintf_stderr
       out_of_fuel] in H;
  repeat (cbv beta iota in H;
          match type of H with
          | None = Some _ => discriminate H
          | (match ?X with _ => _ end) = Some _ => destruct_scrutinee X
          | (match ?X with _ => _ end) _ = Some _ => destruct_scrutinee X
          end).

(** The query always answers; it leaves the input and the current token
    alone, and asking again gives the same answer. *)
Lemma GetTokPrecendence_total (st : state) :
  exists v st', GetTokPrecendence st = Some (v, st') /\
                stdin st' = stdin st /\ LastChar st' = LastChar st /\
                CurTok st' = CurTok st /\
                option_map fst (GetTokPrecendence st') = Some v.
Proof.
  destruct (isascii (CurTok st)) eqn:Ha.
  2: { exists (-1), st. rewrite GetTokPrecendence_not_ascii by assumption. auto. }
  destruct (decide (BinopPrecedence st = ∅)) as [E|E].
  { exists (-2), (write_stderr not_installed_line st).
    rewrite !GetTokPrecendence_not_installed by assumption. auto. }
  destruct (BinopPrecedence st !! to_char (CurTok st)) as [p|] eqn:L.
  - exists (if p <=? 0 then -1 else p), st.
    rewrite (GetTokPrecendence_present st p) by assumption. auto.
  - eexists _, _. rewrite GetTokPrecendence_absent by assumption.
    split; [reflexivity|]. repeat split.
    rewrite (GetTokPrecendence_present _ 0); simpl; try assumption.
    + reflexivity.
    + apply insert_non_empty.
    + apply lookup_insert_eq.
Qed.

Lemma GetTokPrecendence_frame (st : state) (v : Z) (st' : state) :
  GetTokPrecendence st = Some (v, st') ->
  stdin st' = stdin st /\ LastChar st' = LastChar st /\ CurTok st' = CurTok st /\
  option_map fst (GetTokPrecendence st') = Some v.
Proof.
  intros H. destruct (GetTokPrecendence_total st) as (v0 & st0 & H0 & F).
  rewrite H0 in H. injection H as <- <-. exact F.
Qed.

Lemma getNextToken_pending : preserves no_more_pending getNextToken.
Proof. intros st t st' H. now apply getNextToken_spec in H. Qed.

Lemma GetTokPrecendence_pending : preserves no_more_pending GetTokPrecendence.
Proof.
  intros st t st' H. apply GetTokPrecendence_frame in H as (E1 & E2 & E3 & _).
  unfold no_more_pending, pending, remaining. rewrite E1, E2, E3. lia.
Qed.

Lemma parse_pending (f : nat) :
  preserves no_more_pending (ParsePrimary f) /\
  preserves no_more_pending (ParseParenExpr f) /\
  preserves no_more_pending (ParseIdentifierExpr f) /\
  (forall args, preserves no_more_pending (ParseIdentifierExpr_args f args)) /\
  preserves no_more_pending (ParseExpression f) /\
  (forall prec lhs, preserves no_more_pending (ParseBinOpRHS f prec lhs)).
Proof.
  apply parse_preserves; unfold no_more_pending.
  - intros; lia.
  - intros; lia.
  - exact getNextToken_pending.
  - exact GetTokPrecendence_pending.
  - intros; apply Nat.le_refl.
  - intros; apply Nat.le_refl.
Qed.

(** Turns the equations left by [exec] into facts about [pending]. *)
Ltac pending_facts :=
  repeat match goal with
         | H : getNextToken _ = Some _ |- _ =>
             apply getNextToken_spec in H; destruct H as (_ & _ & _ & _ & ? & ?)
         | H : GetTokPrecendence _ = Some _ |- _ =>
             apply GetTokPrecendence_pending in H
         | H : ParsePrimary _ _ = Some _ |- _ => apply parse_pending in H
         | H : ParseParenExpr _ _ = Some _ |- _ => apply parse_pending in H
         | H : ParseIdentifierExpr _ _ = Some _ |- _ => apply parse_pending in H
         | H : ParseIdentifierExpr_args _ _ _ = Some _ |- _ => apply parse_pending in H
         | H : ParseExpression _ _ = Some _ |- _ => apply parse_pending in H
         | H : ParseBinOpRHS _ _ _ _ = Some _ |- _ => apply parse_pending in H
         | H : Some _ = Some _ |- _ => injection H as ? ?; subst
         end;
  unfold no_more_pending, pending, remaining, tok_eof in *; simpl in *.

(** A primary expression that is recognised has consumed a token. *)
Lemma ParsePrimary_consumes (f : nat) (st : state) (e : ExprAST) (st' : state) :
  ParsePrimary f st = Some (Some e, st') -> (pending st' < pending st)%nat.
Proof.
  destruct f as [|f]; [discriminate|]. cbn [ParsePrimary].
  unfold bind at 1, gets.
  destruct (CurTok st =? tok_identifier) eqn:Ei;
    [|destruct (CurTok st =? tok_number) eqn:En;
      [|destruct (CurTok st =? 40) eqn:Ep]].
  - apply Z.eqb_eq in Ei. unfold tok_identifier in Ei.
    destruct f as [|f]; [discriminate|]. cbn [ParseIdentifierExpr]. intros H.
    exec H; pending_facts; lia.
  - apply Z.eqb_eq in En. unfold tok_number in En.
    unfold ParseNumberExpr. intros H. exec H; pending_facts; lia.
  - apply Z.eqb_eq in Ep.
    destruct f as [|f]; [discriminate|]. cbn [ParseParenExpr]. intros H.
    exec H; pending_facts; lia.
  - unfold LogError, bind, modify, ret. discriminate.
Qed.

Ltac run_with H := rewrite H; cbv beta iota.

Lemma ParsePrimary_returns_step (st : state) :
  (forall st1, (pending st1 < pending st)%nat ->
               returns ParseExpression st1 /\
               forall args, returns (fun f => ParseIdentifierExpr_args f args) st1) ->
  returns ParsePrimary st.
Proof.
  intros IH. unfold returns.
  destruct (CurTok st =? tok_identifier) eqn:Ei;
    [|destruct (CurTok st =? tok_number) eqn:En;
      [|destruct (CurTok st =? 40) eqn:Ep]].
  - (* ParseIdentifierExpr *)
    assert (CurTok st <> tok_eof) as Hc
        by (apply Z.eqb_eq in Ei; rewrite Ei; discriminate).
    destruct (getNextToken_total st) as (t1 & st1 & H1).
    pose proof (getNextToken_spec _ _ _ H1) as (_ & _ & _ & _ & _ & L1).
    specialize (L1 Hc).
    destruct (negb (CurTok st1 =? 40)) eqn:E1.
    { exists 2%nat, (Some (VariableExprAST (IdentifierStr st)), record_node VariableNode st1).
      cbn [ParsePrimary ParseIdentifierExpr]. cbv [bind gets ret make_unique modify].
      run_with Ei. run_with H1. run_with E1. reflexivity. }
    destruct (getNextToken_total st1) as (t2 & st2 & H2).
    pose proof (getNextToken_spec _ _ _ H2) as (_ & _ & _ & _ & L2 & _).
    destruct (negb (CurTok st2 =? 41)) eqn:E2.
    + destruct (IH st2 ltac:(lia)) as (_ & HA).
      destruct (HA []) as (fa & [[args|] st3] & H3).
      * destruct (getNextToken_total st3) as (t4 & st4 & H4).
        exists (S (S fa)), (Some (CallExprAST (IdentifierStr st) args),
                            record_node CallNode st4).
        cbn [ParsePrimary ParseIdentifierExpr]. cbv [bind gets ret make_unique modify].
        run_with Ei. run_with H1. run_with E1. run_with H2. run_with E2.
        run_with H3. run_with H4. reflexivity.
      * exists (S (S fa)), (None, st3).
        cbn [ParsePrimary ParseIdentifierExpr]. cbv [bind gets ret make_unique modify].
        run_with Ei. run_with H1. run_with E1. run_with H2. run_with E2.
        run_with H3. reflexivity.
    + destruct (getNextToken_total st2) as (t4 & st4 & H4).
      exists 2%nat, (Some (CallExprAST (IdentifierStr st) []), record_node CallNode st4).
      cbn [ParsePrimary ParseIdentifierExpr]. cbv [bind gets ret make_unique modify].
      run_with Ei. run_with H1. run_with E1. run_with H2. run_with E2.
      run_with H4. reflexivity.
  - (* ParseNumberExpr *)
    destruct (getNextToken_total (record_node NumberNode st)) as (t1 & st1 & H1).
    exists 1%nat, (Some (NumberExprAST (NumVal st)), st1).
    cbn [ParsePrimary]. unfold ParseNumberExpr. cbv [bind gets ret make_unique modify].
    run_with Ei. run_with En. run_with H1. reflexivity.
  - (* ParseParenExpr *)
    assert (CurTok st <> tok_eof) as Hc
        by (apply Z.eqb_eq in Ep; rewrite Ep; discriminate).
    destruct (getNextToken_total st) as (t1 & st1 & H1).
    pose proof (getNextToken_spec _ _ _ H1) as (_ & _ & _ & _ & _ & L1).
    specialize (L1 Hc).
    destruct (IH st1 L1) as ((fe & [[e|] st2] & H2) & _).
    + destruct (negb (CurTok st2 =? 41)) eqn:E2.
      * exists (S (S fe)), (None, write_stderr (error_line "expected ')'") st2).
        cbn [ParsePrimary ParseParenExpr].
        cbv [bind gets ret make_unique modify LogError].
        run_with Ei. run_with En. run_with Ep. run_with H1. run_with H2.
        run_with E2. reflexivity.
      * destruct (getNextToken_total st2) as (t3 & st3 & H3).
        exists (S (S fe)), (Some e, st3).
        cbn [ParsePrimary ParseParenExpr].
        cbv [bind gets ret make_unique modify LogError].
        run_with Ei. run_with En. run_with Ep. run_with H1. run_with H2.
        run_with E2. run_with H3. reflexivity.
    + exists (S (S fe)), (None, st2).
      cbn [ParsePrimary ParseParenExpr].
      cbv [bind gets ret make_unique modify LogError].
      run_with Ei. run_with En. run_with Ep. run_with H1. run_with H2.
      reflexivity.
  - exists 1%nat, (None, write_stderr
                         (error_line "Unknown token when expecting an expression.") st).
    cbn [ParsePrimary]. cbv [bind gets ret make_unique modify LogError].
    run_with Ei. run_with En. run_with Ep. reflexivity.
Qed.

Lemma ParseBinOpRHS_returns_step (st : state) :
  (forall st1, (pending st1 <= pending st)%nat -> returns ParsePrimary st1) ->
  (forall st1, (pending st1 < pending st)%nat ->
               forall prec lhs, returns (fun f => ParseBinOpRHS f prec lhs) st1) ->
  forall prec lhs, returns (fun f => ParseBinOpRHS f prec lhs) st.
Proof.
  intros HP IH prec lhs. unfold returns.
  destruct (GetTokPrecendence_total st) as (tokPrec & st0 & Hq & _).
  pose proof (GetTokPrecendence_pending _ _ _ Hq) as L0. unfold no_more_pending in L0.
  destruct (tokPrec <? prec) eqn:Et.
  { exists 1%nat, (Some lhs, st0).
    cbn [ParseBinOpRHS]. cbv [bind gets ret].
    run_with Hq. run_with Et. reflexivity. }
  destruct (getNextToken_total st0) as (t1 & st1 & H1).
  pose proof (getNextToken_pending _ _ _ H1) as L1. unfold no_more_pending in L1.
  destruct (HP st1 ltac:(lia)) as (f1 & [[rhs|] st2] & H2).
  2: { exists (S f1), (None, st2).
       cbn [ParseBinOpRHS]. cbv [bind gets ret].
       run_with Hq. run_with Et. run_with H1. run_with H2. reflexivity. }
  pose proof (ParsePrimary_consumes _ _ _ _ H2) as L2.
  destruct (GetTokPrecendence_total st2) as (nextPrec & st3 & Hq3 & _).
  pose proof (GetTokPrecendence_pending _ _ _ Hq3) as L3. unfold no_more_pending in L3.
  destruct (tokPrec <? nextPrec) eqn:En.
  - destruct (IH st3 ltac:(lia) (tokPrec + 1) rhs) as (f2 & [[rhs'|] st4] & H4).
    + pose proof (proj2 (proj2 (proj2 (proj2 (proj2 (parse_pending f2)))))
                    _ _ _ _ _ H4) as L4.
      unfold no_more_pending in L4.
      destruct (IH (record_node BinaryNode st4)
                   ltac:(change (pending (record_node BinaryNode st4))
                           with (pending st4); lia)
                   prec (BinaryExprAST (to_char (CurTok st0)) lhs rhs'))
        as (f3 & r & H5).
      pose (F := Nat.max f1 (Nat.max f2 f3)).
      assert (HF1 : (f1 <= F)%nat) by (unfold F; lia).
      assert (HF2 : (f2 <= F)%nat) by (unfold F; lia).
      assert (HF3 : (f3 <= F)%nat) by (unfold F; lia).
      exists (S F), r.
      cbn [ParseBinOpRHS]. cbv [bind gets ret make_unique modify].
      run_with Hq. run_with Et. run_with H1.
      rewrite (ParsePrimary_le f1 F HF1 _ _ H2); cbv beta iota.
      run_with Hq3. run_with En.
      rewrite (ParseBinOpRHS_le f2 F _ _ HF2 _ _ H4); cbv beta iota.
      apply (ParseBinOpRHS_le f3 F _ _ HF3). exact H5.
    + pose (F := Nat.max f1 f2).
      assert (HF1 : (f1 <= F)%nat) by (unfold F; lia).
      assert (HF2 : (f2 <= F)%nat) by (unfold F; lia).
      exists (S F), (None, st4).
      cbn [ParseBinOpRHS]. cbv [bind gets ret make_unique modify].
      run_with Hq. run_with Et. run_with H1.
      rewrite (ParsePrimary_le f1 F HF1 _ _ H2); cbv beta iota.
      run_with Hq3. run_with En.
      rewrite (ParseBinOpRHS_le f2 F _ _ HF2 _ _ H4); cbv beta iota.
      reflexivity.
  - destruct (IH (record_node BinaryNode st3)
                 ltac:(change (pending (record_node BinaryNode st3))
                         with (pending st3); lia)
                 prec (BinaryExprAST (to_char (CurTok st0)) lhs rhs))
      as (f3 & r & H5).
    pose (F := Nat.max f1 f3).
    assert (HF1 : (f1 <= F)%nat) by (unfold F; lia).
    assert (HF3 : (f3 <= F)%nat) by (unfold F; lia).
    exists (S F), r.
    cbn [ParseBinOpRHS]. cbv [bind gets ret make_unique modify].
    run_with Hq. run_with Et. run_with H1.
    rewrite (ParsePrimary_le f1 F HF1 _ _ H2); cbv beta iota.
    run_with Hq3. run_with En.
    apply (ParseBinOpRHS_le f3 F _ _ HF3). exact H5.
Qed.

Lemma ParseExpression_returns_step (st : state) :
  returns ParsePrimary st ->
  (forall st1, (pending st1 < pending st)%nat ->
               forall prec lhs, returns (fun f => ParseBinOpRHS f prec lhs) st1) ->
  returns ParseExpression st.
Proof.
  intros (f1 & [[lhs|] st1] & H1) IH; unfold returns.
  - pose proof (ParsePrimary_consumes _ _ _ _ H1) as L1.
    destruct (IH st1 L1 0 lhs) as (f2 & r & H2).
    pose (F := Nat.max f1 f2).
    assert (HF1 : (f1 <= F)%nat) by (unfold F; lia).
    assert (HF2 : (f2 <= F)%nat) by (unfold F; lia).
    exists (S F), r.
    cbn [ParseExpression]. cbv [bind].
    rewrite (ParsePrimary_le f1 F HF1 _ _ H1); cbv beta iota.
    apply (ParseBinOpRHS_le f2 F _ _ HF2). exact H2.
  - exists (S f1), (None, st1).
    cbn [ParseExpression]. cbv [bind]. run_with H1. reflexivity.
Qed.

Lemma ParseExpression_consumes (f : nat) (st : state) (e : ExprAST) (st' : state) :
  ParseExpression f st = Some (Some e, st') -> (pending st' < pending st)%nat.
Proof.
  destruct f as [|f]; [discriminate|]. cbn [ParseExpression]. intros H.
  exec H; try discriminate H;
    match goal with
    | H1 : ParsePrimary _ _ = Some _ |- _ => apply ParsePrimary_consumes in H1
    end;
    pending_facts; lia.
Qed.

Lemma ParseIdentifierExpr_args_returns_step (st : state) :
  returns ParseExpression st ->
  (forall st1, (pending st1 < pending st)%nat ->
               forall args, returns (fun f => ParseIdentifierExpr_args f args) st1) ->
  forall args, returns (fun f => ParseIdentifierExpr_args f args) st.
Proof.
  intros (f1 & [[arg|] st1] & H1) IH args; unfold returns.
  2: { exists (S f1), (None, st1).
       cbn [ParseIdentifierExpr_args]. cbv [bind]. run_with H1. reflexivity. }
  pose proof (ParseExpression_consumes _ _ _ _ H1) as L1.
  destruct (CurTok st1 =? 41) eqn:E1.
  { exists (S f1), (Some (args ++ [arg])%list, st1).
    cbn [ParseIdentifierExpr_args]. cbv [bind gets ret].
    run_with H1. run_with E1. reflexivity. }
  destruct (negb (CurTok st1 =? 44)) eqn:E2.
  { exists (S f1), (None, write_stderr
                            (error_line "Expected ')' or ',' in argument list") st1).
    cbn [ParseIdentifierExpr_args]. cbv [bind gets ret LogError modify].
    run_with H1. run_with E1. run_with E2. reflexivity. }
  destruct (getNextToken_total st1) as (t2 & st2 & H2).
  pose proof (getNextToken_pending _ _ _ H2) as L2. unfold no_more_pending in L2.
  destruct (IH st2 ltac:(lia) (args ++ [arg])%list) as (f3 & r & H3).
  pose (F := Nat.max f1 f3).
  assert (HF1 : (f1 <= F)%nat) by (unfold F; lia).
  assert (HF3 : (f3 <= F)%nat) by (unfold F; lia).
  exists (S F), r.
  cbn [ParseIdentifierExpr_args]. cbv [bind gets ret LogError modify].
  rewrite (ParseExpression_le f1 F HF1 _ _ H1); cbv beta iota.
  run_with E1. run_with E2. run_with H2.
  apply (proj1 (proj2 (proj2 (proj2 (parse_le f3)))) F HF3). exact H3.
Qed.

(** Every function of the expression parser returns, in every state. *)
Lemma parse_returns (n : nat) :
  forall st, (pending st < n)%nat ->
    returns ParsePrimary st /\
    (forall prec lhs, returns (fun f => ParseBinOpRHS f prec lhs) st) /\
    returns ParseExpression st /\
    (forall args, returns (fun f => ParseIdentifierExpr_args f args) st).
Proof.
  induction n as [|n IH]; intros st Hn; [lia|].
  assert (HP : forall st1, (pending st1 <= pending st)%nat -> returns ParsePrimary st1).
  { intros st1 H1. apply ParsePrimary_returns_step.
    intros st2 H2. destruct (IH st2 ltac:(lia)) as (_ & _ & HE & HA). now split. }
  assert (HB : forall st1, (pending st1 <= pending st)%nat ->
                 forall prec lhs, returns (fun f => ParseBinOpRHS f prec lhs) st1).
  { intros st1 H1. apply ParseBinOpRHS_returns_step.
    - intros st2 H2. apply HP. lia.
    - intros st2 H2. apply (IH st2). lia. }
  assert (HE : returns ParseExpression st).
  { apply ParseExpression_returns_step; [apply HP; lia|].
    intros st1 H1. apply HB. lia. }
  repeat split.
  - apply HP. lia.
  - apply HB. lia.
  - exact HE.
  - apply ParseIdentifierExpr_args_returns_step; [exact HE|].
    intros st1 H1. apply (IH st1). lia.
Qed.

(** A run of [ParseBinOpRHS] that hands back a tree left the loop through
    the test [tokPrec < exprPrec]: in the final state the current token's
    precedence is below the floor. *)
Lemma ParseBinOpRHS_exit_below_floor (f : nat) :
  forall prec lhs st e st',
    ParseBinOpRHS f prec lhs st = Some (Some e, st') ->
    exists v, option_map fst (GetTokPrecendence st') = Some v /\ v < prec.
Proof.
  induction f as [|f IH]; intros prec lhs st e st' H; [discriminate|].
  cbn [ParseBinOpRHS] in H. exec H; try discriminate H.
  - injection H as _ <-.
    match goal with
    | Hq : GetTokPrecendence st = Some (?z, _) |- _ =>
        apply GetTokPrecendence_frame in Hq as (_ & _ & _ & Hq); exists z
    end.
    split; [assumption|lia].
  - eapply IH; exact H.
  - eapply IH; exact H.
Qed.

(** When the query answers below the floor, the loop is left at its first
    test with the left-hand side as it was. *)
Lemma ParseBinOpRHS_exit_at_once (fuel : nat) (prec : Z) (lhs : ExprAST)
      (st : state) (v : Z) (st0 : state) :
  GetTokPrecendence st = Some (v, st0) -> v < prec ->
  ParseBinOpRHS (S fuel) prec lhs st = Some (Some lhs, st0).
Proof.
  intros Hq Hv. cbn [ParseBinOpRHS]. unfold bind at 1. rewrite Hq.
  assert ((v <? prec) = true) as -> by lia. reflexivity.
Qed.

(** The query answers -2, -1, or the positive value stored for the
    current character. *)
Lemma GetTokPrecendence_range (st : state) (v : Z) (st0 : state) :
  GetTokPrecendence st = Some (v, st0) ->
  v = -2 \/ v = -1 \/
  (0 < v /\ BinopPrecedence st !! to_char (CurTok st) = Some v).
Proof.
  intros H. destruct (isascii (CurTok st)) eqn:Ha.
  2: { rewrite GetTokPrecendence_not_ascii in H by assumption.
       injection H as <- _. auto. }
  destruct (decide (BinopPrecedence st = ∅)) as [E|E].
  { rewrite GetTokPrecendence_not_installed in H by assumption.
    injection H as <- _. auto. }
  destruct (BinopPrecedence st !! to_char (CurTok st)) as [p|] eqn:L.
  - rewrite (GetTokPrecendence_present st p) in H by assumption.
    destruct (p <=? 0) eqn:Hp; injection H as <- _; [auto|].
    right. right. split; [lia|reflexivity].
  - rewrite GetTokPrecendence_absent in H by assumption.
    injection H as <- _. auto.
Qed.

(** On "1+" the loop is entered with '+' (precedence 20, not below the
    floor 0) and is left by [return nullptr] when no primary follows. *)
Lemma ParseBinOpRHS_exit_by_failure :
  exists st st',
    parse_input true (ParsePrimary 1) "1+" = Some (Some (Num 1), st) /\
    option_map fst (GetTokPrecendence st) = Some 20 /\
    ParseBinOpRHS 2 0 (Num 1) st = Some (None, st') /\
    stderr st' = [error_line "Unknown token when expecting an expression."].
Proof.
  eexists. eexists. split; [vm_compute; reflexivity|].
  split; [reflexivity|]. split; [vm_compute; reflexivity|]. reflexivity.
Qed.

(** C8, amended.  For every state (so every finite remaining input),
    every floor and every left-hand side, [ParseBinOpRHS] returns: from
    some fuel on it gives one and the same result, a tree or [nullptr],
    and it never puts tokens back.  When the result is a tree, the loop
    was left through the test [tokPrec < exprPrec], which holds in the
    final state; the loop is also left, with [nullptr], when
    [ParsePrimary] or the recursive call fails.  Whenever the query
    answers below the floor the loop is left at once; the query answers
    -2, -1 or a positive stored precedence, and -1 at every token that is
    not an ASCII character (the end of input included), so at a token that
    is not an operator the test succeeds for every floor [0 <= exprPrec]. *)
Theorem ParseBinOpRHS_terminates (st : state) (prec : Z) (lhs : ExprAST) :
  (exists fuel0 r st',
      (forall k, ParseBinOpRHS (fuel0 + k) prec lhs st = Some (r, st')) /\
      (pending st' <= pending st)%nat /\
      (forall e, r = Some e ->
                 exists v, option_map fst (GetTokPrecendence st') = Some v /\ v < prec)) /\
  (forall fuel v st0,
      GetTokPrecendence st = Some (v, st0) -> v < prec ->
      ParseBinOpRHS (S fuel) prec lhs st = Some (Some lhs, st0)) /\
  (forall v st0,
      GetTokPrecendence st = Some (v, st0) ->
      v = -2 \/ v = -1 \/
      (0 < v /\ BinopPrecedence st !! to_char (CurTok st) = Some v)) /\
  (isascii (CurTok st) = false -> GetTokPrecendence st = Some (-1, st)).
Proof.
  split; [|split; [|split]].
  - destruct (parse_returns (S (pending st)) st ltac:(lia)) as (_ & HB & _).
    destruct (HB prec lhs) as (f & [r st'] & H).
    exists f, r, st'. split; [|split].
    + intros k. apply (ParseBinOpRHS_le f); [lia|exact H].
    + apply (proj2 (proj2 (proj2 (proj2 (proj2 (parse_pending f))))) _ _ _ _ _ H).
    + intros e ->. eapply ParseBinOpRHS_exit_below_floor; exact H.
  - intros fuel v st0. apply ParseBinOpRHS_exit_at_once.
  - apply GetTokPrecendence_range.
  - apply GetTokPrecendence_not_ascii.
Qed.

Lemma ParseBinOpRHS_terminates_witness :
  GetTokPrecendence (query_state installed_table tok_eof)
  = Some (-1, query_state installed_table tok_eof) /\
  -1 < 0 /\
  ParseBinOpRHS 1 0 (Num 1) (query_state installed_table tok_eof)
  = Some (Some (Num 1), query_state installed_table tok_eof).
Proof.
  split; [reflexivity|]. split; [lia|].
  apply (proj1 (proj2 (ParseBinOpRHS_terminates
                         (query_state installed_table tok_eof) 0 (Num 1)))
           0%nat (-1) (query_state installed_table tok_eof));
    [reflexivity|lia].
Defined.

(** ** Parenthesised input

    The run on [e] is compared with the run on ["(" ++ e ++ ")"]: as
    long as input remains the two lexers deliver the same tokens, and
    where the first one reports the end of input the second one delivers
    the closing parenthesis. *)

Lemma code_range (a : ascii) : 0 <= code a < 256.
Proof.
  unfold code. pose proof (N_ascii_bounded a). lia.
Qed.

Lemma code_not_EOF (a : ascii) : code a <> EOF.
Proof. pose proof (code_range a). unfold EOF. lia. Qed.

Lemma getchar_while_app_more p s sfx acc c r :
  getchar_while p s = (acc, c, r) -> c <> EOF ->
  getchar_while p (s ++ sfx) = (acc, c, r ++ sfx).
Proof.
  revert acc c r. induction s as [|a rest IH]; intros acc c r H Hc; simpl in H.
  - injection H as _ <- _. contradiction.
  - simpl. destruct (p (code a)).
    + destruct (getchar_while p rest) as [[acc' c'] r'] eqn:E.
      injection H as <- <- <-. now rewrite (IH _ _ _ eq_refl Hc).
    + injection H as <- <- <-. reflexivity.
Qed.

Lemma getchar_while_app_end p s x acc r :
  getchar_while p s = (acc, EOF, r) -> p (code x) = false ->
  getchar_while p (s ++ String x "") = (acc, code x, "").
Proof.
  revert acc r. induction s as [|a rest IH]; intros acc r H Hx; simpl in H.
  - injection H as <- _. simpl. now rewrite Hx.
  - simpl. destruct (p (code a)).
    + destruct (getchar_while p rest) as [[acc' c'] r'] eqn:E.
      injection H as <- -> <-. now rewrite (IH _ _ eq_refl Hx).
    + injection H as _ H _. now apply code_not_EOF in H.
Qed.

Lemma getchar_while_closed p s acc c r :
  (forall x, p x = true -> x <> 35) ->
  open_comment false s = false -> getchar_while p s = (acc, c, r) -> c <> EOF ->
  open_comment (c =? 35) r = false.
Proof.
  intros Hp. revert acc c r.
  induction s as [|a rest IH]; intros acc c r Ho H Hc; simpl in H.
  - injection H as _ <- _. contradiction.
  - simpl in Ho. destruct (p (code a)) eqn:Ep.
    + destruct (getchar_while p rest) as [[acc' c'] r'] eqn:E.
      injection H as _ <- <-.
      apply Hp in Ep. apply Z.eqb_neq in Ep. rewrite Ep in Ho.
      eapply IH; [exact Ho|reflexivity|exact Hc].
    + injection H as _ <- <-. exact Ho.
Qed.

Lemma getchar_while_comment_closed s acc c r :
  open_comment true s = false -> getchar_while comment_char s = (acc, c, r) ->
  c <> EOF /\ isspace c = true /\ open_comment false r = false.
Proof.
  revert acc c r. induction s as [|a rest IH]; intros acc c r Ho H; simpl in H, Ho.
  - discriminate.
  - assert (comment_char (code a) = negb (eol (code a))) as Ec.
    { unfold comment_char, eol.
      pose proof (code_not_EOF a) as Hn. apply Z.eqb_neq in Hn. rewrite Hn.
      now destruct (code a =? 10), (code a =? 13). }
    rewrite Ec in H. destruct (eol (code a)) eqn:Ee; simpl in H, Ho.
    + injection H as _ <- <-. split; [apply code_not_EOF|]. split; [|exact Ho].
      unfold eol in Ee. apply orb_true_iff in Ee as [E|E];
        apply Z.eqb_eq in E; rewrite E; reflexivity.
    + destruct (getchar_while comment_char rest) as [[acc' c'] r'] eqn:E.
      injection H as _ <- <-. eapply IH; [exact Ho|reflexivity].
Qed.

Lemma skip_whitespace_payload (st : state) :
  IdentifierStr (skip_whitespace st) = IdentifierStr st /\
  NumVal (skip_whitespace st) = NumVal st.
Proof.
  unfold skip_whitespace. destruct (isspace (LastChar st)); [|now split].
  destruct (getchar_while isspace (stdin st)) as [[acc c] r]. now split.
Qed.

Lemma isspace_not_hash (x : Z) : isspace x = true -> x <> 35.
Proof. intros H ->. discriminate. Qed.

Lemma isalnum_not_hash (x : Z) : isalnum x = true -> x <> 35.
Proof. intros H ->. discriminate. Qed.

Lemma number_char_not_hash (x : Z) : number_char x = true -> x <> 35.
Proof. intros H ->. discriminate. Qed.

Lemma skip_whitespace_aligned (st1 st2 : state) :
  lexers_aligned st1 st2 ->
  lexers_aligned (skip_whitespace st1) (skip_whitespace st2).
Proof.
  intros [(EL & Hc & Es & Ho)|(E1 & E2 & Es)].
  - unfold skip_whitespace. rewrite EL.
    destruct (isspace (LastChar st1)) eqn:Hs.
    2: { left. now repeat split. }
    assert (open_comment false (stdin st1) = false) as Ho'.
    { apply isspace_not_hash in Hs. apply Z.eqb_neq in Hs. now rewrite Hs in Ho. }
    destruct (getchar_while isspace (stdin st1)) as [[acc c] r] eqn:E.
    destruct (Z.eq_dec c EOF) as [->|Hn].
    + rewrite Es, (getchar_while_app_end _ _ ")"%char _ _ E eq_refl).
      right. now repeat split.
    + rewrite Es, (getchar_while_app_more _ _ ")" _ _ _ E Hn).
      left. simpl. repeat split; try assumption.
      eapply getchar_while_closed; [exact isspace_not_hash|exact Ho'|exact E|exact Hn].
  - unfold skip_whitespace. rewrite E1, E2. simpl. right. now repeat split.
Qed.

Lemma gettok_rec_aligned (f : nat) :
  forall st1 st2 t s1,
    lexers_aligned st1 st2 -> same_payload st1 st2 ->
    gettok_rec f st1 = Some (t, s1) ->
    exists t2 s2,
      gettok_rec f st2 = Some (t2, s2) /\ same_payload s1 s2 /\
      ((t2 = t /\ t <> tok_eof /\ lexers_aligned s1 s2) \/
       (t = tok_eof /\ t2 = 41 /\ LastChar s1 = EOF /\ LastChar s2 = EOF)).
Proof.
  induction f as [|f IH]; intros st1 st2 t s1 Ha [Pi Pn] H; [discriminate|].
  cbn [gettok_rec] in *.
  apply skip_whitespace_aligned in Ha.
  destruct (skip_whitespace_payload st1) as [Pi1 Pn1].
  destruct (skip_whitespace_payload st2) as [Pi2 Pn2].
  set (a1 := skip_whitespace st1) in *. set (a2 := skip_whitespace st2) in *.
  clearbody a1 a2.
  assert (Pa : same_payload a1 a2) by (split; congruence).
  clear Pi Pn Pi1 Pn1 Pi2 Pn2. destruct Pa as [Pi Pn].
  destruct Ha as [(EL & Hc & Es & Ho)|(E1 & E2 & Es)].
  2: { rewrite E1 in H. simpl in H. injection H as <- <-.
       rewrite E2, Es. simpl. eexists _, _. split; [reflexivity|].
       split; [split; simpl; assumption|]. right. now repeat split. }
  rewrite EL, Es.
  destruct (isalpha (LastChar a1)) eqn:Halpha.
  { assert (open_comment false (stdin a1) = false) as Ho'.
    { destruct (LastChar a1 =? 35) eqn:E35; [|exact Ho].
      apply Z.eqb_eq in E35. rewrite E35 in Halpha. discriminate. }
    destruct (getchar_while isalnum (stdin a1)) as [[acc c] r] eqn:E.
    assert (exists c2 r2,
               getchar_while isalnum (stdin a1 ++ ")") = (acc, c2, r2) /\
               forall b1 b2, LastChar b1 = c -> stdin b1 = r ->
                             LastChar b2 = c2 -> stdin b2 = r2 ->
                             lexers_aligned b1 b2) as (c2 & r2 & -> & Hal).
    { destruct (Z.eq_dec c EOF) as [->|Hn].
      - eexists _, _. split; [apply (getchar_while_app_end _ _ ")"%char _ _ E eq_refl)|].
        intros b1 b2 B1 B2 B3 B4. right. now repeat split.
      - eexists _, _. split; [apply (getchar_while_app_more _ _ ")" _ _ _ E Hn)|].
        intros b1 b2 B1 B2 B3 B4. left. rewrite B1, B2, B3, B4.
        repeat split; try assumption.
        eapply getchar_while_closed; [exact isalnum_not_hash|exact Ho'|exact E|exact Hn]. }
    destruct (String.eqb _ "def"); [|destruct (String.eqb _ "extern")];
      injection H as <- <-; eexists _, _; (split; [reflexivity|]);
      (split; [split; simpl; congruence|]); left;
      (split; [reflexivity|]); (split; [discriminate|]);
      apply Hal; reflexivity. }
  destruct (number_char (LastChar a1)) eqn:Hnum.
  { assert (open_comment false (stdin a1) = false) as Ho'.
    { destruct (LastChar a1 =? 35) eqn:E35; [|exact Ho].
      apply Z.eqb_eq in E35. rewrite E35 in Hnum. discriminate. }
    destruct (getchar_while number_char (stdin a1)) as [[acc c] r] eqn:E.
    assert (exists c2 r2,
               getchar_while number_char (stdin a1 ++ ")") = (acc, c2, r2) /\
               forall b1 b2, LastChar b1 = c -> stdin b1 = r ->
                             LastChar b2 = c2 -> stdin b2 = r2 ->
                             lexers_aligned b1 b2) as (c2 & r2 & -> & Hal).
    { destruct (Z.eq_dec c EOF) as [->|Hn].
      - eexists _, _. split; [apply (getchar_while_app_end _ _ ")"%char _ _ E eq_refl)|].
        intros b1 b2 B1 B2 B3 B4. right. now repeat split.
      - eexists _, _. split; [apply (getchar_while_app_more _ _ ")" _ _ _ E Hn)|].
        intros b1 b2 B1 B2 B3 B4. left. rewrite B1, B2, B3, B4.
        repeat split; try assumption.
        eapply getchar_while_closed;
          [exact number_char_not_hash|exact Ho'|exact E|exact Hn]. }
    injection H as <- <-. eexists _, _. split; [reflexivity|].
    split; [split; simpl; congruence|]. left.
    split; [reflexivity|]. split; [discriminate|]. apply Hal; reflexivity. }
  destruct (LastChar a1 =? 35) eqn:E35.
  { destruct (getchar_while comment_char (stdin a1)) as [[acc c] r] eqn:E.
    destruct (getchar_while_comment_closed _ _ _ _ Ho E) as (Hn & Hsp & Ho').
    rewrite (getchar_while_app_more _ _ ")" _ _ _ E Hn).
    apply Z.eqb_neq in Hn. rewrite Hn in *. simpl in H |- *. apply Z.eqb_neq in Hn.
    eapply IH; [| |exact H].
    - left. simpl. repeat split; try assumption.
      apply isspace_not_hash in Hsp. apply Z.eqb_neq in Hsp. now rewrite Hsp.
    - split; simpl; assumption. }
  apply Z.eqb_neq in Hc. rewrite Hc in *. apply Z.eqb_neq in Hc.
  destruct (stdin a1) as [|x rest] eqn:Ein; simpl in H |- *.
  - injection H as <- <-. eexists _, _. split; [reflexivity|].
    split; [split; simpl; assumption|]. left.
    split; [reflexivity|]. split; [exact Hc|]. right. now repeat split.
  - injection H as <- <-. eexists _, _. split; [reflexivity|].
    split; [split; simpl; assumption|]. left.
    split; [reflexivity|]. split; [exact Hc|]. left. simpl.
    repeat split; try apply code_not_EOF. simpl in Ho. exact Ho.
Qed.

Lemma gettok_rec_agree (f f' : nat) (st : state) r r' :
  gettok_rec f st = Some r -> gettok_rec f' st = Some r' -> r = r'.
Proof.
  intros H H'.
  apply (gettok_rec_more_fuel f (Nat.max f f')) in H; [|lia].
  apply (gettok_rec_more_fuel f' (Nat.max f f')) in H'; [|lia].
  congruence.
Qed.

Lemma getNextToken_aligned (st1 st2 : state) (t : Z) (s1 : state) :
  lexers_aligned st1 st2 -> same_payload st1 st2 ->
  BinopPrecedence st2 = BinopPrecedence st1 ->
  closing_not_operator (BinopPrecedence st1) ->
  getNextToken st1 = Some (t, s1) ->
  exists t2 s2, getNextToken st2 = Some (t2, s2) /\ Sim s1 s2.
Proof.
  intros Ha Hp Et Hc H. unfold getNextToken, gettok in *.
  destruct (gettok_rec _ st1) as [[t0 a1]|] eqn:E1; [|discriminate].
  injection H as <- <-.
  destruct (gettok_rec_aligned _ _ _ _ _ Ha Hp E1) as (t2 & a2 & E2 & Hp' & Hr).
  destruct (gettok_rec_enough (S (String.length (stdin st2))) st2 ltac:(lia))
    as (t2' & a2' & E2').
  pose proof (gettok_rec_agree _ _ _ _ _ E2 E2') as X. injection X as <- <-.
  rewrite E2'. exists t2, (set_CurTok t2 a2). split; [reflexivity|].
  apply gettok_rec_spec in E1 as ((_ & T1 & _) & _).
  apply gettok_rec_spec in E2 as ((_ & T2 & _) & _).
  destruct Hr as [(-> & Hn & Ha')|(-> & -> & L1 & L2)].
  - left. unfold Sync. simpl. repeat split; try assumption; try congruence.
    + apply Hp'.
    + apply Hp'.
    + now rewrite T1.
  - right. unfold End. simpl. repeat split; try assumption. now rewrite T2, Et.
Qed.

Lemma Sync_getNextToken (st1 st2 : state) (t : Z) (s1 : state) :
  Sync st1 st2 -> getNextToken st1 = Some (t, s1) ->
  exists t2 s2, getNextToken st2 = Some (t2, s2) /\ Sim s1 s2.
Proof.
  intros (_ & _ & Hp & Et & Hc & Ha). now apply getNextToken_aligned.
Qed.

Lemma closing_not_operator_insert (t : gmap ascii Z) (k : ascii) :
  closing_not_operator t -> closing_not_operator (<[k := 0]> t).
Proof.
  intros H v L. apply lookup_insert_Some in L as [[_ <-]|[_ L]]; [lia|].
  now apply H.
Qed.

Lemma GetTokPrecendence_table (st : state) (v : Z) (st' : state) :
  closing_not_operator (BinopPrecedence st) ->
  GetTokPrecendence st = Some (v, st') ->
  closing_not_operator (BinopPrecedence st') /\
  IdentifierStr st' = IdentifierStr st /\ NumVal st' = NumVal st.
Proof.
  intros Hc H.
  destruct (isascii (CurTok st)) eqn:Ha.
  2: { rewrite GetTokPrecendence_not_ascii in H by assumption.
       injection H as _ <-. auto. }
  destruct (decide (BinopPrecedence st = ∅)) as [E|E].
  { rewrite GetTokPrecendence_not_installed in H by assumption.
    injection H as _ <-. auto. }
  destruct (BinopPrecedence st !! to_char (CurTok st)) as [p|] eqn:L.
  - rewrite (GetTokPrecendence_present st p) in H by assumption.
    injection H as _ <-. auto.
  - rewrite GetTokPrecendence_absent in H by assumption.
    injection H as _ <-. simpl. split; [|auto]. now apply closing_not_operator_insert.
Qed.

(** The answer of the query is a function of the current token and the
    table. *)
Lemma GetTokPrecendence_same_inputs (st1 st2 : state) (v : Z) (s1 : state) :
  CurTok st2 = CurTok st1 -> BinopPrecedence st2 = BinopPrecedence st1 ->
  GetTokPrecendence st1 = Some (v, s1) ->
  exists s2, GetTokPrecendence st2 = Some (v, s2) /\
             BinopPrecedence s2 = BinopPrecedence s1.
Proof.
  intros Ec Et H.
  destruct (isascii (CurTok st1)) eqn:Ha.
  2: { rewrite GetTokPrecendence_not_ascii in * by congruence.
       injection H as <- <-. eauto. }
  destruct (decide (BinopPrecedence st1 = ∅)) as [E|E].
  { rewrite GetTokPrecendence_not_installed in * by congruence.
    injection H as <- <-. eauto. }
  destruct (BinopPrecedence st1 !! to_char (CurTok st1)) as [p|] eqn:L.
  - rewrite (GetTokPrecendence_present st1 p) in H by assumption.
    rewrite (GetTokPrecendence_present st2 p) by congruence.
    injection H as <- <-. eauto.
  - rewrite GetTokPrecendence_absent in H by assumption.
    rewrite GetTokPrecendence_absent by congruence.
    injection H as <- <-. eexists. split; [reflexivity|]. simpl. congruence.
Qed.

Lemma Sync_GetTokPrecendence (st1 st2 : state) (v : Z) (s1 : state) :
  Sync st1 st2 -> GetTokPrecendence st1 = Some (v, s1) ->
  exists s2, GetTokPrecendence st2 = Some (v, s2) /\ Sync s1 s2.
Proof.
  intros (Ec & Hn & [Pi Pn] & Et & Hc & Ha) H.
  destruct (GetTokPrecendence_same_inputs _ _ _ _ Ec Et H) as (s2 & H2 & Et').
  exists s2. split; [exact H2|].
  destruct (GetTokPrecendence_table _ _ _ Hc H) as (Hc' & I1 & N1).
  assert (Hc2 : closing_not_operator (BinopPrecedence st2)) by now rewrite Et.
  destruct (GetTokPrecendence_table _ _ _ Hc2 H2) as (_ & I2 & N2).
  apply GetTokPrecendence_frame in H as (S1 & L1 & C1 & _).
  apply GetTokPrecendence_frame in H2 as (S2 & L2 & C2 & _).
  unfold Sync, same_payload, lexers_aligned in *.
  rewrite S1, L1, C1, S2, L2, C2, I1, N1, I2, N2. now repeat split.
Qed.

Lemma End_GetTokPrecendence (st1 st2 : state) (v : Z) (s1 : state) :
  End st1 st2 -> GetTokPrecendence st1 = Some (v, s1) ->
  v = -1 /\ exists v2 s2, GetTokPrecendence st2 = Some (v2, s2) /\ v2 < 0 /\ End s1 s2.
Proof.
  intros (C1 & C2 & L1 & L2 & Hc) H.
  rewrite GetTokPrecendence_not_ascii in H by (rewrite C1; reflexivity).
  injection H as <- <-. split; [reflexivity|].
  destruct (GetTokPrecendence_total st2) as (v2 & s2 & H2 & _).
  exists v2, s2. split; [exact H2|].
  destruct (GetTokPrecendence_table _ _ _ Hc H2) as (Hc' & _).
  pose proof (GetTokPrecendence_frame _ _ _ H2) as (_ & L2' & C2' & _).
  split; [|unfold End; rewrite L2', C2'; now repeat split].
  assert (Ha2 : isascii (CurTok st2) = true) by (rewrite C2; reflexivity).
  destruct (decide (BinopPrecedence st2 = ∅)) as [E|E].
  { rewrite GetTokPrecendence_not_installed in H2 by assumption.
    injection H2 as <- _. lia. }
  destruct (BinopPrecedence st2 !! to_char (CurTok st2)) as [p|] eqn:L.
  - rewrite (GetTokPrecendence_present st2 p) in H2 by assumption.
    rewrite C2 in L. change (to_char 41) with ")"%char in L.
    apply Hc in L. assert ((p <=? 0) = true) as Hle by lia. rewrite Hle in H2.
    injection H2 as <- _. lia.
  - rewrite GetTokPrecendence_absent in H2 by assumption.
    injection H2 as <- _. lia.
Qed.

Lemma End_ParsePrimary (f : nat) (st1 st2 : state) (e : ExprAST) (s1 : state) :
  End st1 st2 -> ParsePrimary f st1 = Some (Some e, s1) -> False.
Proof.
  intros (C1 & _) H. destruct f as [|f]; [discriminate|].
  cbn [ParsePrimary] in H. cbv [bind gets LogError modify ret] in H.
  rewrite C1 in H. simpl in H. discriminate.
Qed.

Lemma End_ParseExpression (f : nat) (st1 st2 : state) (e : ExprAST) (s1 : state) :
  End st1 st2 -> ParseExpression f st1 = Some (Some e, s1) -> False.
Proof.
  intros HE H. destruct f as [|f]; [discriminate|].
  cbn [ParseExpression] in H. exec H; try discriminate H;
    eapply End_ParsePrimary; eassumption.
Qed.

Lemma Sync_fields (st1 st2 : state) :
  Sync st1 st2 ->
  CurTok st2 = CurTok st1 /\ IdentifierStr st2 = IdentifierStr st1 /\
  NumVal st2 = NumVal st1.
Proof. intros (? & _ & [? ?] & _). auto. Qed.

Lemma End_fields (st1 st2 : state) :
  End st1 st2 -> CurTok st1 = tok_eof /\ CurTok st2 = 41.
Proof. intros (? & ? & _). auto. Qed.

Ltac note_fields :=
  repeat match goal with
         | HS : Sync ?a ?b |- _ =>
             lazymatch goal with
             | _ : CurTok b = CurTok a |- _ => fail
             | _ => destruct (Sync_fields _ _ HS) as (? & ? & ?)
             end
         | HE : End ?a ?b |- _ =>
             lazymatch goal with
             | _ : CurTok b = 41 |- _ => fail
             | _ => destruct (End_fields _ _ HE) as (? & ?)
             end
         end.

(** In an [End] state the first run cannot have seen a parenthesis or a
    comma. *)
Ltac end_contra :=
  match goal with
  | C : CurTok ?a = tok_eof, Hb : context [CurTok ?a =? _] |- _ =>
      rewrite C in Hb; discriminate Hb
  | C : CurTok ?a = tok_eof, C' : CurTok ?a = 41 |- _ =>
      rewrite C in C'; discriminate C'
  end.

(** The argument loop is left, with a list, at a closing parenthesis. *)
Lemma ParseIdentifierExpr_args_exit (f : nat) :
  forall args st l s,
    ParseIdentifierExpr_args f args st = Some (Some l, s) -> CurTok s = 41.
Proof.
  induction f as [|f IH]; intros args st l s H; [discriminate|].
  cbn [ParseIdentifierExpr_args] in H. exec H; try discriminate H.
  - injection H as _ <-. now apply Z.eqb_eq.
  - eapply IH; exact H.
Qed.

(** Carries the relation across the next call of the first run, giving
    the matching call of the second run. *)
Ltac sim_call :=
  match goal with
  | HS : Sync ?a ?b, H : GetTokPrecendence ?a = Some _ |- _ =>
      let b' := fresh "b" in let R := fresh "R" in let HS' := fresh "HS" in
      destruct (Sync_GetTokPrecendence _ _ _ _ HS H) as (b' & R & HS');
      clear H
  | HS : Sync ?a ?b, H : getNextToken ?a = Some _ |- _ =>
      let t' := fresh "t" in let b' := fresh "b" in
      let R := fresh "R" in let HS' := fresh "HS" in
      destruct (Sync_getNextToken _ _ _ _ HS H) as (t' & b' & R & HS');
      clear H
  | HS : Sync ?a ?b, H : getNextToken (record_node ?k ?a) = Some _ |- _ =>
      let t' := fresh "t" in let b' := fresh "b" in
      let R := fresh "R" in let HS' := fresh "HS" in
      destruct (Sync_getNextToken (record_node k a) (record_node k b) _ _ HS H)
        as (t' & b' & R & HS');
      clear H
  | HE : End ?a ?b, H : GetTokPrecendence ?a = Some _ |- _ =>
      let v' := fresh "v" in let b' := fresh "b" in let R := fresh "R" in
      let HE' := fresh "HE" in let Hv := fresh "Hv" in
      destruct (End_GetTokPrecendence _ _ _ _ HE H) as (-> & v' & b' & R & Hv & HE');
      clear H
  | HE : End ?a _, H : ParsePrimary _ ?a = Some (Some _, _) |- _ =>
      exfalso; exact (End_ParsePrimary _ _ _ _ _ HE H)
  | HE : End ?a _, H : ParseExpression _ ?a = Some (Some _, _) |- _ =>
      exfalso; exact (End_ParseExpression _ _ _ _ _ HE H)
  end.

(** Replays the second run with the equations collected. *)
Ltac replay :=
  cbv [bind gets ret make_unique modify LogError];
  repeat (cbv beta iota;
          cbn [CurTok IdentifierStr NumVal record_node write_stderr];
          match goal with
          | H : ?x = _ |- context [?x] => rewrite H
          | |- context [41 =? ?n] =>
              let v := eval compute in (41 =? n) in change (41 =? n) with v;
              cbn [negb]
          | |- context [?x <? ?y] =>
              first [ assert ((x <? y) = true) as -> by lia
                    | assert ((x <? y) = false) as -> by lia ]
          end);
  cbv beta iota.

Lemma End_ParseIdentifierExpr_args (f : nat) args (st1 st2 : state) l (s1 : state) :
  End st1 st2 -> ParseIdentifierExpr_args f args st1 = Some (Some l, s1) -> False.
Proof.
  intros HE H. destruct f as [|f]; [discriminate|].
  cbn [ParseIdentifierExpr_args] in H. exec H; try discriminate H;
    eapply End_ParseExpression; eassumption.
Qed.

Ltac sim_rec IH1 IH2 IH3 IH4 IH5 IH6 :=
  match goal with
  | HS : Sync ?a ?b, H : ParsePrimary _ ?a = Some (Some _, _) |- _ =>
      let b' := fresh "b" in let R := fresh "R" in let HS' := fresh "HS" in
      destruct (IH1 _ _ _ _ HS H) as (b' & R & HS'); clear H
  | HS : Sync ?a ?b, H : ParseParenExpr _ ?a = Some (Some _, _) |- _ =>
      let b' := fresh "b" in let R := fresh "R" in let HS' := fresh "HS" in
      destruct (IH2 _ _ _ _ HS H) as (b' & R & HS'); clear H
  | HS : Sync ?a ?b, H : ParseIdentifierExpr _ ?a = Some (Some _, _) |- _ =>
      let b' := fresh "b" in let R := fresh "R" in let HS' := fresh "HS" in
      destruct (IH3 _ _ _ _ HS H) as (b' & R & HS'); clear H
  | HS : Sync ?a ?b, H : ParseIdentifierExpr_args _ _ ?a = Some (Some _, _) |- _ =>
      let b' := fresh "b" in let R := fresh "R" in let HS' := fresh "HS" in
      destruct (IH4 _ _ _ _ _ HS H) as (b' & R & HS');
      apply ParseIdentifierExpr_args_exit in H
  | HS : Sync ?a ?b, H : ParseExpression _ ?a = Some (Some _, _) |- _ =>
      let b' := fresh "b" in let R := fresh "R" in let HS' := fresh "HS" in
      destruct (IH5 _ _ _ _ HS H) as (b' & R & HS'); clear H
  | HE : End ?a _, H : ParseIdentifierExpr_args _ _ ?a = Some (Some _, _) |- _ =>
      exfalso; exact (End_ParseIdentifierExpr_args _ _ _ _ _ _ HE H)
  | HS : Sim ?a ?b, H : ParseBinOpRHS _ ?p _ ?a = Some (Some _, _) |- _ =>
      let b' := fresh "b" in let R := fresh "R" in let HS' := fresh "HS" in
      destruct (IH6 p _ _ _ _ _ ltac:(lia) HS H) as (b' & R & HS'); clear H
  | HS : Sim ?a ?b, H : ParseBinOpRHS _ ?p _ (record_node ?k ?a) = Some (Some _, _) |- _ =>
      let b' := fresh "b" in let R := fresh "R" in let HS' := fresh "HS" in
      destruct (IH6 p _ (record_node k a) (record_node k b) _ _ ltac:(lia) HS H)
        as (b' & R & HS'); clear H
  | HS : Sync ?a ?b, H : ParseBinOpRHS _ ?p _ ?a = Some (Some _, _) |- _ =>
      let b' := fresh "b" in let R := fresh "R" in let HS' := fresh "HS" in
      destruct (IH6 p _ _ _ _ _ ltac:(lia) (or_introl HS) H) as (b' & R & HS'); clear H
  | HS : Sync ?a ?b, H : ParseBinOpRHS _ ?p _ (record_node ?k ?a) = Some (Some _, _) |- _ =>
      let b' := fresh "b" in let R := fresh "R" in let HS' := fresh "HS" in
      destruct (IH6 p _ (record_node k a) (record_node k b) _ _ ltac:(lia)
                    (or_introl HS) H)
        as (b' & R & HS'); clear H
  | HE : End ?a ?b, H : ParseBinOpRHS _ ?p _ ?a = Some (Some _, _) |- _ =>
      let b' := fresh "b" in let R := fresh "R" in let HS' := fresh "HS" in
      destruct (IH6 p _ _ _ _ _ ltac:(lia) (or_intror HE) H) as (b' & R & HS'); clear H
  | HE : End ?a ?b, H : ParseBinOpRHS _ ?p _ (record_node ?k ?a) = Some (Some _, _) |- _ =>
      let b' := fresh "b" in let R := fresh "R" in let HS' := fresh "HS" in
      destruct (IH6 p _ (record_node k a) (record_node k b) _ _ ltac:(lia)
                    (or_intror HE) H)
        as (b' & R & HS'); clear H
  | HS : Sim ?a ?b |- _ => destruct HS as [HS|HS]; note_fields; try end_contra
  end.

Ltac sim_all IH1 IH2 IH3 IH4 IH5 IH6 :=
  repeat (note_fields; first [sim_call | sim_rec IH1 IH2 IH3 IH4 IH5 IH6]).

Ltac sim_done :=
  eexists; split;
  [ replay; first [reflexivity | eassumption]
  | first [eassumption | left; eassumption | right; eassumption] ].

Lemma parse_sim (f : nat) :
  (forall st1 st2 e s1,
      Sync st1 st2 -> ParsePrimary f st1 = Some (Some e, s1) ->
      exists s2, ParsePrimary f st2 = Some (Some e, s2) /\ Sim s1 s2) /\
  (forall st1 st2 e s1,
      Sync st1 st2 -> ParseParenExpr f st1 = Some (Some e, s1) ->
      exists s2, ParseParenExpr f st2 = Some (Some e, s2) /\ Sim s1 s2) /\
  (forall st1 st2 e s1,
      Sync st1 st2 -> ParseIdentifierExpr f st1 = Some (Some e, s1) ->
      exists s2, ParseIdentifierExpr f st2 = Some (Some e, s2) /\ Sim s1 s2) /\
  (forall args st1 st2 l s1,
      Sync st1 st2 -> ParseIdentifierExpr_args f args st1 = Some (Some l, s1) ->
      exists s2, ParseIdentifierExpr_args f args st2 = Some (Some l, s2) /\ Sim s1 s2) /\
  (forall st1 st2 e s1,
      Sync st1 st2 -> ParseExpression f st1 = Some (Some e, s1) ->
      exists s2, ParseExpression f st2 = Some (Some e, s2) /\ Sim s1 s2) /\
  (forall prec lhs st1 st2 e s1,
      0 <= prec -> Sim st1 st2 -> ParseBinOpRHS f prec lhs st1 = Some (Some e, s1) ->
      exists s2, ParseBinOpRHS f prec lhs st2 = Some (Some e, s2) /\ Sim s1 s2).
Proof.
  induction f as [|f (IH1 & IH2 & IH3 & IH4 & IH5 & IH6)].
  { repeat split; intros; discriminate. }
  split; [|split; [|split; [|split; [|split]]]].
  - intros st1 st2 e s1 HS H.
    cbn [ParsePrimary] in H |- *. unfold ParseNumberExpr in *.
    exec H; try discriminate H; try (injection H as <- <-);
      sim_all IH1 IH2 IH3 IH4 IH5 IH6; sim_done.
  - intros st1 st2 e s1 HS H.
    cbn [ParseParenExpr] in H |- *.
    exec H; try discriminate H; try (injection H as <- <-);
      sim_all IH1 IH2 IH3 IH4 IH5 IH6; sim_done.
  - intros st1 st2 e s1 HS H.
    cbn [ParseIdentifierExpr] in H |- *.
    exec H; try discriminate H; try (injection H as <- <-);
      sim_all IH1 IH2 IH3 IH4 IH5 IH6; sim_done.
  - intros args st1 st2 l s1 HS H.
    cbn [ParseIdentifierExpr_args] in H |- *.
    exec H; try discriminate H; try (injection H as <- <-);
      sim_all IH1 IH2 IH3 IH4 IH5 IH6; sim_done.
  - intros st1 st2 e s1 HS H.
    cbn [ParseExpression] in H |- *.
    exec H; try discriminate H; try (injection H as <- <-);
      sim_all IH1 IH2 IH3 IH4 IH5 IH6; sim_done.
  - intros prec lhs st1 st2 e s1 Hprec HS H.
    cbn [ParseBinOpRHS] in H |- *.
    exec H; try discriminate H; try (injection H as <- <-);
      sim_all IH1 IH2 IH3 IH4 IH5 IH6; try sim_done; exfalso; lia.
Qed.

Lemma parse_input_unfold {A} (installed : bool) (p : M A) (input : string) :
  parse_input installed p input
  = match getNextToken (prepared installed input) with
    | Some (_, st) => p st
    | None => None
    end.
Proof.
  unfold parse_input, start.
  cbv [bind ret]. destruct installed.
  - change (InstallBinaryOperators (initial_state input))
      with (Some (tt, prepared true input)).
    cbv iota. now destruct (getNextToken (prepared true input)) as [[? ?]|].
  - change (initial_state input) with (prepared false input).
    now destruct (getNextToken (prepared false input)) as [[? ?]|].
Qed.

Lemma prepared_table (installed : bool) (input : string) :
  closing_not_operator (BinopPrecedence (prepared installed input)).
Proof.
  intros v. destruct installed; simpl; [|rewrite lookup_empty; discriminate].
  intros H. apply installed_table_entries in H. simpl in H.
  repeat (destruct H as [H|H]; [discriminate H|]). destruct H.
Qed.

(** A space as lookahead in front of [a] reads like [a] as lookahead. *)
Lemma getNextToken_leading_space (a : ascii) (r : string) (st : state) :
  getNextToken (set_input 32 (String a r) st)
  = getNextToken (set_input (code a) r st).
Proof.
  assert (Hs : skip_whitespace (set_input 32 (String a r) st)
               = skip_whitespace (set_input (code a) r st)).
  { unfold skip_whitespace. simpl.
    destruct (isspace (code a)); [|reflexivity].
    now destruct (getchar_while isspace r) as [[acc c] r']. }
  assert (Hf : forall n, gettok_rec (S n) (set_input 32 (String a r) st)
                         = gettok_rec (S n) (set_input (code a) r st)).
  { intros n. cbn [gettok_rec]. now rewrite Hs. }
  unfold getNextToken, gettok. simpl stdin.
  destruct (gettok_rec_enough (S (String.length r))
              (set_input (code a) r st) ltac:(simpl; lia)) as (t & s & E).
  rewrite E. rewrite Hf.
  assert (HF : (S (String.length r) <= S (String.length (String a r)))%nat)
    by (simpl; lia).
  rewrite (gettok_rec_more_fuel _ _ _ _ HF E). reflexivity.
Qed.

Lemma first_tokens_aligned (installed : bool) (e : string) (t : Z) (s1 : state) :
  open_comment false e = false ->
  getNextToken (prepared installed e) = Some (t, s1) ->
  exists b0 t2 s2,
    getNextToken (prepared installed ("(" ++ e ++ ")")) = Some (40, b0) /\
    CurTok b0 = 40 /\ getNextToken b0 = Some (t2, s2) /\ Sim s1 s2.
Proof.
  intros Ho H. pose proof (prepared_table installed e) as Hc.
  destruct e as [|a r].
  - exists (set_CurTok 40 (set_input 41 "" (prepared installed ""))), 41,
      (set_CurTok 41 (set_input EOF "" (prepared installed ""))).
    split; [now destruct installed|]. split; [reflexivity|].
    split; [now destruct installed|].
    assert (getNextToken (prepared installed "")
            = Some (tok_eof, set_CurTok tok_eof
                               (set_input EOF "" (prepared installed ""))))
      as X by (destruct installed; reflexivity).
    rewrite X in H. injection H as _ <-.
    right. unfold End. simpl. repeat split.
    destruct installed; exact Hc.
  - change (prepared installed (String a r))
      with (set_input 32 (String a r) (prepared installed (String a r))) in H.
    rewrite getNextToken_leading_space in H.
    destruct (getNextToken_aligned
                (set_input (code a) r (prepared installed (String a r)))
                (set_CurTok 40 (set_input (code a) (r ++ ")")
                                  (prepared installed (String a r))))
                t s1) as (t2 & s2 & R & HS).
    + left. simpl. repeat split; [apply code_not_EOF|exact Ho].
    + split; reflexivity.
    + reflexivity.
    + destruct installed; exact Hc.
    + exact H.
    + exists (set_CurTok 40 (set_input (code a) (r ++ ")")
                               (prepared installed (String a r)))), t2, s2.
      split; [now destruct installed|]. split; [reflexivity|].
      split; [exact R|exact HS].
Qed.

(** Two inputs that [ParseExpression] parses to a tree and whose
    parenthesised forms it rejects: in "1#" the comment runs to the end of
    the input and takes the appended parenthesis with it; on "1 2" the
    parse stops in front of the 2, where the parenthesised form wants the
    closing parenthesis. *)
Lemma parenthesised_input_rejected :
  (exists st, parse_input true (ParseExpression 3) "1#" = Some (Some (Num 1), st) /\
              CurTok st = tok_eof) /\
  (forall fuel, exists st,
      parse_input true (ParseExpression (5 + fuel)) "(1#)" = Some (None, st) /\
      stderr st = [error_line "expected ')'"]) /\
  (exists st, parse_input true (ParseExpression 3) "1 2" = Some (Some (Num 1), st) /\
              CurTok st = tok_number) /\
  (forall fuel, exists st,
      parse_input true (ParseExpression (5 + fuel)) "(1 2)" = Some (None, st) /\
      stderr st = [error_line "expected ')'"]).
Proof.
  split; [eexists; split; [vm_compute; reflexivity|reflexivity]|].
  split; [run_concrete ParseExpression_le|].
  split; [eexists; split; [vm_compute; reflexivity|reflexivity]|].
  run_concrete ParseExpression_le.
Qed.

(** C9, amended.  Let [e] be an input that does not end inside a comment
    and that [ParseExpression] parses to a tree with the whole input
    consumed (the current token is then the end of input).  Then
    [ParseExpression] parses ["(" ++ e ++ ")"] to the same tree, again
    with the whole input consumed: [ParseParenExpr] returns the inner node
    as it is.  This holds with and without the table installed. *)
Theorem parenthesised_same_tree
        (installed : bool) (e : string) (f : nat) (ast : ExprAST) (st : state) :
  open_comment false e = false ->
  parse_input installed (ParseExpression f) e = Some (Some ast, st) ->
  CurTok st = tok_eof ->
  exists st',
    parse_input installed (ParseExpression (3 + f)) ("(" ++ e ++ ")")
    = Some (Some ast, st') /\
    CurTok st' = tok_eof.
Proof.
  intros Ho H Hend. rewrite parse_input_unfold in H |- *.
  destruct (getNextToken (prepared installed e)) as [[t s1]|] eqn:E1; [|discriminate].
  destruct (first_tokens_aligned _ _ _ _ Ho E1) as (b0 & t2 & s2 & R0 & C0 & R2 & HS).
  rewrite R0.
  destruct HS as [HS|HE]; [|exfalso; exact (End_ParseExpression _ _ _ _ _ HE H)].
  destruct (proj1 (proj2 (proj2 (proj2 (proj2 (parse_sim f))))) _ _ _ _ HS H)
    as (s2' & R3 & [HS'|HE']).
  { destruct HS' as (_ & Hn & _). contradiction. }
  destruct HE' as (_ & C2 & _ & L2 & _).
  assert (R4 : getNextToken s2' = Some (tok_eof, set_CurTok tok_eof s2')).
  { unfold getNextToken. now rewrite gettok_eof_again. }
  exists (set_CurTok tok_eof s2'). split; [|reflexivity].
  change (3 + f)%nat with (S (S (S f))).
  cbn [ParseExpression ParsePrimary ParseParenExpr]. cbv [bind gets ret].
  rewrite C0. cbv beta iota.
  change (40 =? tok_identifier) with false.
  change (40 =? tok_number) with false.
  change (40 =? 40) with true. cbv beta iota.
  rewrite R2. cbv beta iota. rewrite R3. cbv beta iota.
  rewrite C2. change (negb (41 =? 41)) with false. cbv beta iota.
  rewrite R4. cbv beta iota.
  apply ParseBinOpRHS_exit_at_once with (v := -1); [reflexivity|lia].
Qed.

Lemma parenthesised_same_tree_witness :
  open_comment false "1+2" = false /\
  exists st,
    parse_input true (ParseExpression 4) "1+2"
    = Some (Some (BinaryExprAST "+" (Num 1) (Num 2)), st) /\
    CurTok st = tok_eof /\
    exists st',
      parse_input true (ParseExpression 7) "(1+2)"
      = Some (Some (BinaryExprAST "+" (Num 1) (Num 2)), st') /\
      CurTok st' = tok_eof.
Proof.
  split; [reflexivity|].
  eexists. split; [vm_compute; reflexivity|]. split; [reflexivity|].
  eapply (parenthesised_same_tree true "1+2" 4);
    [reflexivity | vm_compute; reflexivity | reflexivity].
Defined.

(** ** What a call of [gettok] establishes *)

Lemma code_chr (c : Z) : 0 <= c <= 255 -> code (chr c) = c.
Proof.
  intros H. unfold code, chr. rewrite N_ascii_embedding; lia.
Qed.

Lemma chr_code (a : ascii) : chr (code a) = a.
Proof. unfold code, chr. rewrite N2Z.id. apply ascii_N_embedding. Qed.

Lemma getchar_while_every p inp acc c r :
  getchar_while p inp = (acc, c, r) -> every p acc = true.
Proof.
  revert acc c r. induction inp as [|a rest IH]; intros acc c r H; simpl in H.
  - now injection H as <- _ _.
  - destruct (p (code a)) eqn:Hp.
    + destruct (getchar_while p rest) as [[acc' c'] r'] eqn:E.
      injection H as <- _ _. simpl. rewrite Hp. eapply IH; reflexivity.
    + now injection H as <- _ _.
Qed.

Lemma getchar_while_next p inp acc c r :
  getchar_while p inp = (acc, c, r) -> (c = EOF /\ r = "") \/ 0 <= c <= 255.
Proof.
  revert acc c r. induction inp as [|a rest IH]; intros acc c r H; simpl in H.
  - injection H as _ <- <-. now left.
  - destruct (p (code a)) eqn:Hp.
    + destruct (getchar_while p rest) as [[acc' c'] r'] eqn:E.
      injection H as _ <- <-. eapply IH; reflexivity.
    + injection H as _ <- <-. right. pose proof (code_range a). lia.
Qed.

Lemma getchar_next inp c r :
  getchar inp = (c, r) -> (c = EOF /\ r = "") \/ 0 <= c <= 255.
Proof.
  destruct inp as [|a rest]; simpl; intros H; injection H as <- <-.
  - now left.
  - right. pose proof (code_range a). lia.
Qed.

Lemma skip_whitespace_ok (st : state) : lexer_ok st -> lexer_ok (skip_whitespace st).
Proof.
  unfold skip_whitespace. destruct (isspace (LastChar st)); [|trivial].
  destruct (getchar_while isspace (stdin st)) as [[acc c] r] eqn:E. intros _.
  apply getchar_while_next in E. exact E.
Qed.

(** Everything one call of [gettok] establishes, by its branches. *)
Lemma gettok_rec_inv (f : nat) :
  forall st t st', lexer_ok st -> gettok_rec f st = Some (t, st') ->
    lexer_ok st' /\
    (named_token t \/ character_token t) /\
    (t = tok_eof -> LastChar st' = EOF) /\
    (t = tok_def -> IdentifierStr st' = "def") /\
    (t = tok_extern -> IdentifierStr st' = "extern") /\
    (t = tok_identifier ->
     is_identifier (IdentifierStr st') = true /\
     IdentifierStr st' <> "def" /\ IdentifierStr st' <> "extern") /\
    (t <> tok_def -> t <> tok_extern -> t <> tok_identifier ->
     IdentifierStr st' = IdentifierStr st) /\
    (t <> tok_number -> NumVal st' = NumVal st).
Proof.
  induction f as [|f IH]; intros st t st' Hok H; [discriminate|].
  cbn [gettok_rec] in H.
  pose proof (skip_whitespace_ok st Hok) as Hok1.
  destruct (skip_whitespace_payload st) as [FI FN].
  destruct (skip_whitespace_spec st) as (_ & _ & Hsp).
  set (st1 := skip_whitespace st) in *.
  unfold named_token, tok_eof, tok_def, tok_extern, tok_identifier, tok_number.
  destruct (isalpha (LastChar st1)) eqn:Ha.
  { destruct (getchar_while isalnum (stdin st1)) as [[acc c] r] eqn:E.
    pose proof (getchar_while_next _ _ _ _ _ E) as Hn.
    pose proof (getchar_while_every _ _ _ _ _ E) as He.
    assert (Hr : 0 <= LastChar st1 <= 255).
    { unfold isalpha in Ha. lia. }
    assert (Hid : is_identifier (String (chr (LastChar st1)) acc) = true).
    { simpl. rewrite code_chr by exact Hr. now rewrite Ha, He. }
    destruct (String.eqb _ "def") eqn:Ed;
      [|destruct (String.eqb _ "extern") eqn:Ee];
      injection H as <- <-; simpl.
    - apply String.eqb_eq in Ed.
      repeat split; try assumption; try (intros; discriminate); try tauto; try congruence.
    - apply String.eqb_eq in Ee.
      repeat split; try assumption; try (intros; discriminate); try tauto; try congruence.
    - apply String.eqb_neq in Ed, Ee.
      repeat split; try assumption; try (intros; discriminate); try tauto; try congruence. }
  destruct (number_char (LastChar st1)) eqn:Hn.
  { destruct (getchar_while number_char (stdin st1)) as [[acc c] r] eqn:E.
    pose proof (getchar_while_next _ _ _ _ _ E) as Hx.
    injection H as <- <-; simpl.
    repeat split; try assumption; try (intros; discriminate); try tauto; try congruence. }
  destruct (LastChar st1 =? 35) eqn:Hh.
  { destruct (getchar_while comment_char (stdin st1)) as [[acc c] r] eqn:E.
    pose proof (getchar_while_next _ _ _ _ _ E) as Hx.
    destruct (c =? EOF) eqn:Hc; simpl in H.
    - apply Z.eqb_eq in Hc. injection H as <- <-; simpl.
      repeat split; try assumption; try (intros; discriminate); try tauto; try congruence.
    - apply IH in H; [|exact Hx]. simpl in H.
      rewrite <- FI, <- FN. exact H. }
  destruct (LastChar st1 =? EOF) eqn:He.
  { apply Z.eqb_eq in He. injection H as <- <-.
    repeat split; try assumption; try (intros; discriminate); try tauto; try congruence. }
  destruct (getchar (stdin st1)) as [c r] eqn:E.
  pose proof (getchar_next _ _ _ E) as Hx.
  apply Z.eqb_neq in He, Hh.
  injection H as <- <-; simpl.
  assert (Hr : 0 <= LastChar st1 <= 255).
  { destruct Hok1 as [[? _]|?]; [contradiction|assumption]. }
  assert (Hct : character_token (LastChar st1)) by (unfold character_token; tauto).
  repeat split; try assumption; try tauto; try congruence; try (intros; lia).
Qed.

Lemma initial_state_ok (input : string) : lexer_ok (initial_state input).
Proof. right. cbn. lia. Qed.

(** X1.  [gettok] returns in every state: the fuel it is given covers the
    calls it makes to itself after comments.  It never puts a character
    back, a token other than [tok_eof] costs at least one character, and
    the call leaves the current token, the precedence table, the
    diagnostic stream and the constructed nodes as they were. *)
Theorem gettok_returns_and_consumes (st : state) :
  exists t st',
    gettok st = Some (t, st') /\
    same_parser_fields st st' /\
    (remaining st' <= remaining st)%nat /\
    (t <> tok_eof -> (remaining st' < remaining st)%nat).
Proof.
  destruct (gettok_total st) as (t & st' & H). exists t, st'.
  split; [exact H|]. unfold gettok in H. now apply gettok_rec_spec in H.
Qed.

Lemma gettok_rec_eof (f : nat) :
  forall st st', gettok_rec f st = Some (tok_eof, st') -> LastChar st' = EOF.
Proof.
  induction f as [|f IH]; intros st st' H; [discriminate|].
  cbn [gettok_rec] in H.
  set (st1 := skip_whitespace st) in *.
  destruct (isalpha (LastChar st1)).
  { destruct (getchar_while isalnum (stdin st1)) as [[acc c] r].
    destruct (String.eqb _ "def"); [discriminate|].
    destruct (String.eqb _ "extern"); discriminate. }
  destruct (number_char (LastChar st1)).
  { destruct (getchar_while number_char (stdin st1)) as [[acc c] r]. discriminate. }
  destruct (LastChar st1 =? 35).
  { destruct (getchar_while comment_char (stdin st1)) as [[acc c] r].
    destruct (c =? EOF) eqn:Hc; simpl in H.
    - injection H as <-. now apply Z.eqb_eq in Hc.
    - eapply IH; exact H. }
  destruct (LastChar st1 =? EOF) eqn:He.
  { injection H as <-. now apply Z.eqb_eq in He. }
  destruct (getchar (stdin st1)) as [c r].
  injection H as H _. apply Z.eqb_neq in He. unfold tok_eof, EOF in *. congruence.
Qed.

(** X2.  The end of input is not eaten: when [gettok] returns [tok_eof]
    it leaves [EOF] as lookahead, and from then on [gettok] and
    [getNextToken] return [tok_eof] again without changing the state. *)
Theorem gettok_eof_is_final (st st' : state) :
  gettok st = Some (tok_eof, st') ->
  LastChar st' = EOF /\
  gettok st' = Some (tok_eof, st') /\
  getNextToken (set_CurTok tok_eof st') = Some (tok_eof, set_CurTok tok_eof st').
Proof.
  intros H. unfold gettok in H. apply gettok_rec_eof in H.
  split; [exact H|]. split; [now apply gettok_eof_again|].
  unfold getNextToken. rewrite (gettok_eof_again (set_CurTok tok_eof st')) by exact H.
  reflexivity.
Qed.

Lemma gettok_eof_is_final_witness :
  exists st',
    gettok (initial_state "# the end") = Some (tok_eof, st') /\
    LastChar st' = EOF /\
    gettok st' = Some (tok_eof, st') /\
    getNextToken (set_CurTok tok_eof st') = Some (tok_eof, set_CurTok tok_eof st').
Proof.
  eexists. split; [vm_compute; reflexivity|].
  apply (gettok_eof_is_final (initial_state "# the end")). vm_compute. reflexivity.
Defined.

(** X3.  Started with [EOF] or a byte as lookahead, [gettok] returns one of
    the five tokens of the enumeration or a character code between 0 and
    255 that is not whitespace, a letter, a digit, '.' or '#'; and it
    leaves [EOF] (with the input used up) or a byte as lookahead. *)
Theorem gettok_token_classes (st : state) (t : Z) (st' : state) :
  lexer_ok st -> gettok st = Some (t, st') ->
  lexer_ok st' /\ (named_token t \/ character_token t).
Proof.
  intros Hok H. unfold gettok in H.
  apply gettok_rec_inv in H; [|exact Hok]. split; apply H.
Qed.

Lemma gettok_token_classes_witness :
  exists st',
    gettok (initial_state "+1") = Some (code "+", st') /\
    lexer_ok st' /\ (named_token (code "+") \/ character_token (code "+")).
Proof.
  eexists. split; [vm_compute; reflexivity|].
  apply (gettok_token_classes (initial_state "+1")).
  - right. cbn. lia.
  - vm_compute. reflexivity.
Defined.

(** X4.  What [gettok] leaves in the two payload variables.  With
    [tok_def] and [tok_extern], [IdentifierStr] is the keyword; with
    [tok_identifier] it is a name of the shape [[a-zA-Z][a-zA-Z0-9]*] that
    is neither keyword; with any other token it keeps its old value.
    [NumVal] changes only with [tok_number]. *)
Theorem gettok_payload (st : state) (t : Z) (st' : state) :
  lexer_ok st -> gettok st = Some (t, st') ->
  (t = tok_def -> IdentifierStr st' = "def") /\
  (t = tok_extern -> IdentifierStr st' = "extern") /\
  (t = tok_identifier ->
   is_identifier (IdentifierStr st') = true /\
   IdentifierStr st' <> "def" /\ IdentifierStr st' <> "extern") /\
  (t <> tok_def -> t <> tok_extern -> t <> tok_identifier ->
   IdentifierStr st' = IdentifierStr st) /\
  (t <> tok_number -> NumVal st' = NumVal st).
Proof.
  intros Hok H. unfold gettok in H.
  apply gettok_rec_inv in H; [|exact Hok]. apply H.
Qed.

Lemma gettok_payload_witness :
  exists st',
    gettok (initial_state "define x") = Some (tok_identifier, st') /\
    IdentifierStr st' = "define" /\
    is_identifier (IdentifierStr st') = true /\
    IdentifierStr st' <> "def" /\ IdentifierStr st' <> "extern".
Proof.
  eexists. split; [vm_compute; reflexivity|]. split; [reflexivity|].
  apply (gettok_payload (initial_state "define x") tok_identifier).
  - right. cbn. lia.
  - vm_compute. reflexivity.
  - reflexivity.
Defined.

(** ** Tokens read off the input text *)

Lemma getchar_while_run p w r :
  every p w = true -> stops p r = true ->
  getchar_while p (w ++ r) = (w, fst (getchar r), snd (getchar r)).
Proof.
  intros Hw Hr. induction w as [|a w IH]; simpl in *.
  - destruct r as [|b r]; simpl in *; [reflexivity|].
    apply negb_true_iff in Hr. now rewrite Hr.
  - apply andb_true_iff in Hw as [Ha Hw]. rewrite Ha, (IH Hw). reflexivity.
Qed.

Lemma isalpha_not_space c : isalpha c = true -> isspace c = false.
Proof. unfold isalpha, isspace. lia. Qed.

Lemma number_char_not_space c : number_char c = true -> isspace c = false.
Proof. unfold number_char, isdigit, isspace. lia. Qed.

Lemma number_char_not_alpha c : number_char c = true -> isalpha c = false.
Proof. unfold number_char, isdigit, isalpha. lia. Qed.

Lemma gettok_reads_identifier (ws w r : string) (st : state) :
  every isspace ws = true -> is_identifier w = true -> stops isalnum r = true ->
  isspace (LastChar st) = true -> stdin st = ws ++ w ++ r ->
  gettok st = Some (keyword_or_identifier w, at_input r (set_IdentifierStr w st)).
Proof.
  intros Hws Hw Hr Hl Hs.
  destruct w as [|a w]; [discriminate|]. simpl in Hw.
  apply andb_true_iff in Hw as [Ha Hw].
  unfold gettok. cbn [gettok_rec]. unfold skip_whitespace. rewrite Hl, Hs.
  rewrite (getchar_while_run isspace ws (String a w ++ r) Hws)
    by (simpl; now rewrite (isalpha_not_space _ Ha)).
  change (String a w ++ r) with (String a (w ++ r)).
  cbn [getchar fst snd LastChar stdin set_input]. rewrite Ha.
  rewrite (getchar_while_run isalnum w r Hw Hr). rewrite chr_code.
  unfold keyword_or_identifier, at_input.
  destruct (getchar r) as [c r'] eqn:E. cbn [fst snd].
  destruct (String.eqb (String a w) "def"); [reflexivity|].
  destruct (String.eqb (String a w) "extern"); reflexivity.
Qed.

Lemma gettok_reads_number (ws n r : string) (st : state) :
  every isspace ws = true -> n <> "" -> every number_char n = true ->
  stops number_char r = true ->
  isspace (LastChar st) = true -> stdin st = ws ++ n ++ r ->
  gettok st = Some (tok_number, at_input r (set_NumVal (strtod n) st)).
Proof.
  intros Hws Hne Hn Hr Hl Hs.
  destruct n as [|a n]; [contradiction|]. simpl in Hn.
  apply andb_true_iff in Hn as [Ha Hn].
  unfold gettok. cbn [gettok_rec]. unfold skip_whitespace. rewrite Hl, Hs.
  rewrite (getchar_while_run isspace ws (String a n ++ r) Hws)
    by (simpl; now rewrite (number_char_not_space _ Ha)).
  change (String a n ++ r) with (String a (n ++ r)).
  cbn [getchar fst snd LastChar stdin set_input].
  rewrite (number_char_not_alpha _ Ha), Ha.
  rewrite (getchar_while_run number_char n r Hn Hr). rewrite chr_code.
  unfold at_input. destruct (getchar r) as [c r'] eqn:E. reflexivity.
Qed.

Lemma gettok_reads_character (ws : string) (a : ascii) (r : string) (st : state) :
  every isspace ws = true -> punctuation (code a) = true ->
  isspace (LastChar st) = true -> stdin st = ws ++ String a r ->
  gettok st = Some (code a, at_input r st).
Proof.
  intros Hws Hp Hl Hs. unfold punctuation in Hp.
  apply andb_true_iff in Hp as [Hp H35]. apply andb_true_iff in Hp as [Hp Hn].
  apply andb_true_iff in Hp as [Hsp Ha].
  apply negb_true_iff in Hsp, Ha, Hn, H35.
  unfold gettok. cbn [gettok_rec]. unfold skip_whitespace. rewrite Hl, Hs.
  rewrite (getchar_while_run isspace ws (String a r) Hws)
    by (simpl; now rewrite Hsp).
  cbn [getchar fst snd LastChar stdin set_input]. rewrite Ha, Hn, H35.
  pose proof (code_not_EOF a) as He. apply Z.eqb_neq in He. rewrite He.
  unfold at_input. destruct (getchar r) as [c r']. reflexivity.
Qed.

Lemma gettok_rec_skip (f : nat) (st st2 : state) :
  skip_whitespace st = skip_whitespace st2 -> gettok_rec f st = gettok_rec f st2.
Proof. intros E. destruct f as [|f]; [reflexivity|]. cbn [gettok_rec]. now rewrite E. Qed.

Lemma gettok_fuel (f : nat) (st : state) :
  (String.length (stdin st) < f)%nat -> gettok_rec f st = gettok st.
Proof.
  intros Hf. unfold gettok.
  destruct (gettok_rec_enough (S (String.length (stdin st))) st ltac:(lia))
    as (t & st' & H).
  rewrite H. apply (gettok_rec_more_fuel (S (String.length (stdin st)))); [lia|exact H].
Qed.

Lemma skip_whitespace_stream (st : state) :
  lexer_ok st ->
  skip_whitespace st = skip_whitespace (set_input 32 (lexer_input st) st).
Proof.
  intros Hok. unfold skip_whitespace at 2. cbn [LastChar stdin set_input].
  change (isspace 32) with true. cbv iota.
  unfold lexer_input, skip_whitespace.
  destruct (LastChar st =? EOF) eqn:Ee.
  - apply Z.eqb_eq in Ee. destruct Hok as [[_ Hs]|Hr]; [|unfold EOF in *; lia].
    rewrite Ee. change (isspace EOF) with false. cbn [getchar_while].
    destruct st; simpl in *; subst; reflexivity.
  - apply Z.eqb_neq in Ee. destruct Hok as [[He _]|Hr]; [contradiction|].
    cbn [getchar_while]. rewrite (code_chr _ Hr).
    destruct (isspace (LastChar st)).
    + destruct (getchar_while isspace (stdin st)) as [[acc c] r]. reflexivity.
    + destruct st; reflexivity.
Qed.

(** [gettok] depends on the lookahead and the unread input only through
    the characters they still hold together. *)
Lemma gettok_stream (st : state) :
  lexer_ok st -> gettok st = gettok (set_input 32 (lexer_input st) st).
Proof.
  intros Hok.
  pose (F := S (Nat.max (String.length (stdin st)) (String.length (lexer_input st)))).
  rewrite <- (gettok_fuel F st) by (unfold F; lia).
  rewrite <- (gettok_fuel F (set_input 32 (lexer_input st) st))
    by (cbn [stdin set_input]; unfold F; lia).
  apply gettok_rec_skip. now apply skip_whitespace_stream.
Qed.

Lemma lexer_input_at_input (s : string) (st : state) : lexer_input (at_input s st) = s.
Proof.
  destruct s as [|a s]; [reflexivity|].
  unfold at_input, lexer_input. cbn [getchar LastChar stdin set_input].
  pose proof (code_not_EOF a) as Hn. apply Z.eqb_neq in Hn. rewrite Hn.
  now rewrite chr_code.
Qed.

Lemma lexer_ok_at_input (s : string) (st : state) : lexer_ok (at_input s st).
Proof.
  destruct s as [|a s]; [now left|]. right.
  unfold at_input. cbn [getchar LastChar set_input]. pose proof (code_range a). lia.
Qed.

(** X5.  A word is read whole.  If the characters still to deliver are
    whitespace [ws], a word [w] of the identifier shape and a rest [r]
    that does not continue the word, then [gettok] stores [w] in
    [IdentifierStr], leaves exactly [r] to deliver, and returns [tok_def]
    or [tok_extern] if [w] is that keyword and [tok_identifier]
    otherwise. *)
Theorem gettok_identifier (ws w r : string) (st : state) :
  lexer_ok st -> lexer_input st = ws ++ w ++ r ->
  every isspace ws = true -> is_identifier w = true -> stops isalnum r = true ->
  gettok st = Some (keyword_or_identifier w, at_input r (set_IdentifierStr w st)).
Proof.
  intros Hok Hin Hws Hw Hr. rewrite (gettok_stream st Hok).
  rewrite (gettok_reads_identifier ws w r (set_input 32 (lexer_input st) st)
             Hws Hw Hr eq_refl Hin).
  unfold at_input. destruct (getchar r) as [c r']. reflexivity.
Qed.

Lemma gettok_identifier_witness :
  gettok (initial_state "  extern1 x")
  = Some (tok_identifier,
          at_input " x" (set_IdentifierStr "extern1" (initial_state "  extern1 x"))) /\
  gettok (initial_state "def f")
  = Some (tok_def, at_input " f" (set_IdentifierStr "def" (initial_state "def f"))).
Proof.
  split.
  - apply (gettok_identifier "   " "extern1" " x");
      [apply initial_state_ok|reflexivity..].
  - apply (gettok_identifier " " "def" " f");
      [apply initial_state_ok|reflexivity..].
Defined.

Lemma gettok_number_at (ws n r : string) (st : state) :
  lexer_ok st -> lexer_input st = ws ++ n ++ r ->
  every isspace ws = true -> n <> "" -> every number_char n = true ->
  stops number_char r = true ->
  gettok st = Some (tok_number, at_input r (set_NumVal (strtod n) st)).
Proof.
  intros Hok Hin Hws Hne Hn Hr. rewrite (gettok_stream st Hok).
  rewrite (gettok_reads_number ws n r (set_input 32 (lexer_input st) st)
             Hws Hne Hn Hr eq_refl Hin).
  unfold at_input. destruct (getchar r) as [c r']. reflexivity.
Qed.

(** X6.  A number is read whole.  If the characters still to deliver are
    whitespace [ws], a non-empty run [n] of digits and points and a rest
    [r] that does not continue the run, then [gettok] returns
    [tok_number], converts the whole run with [strtod] into [NumVal] and
    leaves exactly [r] to deliver. *)
Theorem gettok_number (ws n r : string) (st : state) :
  lexer_ok st -> lexer_input st = ws ++ n ++ r ->
  every isspace ws = true -> n <> "" -> every number_char n = true ->
  stops number_char r = true ->
  gettok st = Some (tok_number, at_input r (set_NumVal (strtod n) st)).
Proof. apply gettok_number_at. Qed.

Lemma gettok_number_witness :
  gettok (initial_state "4.5+x")
  = Some (tok_number, at_input "+x" (set_NumVal (strtod "4.5") (initial_state "4.5+x"))).
Proof.
  apply (gettok_number " " "4.5" "+x");
    [apply initial_state_ok|reflexivity|reflexivity|discriminate|reflexivity..].
Defined.

Lemma digits_run (a : string) : forall rest acc n,
  every isdigit a = true -> stops isdigit rest = true ->
  exists m k, digits (a ++ rest) acc n = (m, k, rest) /\
              digits a acc n = (m, k, "").
Proof.
  induction a as [|x a IH]; intros rest acc n Ha Hr; simpl in *.
  - exists acc, n. split; [|reflexivity].
    destruct rest as [|b rest]; simpl in *; [reflexivity|].
    apply negb_true_iff in Hr. now rewrite Hr.
  - apply andb_true_iff in Ha as [Hx Ha]. rewrite Hx. now apply IH.
Qed.

Lemma strtod_second_point (a b c : string) :
  every isdigit a = true -> every isdigit b = true ->
  strtod (a ++ "." ++ b ++ "." ++ c) = strtod (a ++ "." ++ b).
Proof.
  intros Ha Hb. unfold strtod.
  destruct (digits_run a ("." ++ b ++ "." ++ c) 0 0 Ha eq_refl) as (m & k & -> & E1).
  destruct (digits_run a ("." ++ b) 0 0 Ha eq_refl) as (m' & k' & -> & E2).
  rewrite E1 in E2. injection E2 as <- <-.
  change ("." ++ b ++ "." ++ c) with (String "."%char (b ++ "." ++ c)).
  change ("." ++ b) with (String "."%char b). cbv beta iota.
  destruct (digits_run b ("." ++ c) m 0 Hb eq_refl) as (m2 & k2 & -> & ->).
  reflexivity.
Qed.

Lemma every_app p (s1 s2 : string) :
  every p (s1 ++ s2) = every p s1 && every p s2.
Proof.
  induction s1 as [|a s1 IH]; simpl; [reflexivity|].
  now rewrite IH, andb_assoc.
Qed.

Lemma every_weaken (p q : Z -> bool) (s : string) :
  (forall c, p c = true -> q c = true) -> every p s = true -> every q s = true.
Proof.
  intros Hpq. induction s as [|a s IH]; simpl; [reflexivity|].
  intros H. apply andb_true_iff in H as [Ha Hs].
  now rewrite (Hpq _ Ha), (IH Hs).
Qed.

(** X7.  The lexer takes a run with several points as one number token,
    and its value is that of the text before the second point: what
    follows the second point is read and dropped (the remark of
    lexer.h:55-56 about "1.23.45.67"). *)
Theorem gettok_number_second_point (ws a b c r : string) (st : state) :
  lexer_ok st -> lexer_input st = ws ++ (a ++ "." ++ b ++ "." ++ c) ++ r ->
  every isspace ws = true ->
  every isdigit a = true -> every isdigit b = true ->
  every number_char c = true -> stops number_char r = true ->
  gettok st
  = Some (tok_number, at_input r (set_NumVal (strtod (a ++ "." ++ b)) st)).
Proof.
  intros Hok Hin Hws Ha Hb Hc Hr.
  rewrite <- (strtod_second_point a b c Ha Hb).
  apply (gettok_number_at ws); try assumption.
  - destruct a; discriminate.
  - assert (Hd : forall x, isdigit x = true -> number_char x = true).
    { intros x Hx. unfold number_char. now rewrite Hx. }
    rewrite !every_app. simpl.
    now rewrite (every_weaken _ _ a Hd Ha), (every_weaken _ _ b Hd Hb), Hc.
Qed.

Lemma gettok_number_second_point_witness :
  gettok (initial_state "1.23.45.67 ")
  = Some (tok_number,
          at_input " " (set_NumVal (strtod "1.23") (initial_state "1.23.45.67 "))).
Proof.
  apply (gettok_number_second_point " " "1" "23" "45.67" " ");
    [apply initial_state_ok|reflexivity..].
Defined.

Lemma gettok_character_at (ws : string) (a : ascii) (r : string) (st : state) :
  lexer_ok st -> lexer_input st = ws ++ String a r ->
  every isspace ws = true -> punctuation (code a) = true ->
  gettok st = Some (code a, at_input r st).
Proof.
  intros Hok Hin Hws Hp. rewrite (gettok_stream st Hok).
  rewrite (gettok_reads_character ws a r (set_input 32 (lexer_input st) st)
             Hws Hp eq_refl Hin).
  unfold at_input. destruct (getchar r) as [c r']. reflexivity.
Qed.

(** X8.  Any other character is a token of its own: after whitespace
    [ws], a character that is not whitespace, a letter, a digit, '.' or
    '#' is returned as its code, and the characters after it are left to
    deliver. *)
Theorem gettok_character (ws : string) (a : ascii) (r : string) (st : state) :
  lexer_ok st -> lexer_input st = ws ++ String a r ->
  every isspace ws = true -> punctuation (code a) = true ->
  gettok st = Some (code a, at_input r st).
Proof. apply gettok_character_at. Qed.

Lemma gettok_character_witness :
  gettok (initial_state " (x)")
  = Some (code "(", at_input "x)" (initial_state " (x)")).
Proof.
  apply (gettok_character "  " "("%char "x)");
    [apply initial_state_ok|reflexivity..].
Defined.

(** ** Whitespace and comments in front of a token *)

Lemma append_nil (s : string) : "" ++ s = s.
Proof. reflexivity. Qed.

Lemma append_cons (a : ascii) (s1 s2 : string) :
  String a s1 ++ s2 = String a (s1 ++ s2).
Proof. reflexivity. Qed.

Lemma getchar_while_prefix p (w s : string) :
  every p w = true ->
  getchar_while p (w ++ s)
  = let '(acc, c, r) := getchar_while p s in (w ++ acc, c, r).
Proof.
  intros Hw. induction w as [|a w IH]; simpl in Hw.
  - rewrite append_nil. destruct (getchar_while p s) as [[acc c] r]. reflexivity.
  - apply andb_true_iff in Hw as [Ha Hw].
    rewrite append_cons. cbn [getchar_while]. rewrite Ha, (IH Hw).
    destruct (getchar_while p s) as [[acc c] r]. reflexivity.
Qed.

Lemma getchar_while_isspace_prefix (b s : string) :
  blank false b = true -> open_comment false b = false ->
  every isspace b = true \/
  exists acc b1,
    getchar_while isspace (b ++ s) = (acc, 35, b1 ++ s) /\
    blank true b1 = true /\ open_comment true b1 = false /\
    (String.length b1 < String.length b)%nat.
Proof.
  induction b as [|a b IH]; intros Hb Ho; simpl in Hb, Ho; [now left|].
  rewrite append_cons. cbn [getchar_while every String.length].
  destruct (code a =? 35) eqn:Eh.
  - right. apply Z.eqb_eq in Eh. rewrite Eh. change (isspace 35) with false.
    exists "", b. repeat split; try assumption. lia.
  - apply andb_true_iff in Hb as [Hs Hb]. rewrite Hs.
    destruct (IH Hb Ho) as [He|(acc & b1 & E & H1 & H2 & H3)].
    + left. now rewrite He.
    + right. rewrite E. exists (String a acc), b1. repeat split; try assumption. lia.
Qed.

Lemma getchar_while_comment_prefix (b1 s : string) :
  blank true b1 = true -> open_comment true b1 = false ->
  exists acc c b2,
    getchar_while comment_char (b1 ++ s) = (acc, c, b2 ++ s) /\
    isspace c = true /\ c <> EOF /\
    blank false b2 = true /\ open_comment false b2 = false /\
    (String.length b2 < String.length b1)%nat.
Proof.
  induction b1 as [|a b1 IH]; intros Hb Ho; simpl in Hb, Ho; [discriminate|].
  rewrite append_cons. cbn [getchar_while String.length].
  assert (comment_char (code a) = negb (eol (code a))) as Ec.
  { unfold comment_char, eol.
    pose proof (code_not_EOF a) as Hn. apply Z.eqb_neq in Hn. rewrite Hn.
    now destruct (code a =? 10), (code a =? 13). }
  rewrite Ec. destruct (eol (code a)) eqn:Ee; simpl in Hb, Ho; cbn [negb].
  - exists "", (code a), b1. repeat split; try assumption.
    + unfold eol in Ee. apply orb_true_iff in Ee as [E|E];
        apply Z.eqb_eq in E; rewrite E; reflexivity.
    + apply code_not_EOF.
    + lia.
  - destruct (IH Hb Ho) as (acc & c & b2 & E & H1 & H2 & H3 & H4 & H5).
    rewrite E. exists (String a acc), c, b2. repeat split; try assumption. lia.
Qed.

Lemma string_length_app (s1 s2 : string) :
  String.length (s1 ++ s2) = (String.length s1 + String.length s2)%nat.
Proof. induction s1 as [|a s1 IH]; simpl; [reflexivity|now rewrite IH]. Qed.

Lemma gettok_rec_any_space (f : nat) (c l : Z) (s : string) (st : state) :
  isspace c = true -> isspace l = true ->
  gettok_rec f (set_input c s st) = gettok_rec f (set_input l s st).
Proof.
  intros Hc Hl. destruct f as [|f]; [reflexivity|].
  cbn [gettok_rec]. unfold skip_whitespace. cbn [LastChar stdin set_input].
  rewrite Hc, Hl. destruct (getchar_while isspace s) as [[acc c'] r]. reflexivity.
Qed.

Lemma gettok_rec_blank_prefix (f : nat) :
  forall (b s : string) (l : Z) (st : state),
    (String.length (b ++ s) < f)%nat -> isspace l = true ->
    blank false b = true -> open_comment false b = false ->
    gettok_rec f (set_input l (b ++ s) st) = gettok_rec f (set_input l s st).
Proof.
  induction f as [|f IH]; intros b s l st Hf Hl Hb Ho; [lia|].
  destruct (getchar_while_isspace_prefix b s Hb Ho)
    as [He|(acc & b1 & E & Hb1 & Ho1 & L1)].
  - cbn [gettok_rec]. unfold skip_whitespace. cbn [LastChar stdin set_input].
    rewrite Hl, (getchar_while_prefix isspace b s He).
    destruct (getchar_while isspace s) as [[acc c] r]. reflexivity.
  - destruct (getchar_while_comment_prefix b1 s Hb1 Ho1)
      as (acc1 & c & b2 & E1 & Hs & Hn & Hb2 & Ho2 & L2).
    rewrite string_length_app in Hf.
    transitivity (gettok_rec f (set_input c (b2 ++ s) st)).
    { cbn [gettok_rec]. unfold skip_whitespace. cbn [LastChar stdin set_input].
      rewrite Hl, E. cbn [LastChar stdin set_input].
      change (isalpha 35) with false. change (number_char 35) with false.
      change (35 =? 35) with true. cbv iota. rewrite E1.
      apply Z.eqb_neq in Hn. rewrite Hn. reflexivity. }
    rewrite (IH b2 s c st); try assumption.
    2: { rewrite string_length_app. lia. }
    rewrite (gettok_rec_any_space f c l s st Hs Hl).
    destruct (gettok_rec_enough f (set_input l s st)) as (t & st' & H).
    { cbn [stdin set_input]. lia. }
    rewrite H. symmetry. apply (gettok_rec_more_fuel f); [lia|exact H].
Qed.

Lemma gettok_skips_blank_after_space (b s : string) (st : state) :
  blank false b = true -> open_comment false b = false ->
  isspace (LastChar st) = true -> stdin st = b ++ s ->
  gettok st = gettok (set_input (LastChar st) s st).
Proof.
  intros Hb Ho Hl Hs.
  assert (st = set_input (LastChar st) (b ++ s) st) as Est.
  { rewrite <- Hs. now destruct st. }
  rewrite Est at 1. unfold gettok. cbn [stdin set_input].
  rewrite gettok_rec_blank_prefix; try assumption; [|lia].
  destruct (gettok_rec_enough (S (String.length s)) (set_input (LastChar st) s st))
    as (t & st' & H).
  { cbn [stdin set_input]. lia. }
  rewrite H. apply (gettok_rec_more_fuel (S (String.length s))); [|exact H].
  rewrite string_length_app. lia.
Qed.

(** X9.  Whitespace and comments in front of a token are invisible.  If
    the characters still to deliver start with a stretch [b] made of
    whitespace and of '#' comments, each closed by a line end, then
    [gettok] returns the token and the state it returns with [b]
    removed. *)
Theorem gettok_skips_blank_prefix (b s : string) (st : state) :
  lexer_ok st -> lexer_input st = b ++ s ->
  blank false b = true -> open_comment false b = false ->
  gettok st = gettok (at_input s st).
Proof.
  intros Hok Hin Hb Ho.
  rewrite (gettok_stream st Hok).
  rewrite (gettok_skips_blank_after_space b s (set_input 32 (lexer_input st) st)
             Hb Ho eq_refl Hin).
  rewrite (gettok_stream (at_input s st) (lexer_ok_at_input s st)).
  rewrite lexer_input_at_input.
  unfold at_input. destruct (getchar s) as [c r]. reflexivity.
Qed.

Lemma gettok_skips_blank_prefix_witness :
  gettok (initial_state (String "#" (String "c" (String (chr 10) "x"))))
  = gettok (at_input "x" (initial_state (String "#" (String "c" (String (chr 10) "x"))))).
Proof.
  apply (gettok_skips_blank_prefix
           (String " " (String "#" (String "c" (String (chr 10) ""))))  "x");
    [apply initial_state_ok|reflexivity..].
Defined.

(** ** The table before and between queries *)

Lemma getNextToken_stays_uninstalled : preserves stays_uninstalled getNextToken.
Proof.
  intros st t st' H E. apply getNextToken_spec in H as (_ & -> & _). exact E.
Qed.

Lemma GetTokPrecendence_stays_uninstalled :
  preserves stays_uninstalled GetTokPrecendence.
Proof.
  intros st v st' H E.
  destruct (GetTokPrecendence_empty_table st E) as [H'|H'];
    rewrite H' in H; injection H as _ <-; exact E.
Qed.

Lemma run_operation_stays_uninstalled (op : operation) :
  op <> Op_InstallBinaryOperators -> preserves stays_uninstalled (run_operation op).
Proof.
  intros Hop.
  assert (Hf : forall st, stays_uninstalled st st) by (intros st E; exact E).
  assert (Ht : forall st1 st2 st3, stays_uninstalled st1 st2 ->
                 stays_uninstalled st2 st3 -> stays_uninstalled st1 st3)
    by (intros st1 st2 st3 H1 H2 E; auto).
  assert (Hw : forall s st, stays_uninstalled st (write_stderr s st))
    by (intros s st E; exact E).
  assert (Hr : forall k st, stays_uninstalled st (record_node k st))
    by (intros k st E; exact E).
  pose proof getNextToken_stays_uninstalled as Hn.
  pose proof GetTokPrecendence_stays_uninstalled as Hq.
  destruct op; simpl; try contradiction; try apply discard_preserves.
  - exact Hn.
  - exact Hq.
  - now apply parse_stays_uninstalled.
  - now apply parse_stays_uninstalled.
  - now apply parse_stays_uninstalled.
  - now apply ParsePrototype_preserves.
  - now apply ParseDefinition_preserves.
  - now apply ParseExtern_preserves.
  - now apply ParseTopLevelExpr_preserves.
  - now apply MainLoop_preserves.
Qed.

(** X10.  Nothing but [InstallBinaryOperators] puts an entry into the
    table.  From an empty table, any sequence of the other operations
    (reading tokens, precedence queries, every parse function, the driver
    loop) leaves the table empty, so that a later
    [InstallBinaryOperators] still finds it empty and installs exactly the
    four operators. *)
Theorem table_empty_until_installed (ops : list operation) (st st' : state) :
  BinopPrecedence st = ∅ -> ~ In Op_InstallBinaryOperators ops ->
  run_operations ops st = Some (tt, st') ->
  BinopPrecedence st' = ∅ /\
  InstallBinaryOperators st' = Some (tt, set_BinopPrecedence installed_table st').
Proof.
  intros E Hno H.
  assert (E' : BinopPrecedence st' = ∅).
  { revert st E H. induction ops as [|op ops IH]; intros st E H; simpl in H.
    - injection H as <-. exact E.
    - unfold bind in H.
      destruct (run_operation op st) as [[[] s]|] eqn:H1; [|discriminate].
      apply (IH ltac:(intros Hi; apply Hno; now right) s); [|exact H].
      eapply run_operation_stays_uninstalled; [|exact H1|exact E].
      intros ->. apply Hno. now left. }
  split; [exact E'|].
  unfold InstallBinaryOperators.
  rewrite (proj2 (BinaryOperatorsInstalled_false st') E'), E'. reflexivity.
Qed.

Lemma table_empty_until_installed_witness :
  exists st',
    run_operations [Op_getNextToken; Op_GetTokPrecendence; Op_ParseExpression 4;
                    Op_GetTokPrecendence] (initial_state "+(1*2)")
    = Some (tt, st') /\
    BinopPrecedence st' = ∅ /\
    InstallBinaryOperators st' = Some (tt, set_BinopPrecedence installed_table st').
Proof.
  eexists. split; [vm_compute; reflexivity|].
  apply (table_empty_until_installed
           [Op_getNextToken; Op_GetTokPrecendence; Op_ParseExpression 4;
            Op_GetTokPrecendence] (initial_state "+(1*2)")).
  - reflexivity.
  - simpl. intros H. repeat (destruct H as [H|H]; [discriminate H|]). exact H.
  - vm_compute. reflexivity.
Defined.

(** X11.  Asking twice is asking once.  A second [GetTokPrecendence] on
    the same token gives the same answer; with the table installed it
    also leaves the state as the first query left it (the first one may
    have entered the character with value 0). *)
Theorem GetTokPrecendence_idempotent (st : state) (v : Z) (st1 : state) :
  GetTokPrecendence st = Some (v, st1) ->
  option_map fst (GetTokPrecendence st1) = Some v /\
  (BinopPrecedence st <> ∅ -> GetTokPrecendence st1 = Some (v, st1)).
Proof.
  intros H. split; [now apply GetTokPrecendence_frame in H|].
  intros Hne.
  destruct (isascii (CurTok st)) eqn:Ha.
  2: { rewrite GetTokPrecendence_not_ascii in H by assumption.
       injection H as <- <-. now apply GetTokPrecendence_not_ascii. }
  destruct (BinopPrecedence st !! to_char (CurTok st)) as [p|] eqn:L.
  - rewrite (GetTokPrecendence_present st p) in H by assumption.
    injection H as <- <-. now apply GetTokPrecendence_present.
  - rewrite GetTokPrecendence_absent in H by assumption.
    injection H as <- <-.
    rewrite (GetTokPrecendence_present _ 0); simpl; try assumption.
    + reflexivity.
    + apply insert_non_empty.
    + apply lookup_insert_eq.
Qed.

Lemma GetTokPrecendence_idempotent_witness :
  exists st1,
    GetTokPrecendence (query_state installed_table (code "@")) = Some (-1, st1) /\
    BinopPrecedence st1 !! "@"%char = Some 0 /\
    option_map fst (GetTokPrecendence st1) = Some (-1) /\
    GetTokPrecendence st1 = Some (-1, st1).
Proof.
  eexists. split; [reflexivity|]. split; [reflexivity|].
  destruct (GetTokPrecendence_idempotent
              (query_state installed_table (code "@")) (-1) _ eq_refl) as [H1 H2].
  split; [exact H1|]. apply H2. exact installed_table_nonempty.
Defined.

(** ** What the parser prints *)

Lemma getNextToken_quiet (st : state) (t : Z) (st' : state) :
  BinopPrecedence st <> ∅ -> getNextToken st = Some (t, st') ->
  BinopPrecedence st' <> ∅ /\ stderr st' = stderr st.
Proof.
  intros Hne H. apply getNextToken_spec in H as (_ & E1 & E2 & _).
  split; congruence.
Qed.

Lemma GetTokPrecendence_quiet (st : state) (v : Z) (st' : state) :
  BinopPrecedence st <> ∅ -> GetTokPrecendence st = Some (v, st') ->
  BinopPrecedence st' <> ∅ /\ stderr st' = stderr st.
Proof.
  intros Hne H.
  pose proof (GetTokPrecendence_table_grows _ _ _ H) as Hg.
  split; [eapply table_extends_nonempty; eassumption|].
  destruct (isascii (CurTok st)) eqn:Ha.
  2: { rewrite GetTokPrecendence_not_ascii in H by assumption. now injection H as _ <-. }
  destruct (BinopPrecedence st !! to_char (CurTok st)) as [p|] eqn:L.
  - rewrite (GetTokPrecendence_present st p) in H by assumption. now injection H as _ <-.
  - rewrite GetTokPrecendence_absent in H by assumption. now injection H as _ <-.
Qed.

Ltac quiet_calls IH1 IH2 IH3 IH4 IH5 IH6 :=
  repeat match goal with
    | H : getNextToken ?s = Some _ |- _ =>
        let Hne := fresh "Hne" in
        assert (Hne : BinopPrecedence s <> ∅) by (simpl; assumption);
        apply (getNextToken_quiet _ _ _ Hne) in H; destruct H as [? ?]
    | H : GetTokPrecendence ?s = Some _ |- _ =>
        let Hne := fresh "Hne" in
        assert (Hne : BinopPrecedence s <> ∅) by (simpl; assumption);
        apply (GetTokPrecendence_quiet _ _ _ Hne) in H; destruct H as [? ?]
    | H : ParsePrimary _ ?s = Some _ |- _ =>
        let Hne := fresh "Hne" in
        assert (Hne : BinopPrecedence s <> ∅) by (simpl; assumption);
        apply (IH1 _ _ _ Hne) in H; destruct H as [? ?]
    | H : ParseParenExpr _ ?s = Some _ |- _ =>
        let Hne := fresh "Hne" in
        assert (Hne : BinopPrecedence s <> ∅) by (simpl; assumption);
        apply (IH2 _ _ _ Hne) in H; destruct H as [? ?]
    | H : ParseIdentifierExpr _ ?s = Some _ |- _ =>
        let Hne := fresh "Hne" in
        assert (Hne : BinopPrecedence s <> ∅) by (simpl; assumption);
        apply (IH3 _ _ _ Hne) in H; destruct H as [? ?]
    | H : ParseIdentifierExpr_args _ _ ?s = Some _ |- _ =>
        let Hne := fresh "Hne" in
        assert (Hne : BinopPrecedence s <> ∅) by (simpl; assumption);
        apply (IH4 _ _ _ _ Hne) in H; destruct H as [? ?]
    | H : ParseExpression _ ?s = Some _ |- _ =>
        let Hne := fresh "Hne" in
        assert (Hne : BinopPrecedence s <> ∅) by (simpl; assumption);
        apply (IH5 _ _ _ Hne) in H; destruct H as [? ?]
    | H : ParseBinOpRHS _ _ _ ?s = Some _ |- _ =>
        let Hne := fresh "Hne" in
        assert (Hne : BinopPrecedence s <> ∅) by (simpl; assumption);
        apply (IH6 _ _ _ _ _ Hne) in H; destruct H as [? ?]
    end.

Ltac quiet_done :=
  try match goal with
      | H : Some _ = Some _ |- _ => injection H as <- <-
      end;
  split; [simpl; assumption|];
  try match goal with
      | |- match ?r with _ => _ end => destruct r
      end;
  unfold one_error, error_line in *; simpl in *;
  first [ congruence
        | match goal with
          | H : exists _, _ |- _ =>
              let msg := fresh "msg" in
              destruct H as (msg & ? & ?); exists msg; split; [assumption|congruence]
          end
        | eexists;
          split; [|f_equal; first [reflexivity|congruence]];
          simpl; tauto ].

Lemma ParseNumberExpr_reported (st : state) r (st' : state) :
  BinopPrecedence st <> ∅ -> ParseNumberExpr st = Some (r, st') ->
  reported expression_errors r st st'.
Proof.
  intros Hne H. unfold ParseNumberExpr in H. exec H.
  apply getNextToken_quiet in Heqo as [? ?]; [|simpl; assumption].
  injection H as <- <-. split; [assumption|]. simpl in *. congruence.
Qed.

Lemma parse_reported (f : nat) :
  (forall st r st', BinopPrecedence st <> ∅ -> ParsePrimary f st = Some (r, st') ->
                    reported expression_errors r st st') /\
  (forall st r st', BinopPrecedence st <> ∅ -> ParseParenExpr f st = Some (r, st') ->
                    reported expression_errors r st st') /\
  (forall st r st', BinopPrecedence st <> ∅ -> ParseIdentifierExpr f st = Some (r, st') ->
                    reported expression_errors r st st') /\
  (forall args st r st', BinopPrecedence st <> ∅ ->
                    ParseIdentifierExpr_args f args st = Some (r, st') ->
                    reported expression_errors r st st') /\
  (forall st r st', BinopPrecedence st <> ∅ -> ParseExpression f st = Some (r, st') ->
                    reported expression_errors r st st') /\
  (forall prec lhs st r st', BinopPrecedence st <> ∅ ->
                    ParseBinOpRHS f prec lhs st = Some (r, st') ->
                    reported expression_errors r st st').
Proof.
  induction f as [|f (IH1 & IH2 & IH3 & IH4 & IH5 & IH6)].
  - repeat (split; [intros; discriminate|]); intros; discriminate.
  - split; [|split; [|split; [|split; [|split]]]]; intros;
      match goal with
      | H : _ = Some _ |- _ =>
          cbn [ParsePrimary ParseParenExpr ParseIdentifierExpr
               ParseIdentifierExpr_args ParseExpression ParseBinOpRHS] in H;
          exec H
      end.
    all: try match goal with
      | H : ParseNumberExpr _ = Some _ |- _ => now apply ParseNumberExpr_reported in H
      end.
    all: quiet_calls IH1 IH2 IH3 IH4 IH5 IH6.
    all: try quiet_done.
Qed.

(** X12.  With the table installed, [ParseExpression] prints nothing when
    it returns a tree, and exactly one line when it returns [nullptr]:
    the error of the place that failed, every caller above it handing the
    [nullptr] on in silence. *)
Theorem ParseExpression_diagnostics (f : nat) (st : state)
        (r : option ExprAST) (st' : state) :
  BinopPrecedence st <> ∅ -> ParseExpression f st = Some (r, st') ->
  match r with
  | Some _ => stderr st' = stderr st
  | None => one_error expression_errors st st'
  end.
Proof.
  intros Hne H.
  destruct (parse_reported f) as (_ & _ & _ & _ & HE & _).
  exact (proj2 (HE st r st' Hne H)).
Qed.

Lemma ParseExpression_diagnostics_witness :
  exists st st',
    BinopPrecedence st <> ∅ /\
    ParseExpression 6 st = Some (None, st') /\
    one_error expression_errors st st'.
Proof.
  exists (set_CurTok (code "(") (set_input (code "1") "+2" (after_install ""))).
  eexists. split; [exact installed_table_nonempty|].
  split; [vm_compute; reflexivity|].
  apply (ParseExpression_diagnostics 6
           (set_CurTok (code "(") (set_input (code "1") "+2" (after_install "")))
           None).
  - exact installed_table_nonempty.
  - vm_compute. reflexivity.
Defined.

Lemma one_error_weaken (msgs msgs' : list string) (st st' : state) :
  (forall m, In m msgs -> In m msgs') -> one_error msgs st st' -> one_error msgs' st st'.
Proof. intros Hi (m & Hm & E). exists m. split; [now apply Hi|exact E]. Qed.

Lemma ParsePrototype_args_quiet (f : nat) :
  forall names st r st',
    ParsePrototype_args f names st = Some (r, st') ->
    BinopPrecedence st' = BinopPrecedence st /\ stderr st' = stderr st.
Proof.
  induction f as [|f IH]; intros names st r st' H; [discriminate|].
  cbn [ParsePrototype_args] in H. exec H.
  - apply IH in H as [? ?].
    apply getNextToken_spec in Heqo as (_ & ? & ? & _). split; congruence.
  - injection H as _ <-.
    apply getNextToken_spec in Heqo as (_ & ? & ? & _). split; congruence.
Qed.

Lemma ParsePrototype_reported (f : nat) (st : state) r (st' : state) :
  ParsePrototype f st = Some (r, st') ->
  BinopPrecedence st' = BinopPrecedence st /\
  match r with
  | Some _ => stderr st' = stderr st
  | None => one_error prototype_errors st st'
  end.
Proof.
  intros H. unfold ParsePrototype in H. exec H;
    repeat match goal with
      | H : getNextToken _ = Some _ |- _ =>
          apply getNextToken_spec in H; destruct H as (_ & ? & ? & _)
      | H : ParsePrototype_args _ _ _ = Some _ |- _ =>
          apply ParsePrototype_args_quiet in H; destruct H as [? ?]
      end;
    injection H as <- <-; unfold one_error, error_line; simpl in *;
    (split; [congruence|]);
    first [ congruence
          | eexists; split; [|f_equal; first [reflexivity|congruence]]; simpl; tauto ].
Qed.

Ltac top_calls HE :=
  repeat match goal with
    | H : getNextToken _ = Some _ |- _ =>
        apply getNextToken_spec in H; destruct H as (_ & ? & ? & _)
    | H : ParsePrototype _ _ = Some _ |- _ =>
        apply ParsePrototype_reported in H; destruct H as [? ?]
    | H : ParseExpression _ ?s = Some _ |- _ =>
        apply HE in H; [destruct H as [? ?]|congruence]
    end.

Ltac one_error_done :=
  match goal with
  | H : one_error ?msgs _ _ |- one_error ?msgs' _ _ =>
      let m := fresh "m" in
      destruct H as (m & ? & ?); exists m;
      split; [first [assumption|apply in_or_app; tauto]|simpl in *; congruence]
  end.

Lemma ParseDefinition_reported (f : nat) (st : state) r (st' : state) :
  BinopPrecedence st <> ∅ -> ParseDefinition f st = Some (r, st') ->
  match r with
  | Some _ => stderr st' = stderr st
  | None => one_error (prototype_errors ++ expression_errors) st st'
  end.
Proof.
  intros Hne H. destruct (parse_reported f) as (_ & _ & _ & _ & HE & _).
  unfold ParseDefinition in H. exec H; top_calls HE; injection H as <- <-.
  - simpl in *. congruence.
  - one_error_done.
  - one_error_done.
Qed.

Lemma ParseExtern_reported (f : nat) (st : state) r (st' : state) :
  ParseExtern f st = Some (r, st') ->
  match r with
  | Some _ => stderr st' = stderr st
  | None => one_error prototype_errors st st'
  end.
Proof.
  intros H. unfold ParseExtern in H. exec H; top_calls False.
  destruct r; [simpl in *; congruence|one_error_done].
Qed.

Lemma ParseTopLevelExpr_reported (f : nat) (st : state) r (st' : state) :
  BinopPrecedence st <> ∅ -> ParseTopLevelExpr f st = Some (r, st') ->
  match r with
  | Some _ => stderr st' = stderr st
  | None => one_error expression_errors st st'
  end.
Proof.
  intros Hne H. destruct (parse_reported f) as (_ & _ & _ & _ & HE & _).
  unfold ParseTopLevelExpr in H. exec H; top_calls HE; injection H as <- <-.
  - simpl in *. congruence.
  - one_error_done.
Qed.

Ltac handler_done :=
  match goal with
  | H : Some _ = Some _ |- _ => injection H as <-
  end;
  unfold one_line;
  first [ left; cbn [stderr write_stderr]; congruence
        | right; top_calls False; one_error_done ].

(** X13.  With the table installed, each of the three handlers of the
    driver loop prints exactly one line: its "Parsed ..." message, or the
    one error of the parse that failed. *)
Theorem handlers_write_one_line (f : nat) (st st' : state) :
  BinopPrecedence st <> ∅ ->
  (HandleDefinition f st = Some (tt, st') ->
   one_line ("Parsed a function definition." ++ newline)
            (prototype_errors ++ expression_errors) st st') /\
  (HandleExtern f st = Some (tt, st') ->
   one_line ("Parsed an extern" ++ newline) prototype_errors st st') /\
  (HandleTopLevelExpression f st = Some (tt, st') ->
   one_line ("Parsed a top-level expr" ++ newline) expression_errors st st').
Proof.
  intros Hne. split; [|split]; intros H.
  - unfold HandleDefinition in H. exec H;
      match goal with
      | H : ParseDefinition _ _ = Some _ |- _ =>
          apply ParseDefinition_reported in H; [|assumption]
      end; handler_done.
  - unfold HandleExtern in H. exec H;
      match goal with
      | H : ParseExtern _ _ = Some _ |- _ => apply ParseExtern_reported in H
      end; handler_done.
  - unfold HandleTopLevelExpression in H. exec H;
      match goal with
      | H : ParseTopLevelExpr _ _ = Some _ |- _ =>
          apply ParseTopLevelExpr_reported in H; [|assumption]
      end; handler_done.
Qed.

Lemma handlers_write_one_line_witness :
  exists st st',
    BinopPrecedence st <> ∅ /\
    HandleDefinition 6 st = Some (tt, st') /\
    one_line ("Parsed a function definition." ++ newline)
             (prototype_errors ++ expression_errors) st st'.
Proof.
  exists (set_CurTok tok_def (set_input (code "f") "(x) x*x" (after_install ""))).
  eexists. split; [exact installed_table_nonempty|].
  split; [vm_compute; reflexivity|].
  apply (handlers_write_one_line 6
           (set_CurTok tok_def (set_input (code "f") "(x) x*x" (after_install "")))).
  - exact installed_table_nonempty.
  - vm_compute. reflexivity.
Defined.

(** ** What the parser constructs *)

Lemma getNextToken_constructed (st : state) (t : Z) (st' : state) :
  getNextToken st = Some (t, st') -> constructed st' = constructed st.
Proof. intros H. now apply getNextToken_spec in H. Qed.

Lemma GetTokPrecendence_constructed (st : state) (v : Z) (st' : state) :
  GetTokPrecendence st = Some (v, st') -> constructed st' = constructed st.
Proof.
  intros H. unfold GetTokPrecendence in H. exec H;
    try (destruct (map_subscript _ _)); exec H; injection H as _ <-; reflexivity.
Qed.

Ltac node_calls IH1 IH2 IH3 IH4 IH5 IH6 :=
  repeat match goal with
    | H : getNextToken _ = Some _ |- _ => apply getNextToken_constructed in H
    | H : GetTokPrecendence _ = Some _ |- _ => apply GetTokPrecendence_constructed in H
    | H : ParsePrimary _ _ = Some (Some _, _) |- _ => apply IH1 in H
    | H : ParseParenExpr _ _ = Some (Some _, _) |- _ => apply IH2 in H
    | H : ParseIdentifierExpr _ _ = Some (Some _, _) |- _ => apply IH3 in H
    | H : ParseIdentifierExpr_args _ _ _ = Some (Some _, _) |- _ =>
        apply IH4 in H; destruct H as (? & ? & ?)
    | H : ParseExpression _ _ = Some (Some _, _) |- _ => apply IH5 in H
    | H : ParseBinOpRHS _ _ _ _ = Some (Some _, _) |- _ =>
        apply IH6 in H; destruct H as (? & ? & ?)
    end.

Ltac rewrite_constructed :=
  repeat match goal with
    | H : constructed ?s = _ |- context [constructed ?s] => rewrite H
    end.

Ltac rewrite_nodes :=
  repeat match goal with
    | H : nodes ?e = _ |- context [nodes ?e] => rewrite H
    end.

Lemma parse_nodes (f : nat) :
  (forall st e st', ParsePrimary f st = Some (Some e, st') ->
                    constructed st' = (constructed st ++ nodes e)%list) /\
  (forall st e st', ParseParenExpr f st = Some (Some e, st') ->
                    constructed st' = (constructed st ++ nodes e)%list) /\
  (forall st e st', ParseIdentifierExpr f st = Some (Some e, st') ->
                    constructed st' = (constructed st ++ nodes e)%list) /\
  (forall args st l st', ParseIdentifierExpr_args f args st = Some (Some l, st') ->
                    exists new, l = (args ++ new)%list /\
                      constructed st' = (constructed st ++ flat_map nodes new)%list) /\
  (forall st e st', ParseExpression f st = Some (Some e, st') ->
                    constructed st' = (constructed st ++ nodes e)%list) /\
  (forall prec lhs st e st', ParseBinOpRHS f prec lhs st = Some (Some e, st') ->
                    exists more, nodes e = (nodes lhs ++ more)%list /\
                      constructed st' = (constructed st ++ more)%list).
Proof.
  induction f as [|f (IH1 & IH2 & IH3 & IH4 & IH5 & IH6)].
  - repeat (split; [intros; discriminate|]); intros; discriminate.
  - split; [|split; [|split; [|split; [|split]]]]; intros;
      match goal with
      | H : _ = Some _ |- _ =>
          cbn [ParsePrimary ParseParenExpr ParseIdentifierExpr
               ParseIdentifierExpr_args ParseExpression ParseBinOpRHS] in H;
          try unfold ParseNumberExpr in H;
          exec H
      end.
    all: try discriminate.
    all: node_calls IH1 IH2 IH3 IH4 IH5 IH6.
    all: try assumption.
    all: try match goal with
          | H : Some _ = Some _ |- _ => injection H as <- <-
          end.
    all: simpl in *.
    all: try congruence.
    all: try match goal with
          | H : ?l = ((?args ++ [?e]) ++ ?x)%list |- exists new, ?l = (?args ++ new)%list /\ _ =>
              exists (e :: x); subst; rewrite_constructed; simpl;
              rewrite <- ?app_assoc; split; reflexivity
          | |- exists new, (?args ++ [?e])%list = (?args ++ new)%list /\ _ =>
              exists [e]; rewrite_constructed; simpl; rewrite app_nil_r;
              split; reflexivity
          | |- exists more, ?x = (?x ++ more)%list /\ _ =>
              exists []; rewrite !app_nil_r; split; [reflexivity|assumption]
          | |- exists more, _ =>
              eexists; split; [|rewrite_constructed; rewrite <- ?app_assoc; reflexivity]
          end.
    all: subst; rewrite_constructed; rewrite_nodes; simpl;
      rewrite <- ?app_assoc, ?app_nil_r; reflexivity.
Qed.

(** X14.  When [ParseExpression] returns a tree, the nodes it constructed
    are exactly the nodes of that tree, each made once, operands before
    their operator and arguments before their call: nothing is built and
    then dropped on a successful parse. *)
Theorem ParseExpression_nodes (f : nat) (st : state) (e : ExprAST) (st' : state) :
  ParseExpression f st = Some (Some e, st') ->
  constructed st' = (constructed st ++ nodes e)%list.
Proof. apply parse_nodes. Qed.

Lemma ParseExpression_nodes_witness :
  exists st',
    ParseExpression 8 (set_CurTok tok_identifier
                         (set_IdentifierStr "f" (set_input (code "(") "1, x+2)"
                                                   (after_install ""))))
    = Some (Some (CallExprAST "f"
                    [Num 1; BinaryExprAST "+" (VariableExprAST "x") (Num 2)]), st') /\
    constructed st' = [NumberNode; VariableNode; NumberNode; BinaryNode; CallNode].
Proof.
  eexists. split; [vm_compute; reflexivity|].
  apply (ParseExpression_nodes 8
           (set_CurTok tok_identifier
              (set_IdentifierStr "f" (set_input (code "(") "1, x+2)"
                                        (after_install ""))))
           (CallExprAST "f"
              [Num 1; BinaryExprAST "+" (VariableExprAST "x") (Num 2)])).
  vm_compute. reflexivity.
Defined.

Lemma ParsePrototype_args_constructed (f : nat) :
  forall names st r st',
    ParsePrototype_args f names st = Some (r, st') -> constructed st' = constructed st.
Proof.
  induction f as [|f IH]; intros names st r st' H; [discriminate|].
  cbn [ParsePrototype_args] in H. exec H.
  - apply IH in H. apply getNextToken_constructed in Heqo. congruence.
  - injection H as _ <-. now apply getNextToken_constructed in Heqo.
Qed.

Lemma ParsePrototype_nodes (f : nat) (st : state) r (st' : state) :
  ParsePrototype f st = Some (r, st') ->
  constructed st'
  = (constructed st ++ match r with Some _ => [PrototypeNode] | None => [] end)%list.
Proof.
  intros H. unfold ParsePrototype in H. exec H;
    repeat match goal with
      | H : getNextToken _ = Some _ |- _ => apply getNextToken_constructed in H
      | H : ParsePrototype_args _ _ _ = Some _ |- _ =>
          apply ParsePrototype_args_constructed in H
      end;
    injection H as <- <-; simpl; rewrite ?app_nil_r; congruence.
Qed.

(** X15.  A successful [ParseDefinition] constructs the prototype, then
    the nodes of the body, then the function.  A successful
    [ParseTopLevelExpr] constructs the nodes of the expression, then the
    anonymous prototype (empty name, no parameters) and the function. *)
Theorem definition_nodes (f : nat) (st : state) (fn : FunctionAST) (st' : state) :
  (ParseDefinition f st = Some (Some fn, st') ->
   constructed st'
   = (constructed st ++ [PrototypeNode] ++ nodes (body fn) ++ [FunctionNode])%list) /\
  (ParseTopLevelExpr f st = Some (Some fn, st') ->
   prototype fn = mkPrototypeAST "" [] /\
   constructed st'
   = (constructed st ++ nodes (body fn) ++ [PrototypeNode; FunctionNode])%list).
Proof.
  destruct (parse_nodes f) as (_ & _ & _ & _ & HE & _).
  split; intros H.
  - unfold ParseDefinition in H. exec H; try discriminate.
    apply getNextToken_constructed in Heqo.
    apply ParsePrototype_nodes in Heqo0. apply HE in Heqo1.
    injection H as <- <-. simpl. rewrite Heqo1, Heqo0, Heqo.
    now rewrite <- !app_assoc.
  - unfold ParseTopLevelExpr in H. exec H; try discriminate.
    apply HE in Heqo. injection H as <- <-. simpl. split; [reflexivity|].
    rewrite Heqo. now rewrite <- !app_assoc.
Qed.

Lemma definition_nodes_witness :
  exists fn st',
    ParseDefinition 8 (set_CurTok tok_def (set_input (code "f") "(x) x*x"
                                             (after_install "")))
    = Some (Some fn, st') /\
    body fn = BinaryExprAST "*" (VariableExprAST "x") (VariableExprAST "x") /\
    constructed st'
    = ([] ++ [PrototypeNode] ++ nodes (body fn) ++ [FunctionNode])%list.
Proof.
  eexists. eexists. split; [vm_compute; reflexivity|]. split; [reflexivity|].
  apply (proj1 (definition_nodes 8
                  (set_CurTok tok_def (set_input (code "f") "(x) x*x"
                                         (after_install ""))) _ _)).
  vm_compute. reflexivity.
Defined.

(** ** The operators of a tree *)

Lemma binary_operator_back (t t' : gmap ascii Z) (op : ascii) :
  table_extends t t' -> binary_operator t' op -> binary_operator t op.
Proof.
  intros He (v & Hv & L). exists v. split; [exact Hv|].
  destruct (He op) as [E|[_ E]]; [congruence|].
  rewrite L in E. injection E as ->. lia.
Qed.

Lemma parse_table_grows (f : nat) :
  preserves table_grows (ParsePrimary f) /\
  preserves table_grows (ParseParenExpr f) /\
  preserves table_grows (ParseIdentifierExpr f) /\
  (forall args, preserves table_grows (ParseIdentifierExpr_args f args)) /\
  preserves table_grows (ParseExpression f) /\
  (forall prec lhs, preserves table_grows (ParseBinOpRHS f prec lhs)).
Proof.
  apply parse_preserves; unfold table_grows.
  - intros; apply table_extends_refl.
  - intros ? ? ?; apply table_extends_trans.
  - exact getNextToken_table_grows.
  - exact GetTokPrecendence_table_grows.
  - intros; apply table_extends_refl.
  - intros; apply table_extends_refl.
Qed.

Lemma GetTokPrecendence_operator (T : gmap ascii Z) (st : state) (v : Z) (st' : state) :
  table_extends T (BinopPrecedence st) ->
  GetTokPrecendence st = Some (v, st') -> 0 <= v ->
  binary_operator T (to_char (CurTok st')).
Proof.
  intros G H Hv.
  pose proof (GetTokPrecendence_frame _ _ _ H) as (_ & _ & -> & _).
  apply GetTokPrecendence_range in H as [->|[->|[Hp L]]]; try lia.
  apply (binary_operator_back T (BinopPrecedence st)); [exact G|].
  exists v. now split.
Qed.

Lemma ParsePrimary_grows f st r st' :
  ParsePrimary f st = Some (r, st') ->
  table_extends (BinopPrecedence st) (BinopPrecedence st').
Proof. apply parse_table_grows. Qed.

Lemma ParseParenExpr_grows f st r st' :
  ParseParenExpr f st = Some (r, st') ->
  table_extends (BinopPrecedence st) (BinopPrecedence st').
Proof. apply parse_table_grows. Qed.

Lemma ParseIdentifierExpr_grows f st r st' :
  ParseIdentifierExpr f st = Some (r, st') ->
  table_extends (BinopPrecedence st) (BinopPrecedence st').
Proof. apply parse_table_grows. Qed.

Lemma ParseIdentifierExpr_args_grows f args st r st' :
  ParseIdentifierExpr_args f args st = Some (r, st') ->
  table_extends (BinopPrecedence st) (BinopPrecedence st').
Proof. apply parse_table_grows. Qed.

Lemma ParseExpression_grows f st r st' :
  ParseExpression f st = Some (r, st') ->
  table_extends (BinopPrecedence st) (BinopPrecedence st').
Proof. apply parse_table_grows. Qed.

Lemma ParseBinOpRHS_grows f prec lhs st r st' :
  ParseBinOpRHS f prec lhs st = Some (r, st') ->
  table_extends (BinopPrecedence st) (BinopPrecedence st').
Proof. apply parse_table_grows. Qed.

Ltac grow_calls T :=
  repeat match goal with
    | H : getNextToken ?s = Some (_, ?s') |- _ =>
        lazymatch goal with
        | _ : table_extends T (BinopPrecedence s') |- _ => fail
        | _ => idtac
        end;
        let G := fresh "G" in
        assert (G : table_extends T (BinopPrecedence s'));
        [eapply table_extends_trans;
         [|apply (getNextToken_table_grows _ _ _ H)]; simpl; assumption|]
    | H : GetTokPrecendence ?s = Some (_, ?s') |- _ =>
        lazymatch goal with
        | _ : table_extends T (BinopPrecedence s') |- _ => fail
        | _ => idtac
        end;
        let G := fresh "G" in
        assert (G : table_extends T (BinopPrecedence s'));
        [eapply table_extends_trans;
         [|apply (GetTokPrecendence_table_grows _ _ _ H)]; simpl; assumption|]
    | H : ?F ?s = Some (_, ?s') |- _ =>
        lazymatch goal with
        | _ : table_extends T (BinopPrecedence s') |- _ => fail
        | _ => idtac
        end;
        let G := fresh "G" in
        assert (G : table_extends T (BinopPrecedence s'));
        [eapply table_extends_trans;
         [|first [ apply (ParsePrimary_grows _ _ _ _ H)
                 | apply (ParseParenExpr_grows _ _ _ _ H)
                 | apply (ParseIdentifierExpr_grows _ _ _ _ H)
                 | apply (ParseIdentifierExpr_args_grows _ _ _ _ _ H)
                 | apply (ParseExpression_grows _ _ _ _ H)
                 | apply (ParseBinOpRHS_grows _ _ _ _ _ _ H) ]]; simpl; assumption|]
    end.

Lemma parse_operators (f : nat) (T : gmap ascii Z) :
  (forall st e st', table_extends T (BinopPrecedence st) ->
     ParsePrimary f st = Some (Some e, st') ->
     Forall (binary_operator T) (operators e)) /\
  (forall st e st', table_extends T (BinopPrecedence st) ->
     ParseParenExpr f st = Some (Some e, st') ->
     Forall (binary_operator T) (operators e)) /\
  (forall st e st', table_extends T (BinopPrecedence st) ->
     ParseIdentifierExpr f st = Some (Some e, st') ->
     Forall (binary_operator T) (operators e)) /\
  (forall args st l st', table_extends T (BinopPrecedence st) ->
     Forall (binary_operator T) (flat_map operators args) ->
     ParseIdentifierExpr_args f args st = Some (Some l, st') ->
     Forall (binary_operator T) (flat_map operators l)) /\
  (forall st e st', table_extends T (BinopPrecedence st) ->
     ParseExpression f st = Some (Some e, st') ->
     Forall (binary_operator T) (operators e)) /\
  (forall prec lhs st e st', table_extends T (BinopPrecedence st) ->
     0 <= prec -> Forall (binary_operator T) (operators lhs) ->
     ParseBinOpRHS f prec lhs st = Some (Some e, st') ->
     Forall (binary_operator T) (operators e)).
Proof.
  induction f as [|f (IH1 & IH2 & IH3 & IH4 & IH5 & IH6)].
  - repeat (split; [intros; discriminate|]); intros; discriminate.
  - split; [|split; [|split; [|split; [|split]]]]; intros;
      match goal with
      | H : _ = Some _ |- _ =>
          cbn [ParsePrimary ParseParenExpr ParseIdentifierExpr
               ParseIdentifierExpr_args ParseExpression ParseBinOpRHS] in H;
          try unfold ParseNumberExpr in H;
          exec H
      end.
    all: try discriminate.
    all: grow_calls T.
    all: try match goal with
          | H : Some _ = Some _ |- _ => injection H as <- <-
          end.
    all: try (simpl; constructor).
    all: eauto.
    + simpl. eapply IH4; [| |eassumption]; [assumption|constructor].
    + rewrite flat_map_app. apply Forall_app. split; [assumption|].
      simpl. rewrite app_nil_r. eauto.
    + eapply IH4; [| |eassumption]; [assumption|].
      rewrite flat_map_app. apply Forall_app. split; [assumption|].
      simpl. rewrite app_nil_r. eauto.
    + apply (IH6 _ _ _ _ _ G (Z.le_refl 0) (IH1 _ _ _ H Heqo) H0).
    + assert (Hz : 0 <= z) by lia.
      pose proof (GetTokPrecendence_operator T _ _ _ H Heqo Hz) as Hop.
      apply (IH1 _ _ _ G0) in Heqo1.
      assert (Hz1 : 0 <= z + 1) by lia.
      apply (IH6 _ _ _ _ _ G2 Hz1 Heqo1) in Heqo3.
      eapply IH6; [| | |eassumption]; [exact G3|exact H0|].
      simpl. constructor; [exact Hop|]. apply Forall_app. now split.
    + assert (Hz : 0 <= z) by lia.
      pose proof (GetTokPrecendence_operator T _ _ _ H Heqo Hz) as Hop.
      apply (IH1 _ _ _ G0) in Heqo1.
      eapply IH6; [| | |eassumption]; [exact G2|exact H0|].
      simpl. constructor; [exact Hop|]. apply Forall_app. now split.
Qed.

Lemma binary_operator_installed (op : ascii) :
  binary_operator installed_table op ->
  In op ["<"%char; "+"%char; "-"%char; "*"%char].
Proof.
  intros (v & _ & L). apply installed_table_entries in L. simpl in L |- *.
  repeat match goal with
         | H : _ \/ _ |- _ => destruct H
         | H : (_, _) = (_, _) |- _ => inversion H; clear H; subst
         | H : False |- _ => destruct H
         end; tauto.
Qed.

(** X16.  Every binary node of a tree that [ParseExpression] returns
    carries a character to which the table, as it was when the parse
    began, gives a positive precedence.  So with an empty table the tree
    has no binary node, and with the installed table its operators are
    among '<', '+', '-' and '*'. *)
Theorem ParseExpression_operators (f : nat) (st : state) (e : ExprAST) (st' : state) :
  ParseExpression f st = Some (Some e, st') ->
  Forall (binary_operator (BinopPrecedence st)) (operators e) /\
  (BinopPrecedence st = ∅ -> operators e = []) /\
  (BinopPrecedence st = installed_table ->
   Forall (fun op => In op ["<"%char; "+"%char; "-"%char; "*"%char]) (operators e)).
Proof.
  intros H.
  assert (Ho : Forall (binary_operator (BinopPrecedence st)) (operators e)).
  { destruct (parse_operators f (BinopPrecedence st)) as (_ & _ & _ & _ & HE & _).
    eapply HE; [apply table_extends_refl|exact H]. }
  split; [exact Ho|]. split.
  - intros E. rewrite E in Ho. destruct (operators e) as [|op ops]; [reflexivity|].
    inversion Ho as [|? ? (v & _ & L) _]. now rewrite lookup_empty in L.
  - intros E. rewrite E in Ho.
    eapply Forall_impl; [exact Ho|]. exact binary_operator_installed.
Qed.

Lemma ParseExpression_operators_witness :
  exists e st',
    parse_input true (ParseExpression 9) "1<2@(3-x)" = Some (Some e, st') /\
    operators e = ["<"%char] /\
    Forall (fun op => In op ["<"%char; "+"%char; "-"%char; "*"%char]) (operators e).
Proof.
  eexists. eexists. split; [vm_compute; reflexivity|]. split; [reflexivity|].
  apply (proj2 (proj2 (ParseExpression_operators 9
                         (set_CurTok tok_number
                            (set_NumVal (of_Z 1)
                               (set_input (code "<") "2@(3-x)" (after_install ""))))
                         _ _ ltac:(vm_compute; reflexivity)))).
  reflexivity.
Defined.

(** ** The names of a tree *)

Lemma getNextToken_token_ok (st : state) (t : Z) (st' : state) :
  lexer_ok st -> getNextToken st = Some (t, st') -> token_ok st'.
Proof.
  intros Hok H. unfold getNextToken, gettok in H.
  destruct (gettok_rec _ st) as [[t0 st0]|] eqn:E; [|discriminate].
  injection H as <- <-.
  apply gettok_rec_inv in E as (Hok' & _ & _ & _ & _ & Hid & _); [|exact Hok].
  split; [exact Hok'|]. simpl. exact Hid.
Qed.

Lemma GetTokPrecendence_payload (st : state) (v : Z) (st' : state) :
  GetTokPrecendence st = Some (v, st') -> IdentifierStr st' = IdentifierStr st.
Proof.
  intros H. unfold GetTokPrecendence in H. exec H;
    try (destruct (map_subscript _ _)); exec H; injection H as _ <-; reflexivity.
Qed.

Lemma parse_token_ok (f : nat) :
  preserves keeps_token_ok (ParsePrimary f) /\
  preserves keeps_token_ok (ParseParenExpr f) /\
  preserves keeps_token_ok (ParseIdentifierExpr f) /\
  (forall args, preserves keeps_token_ok (ParseIdentifierExpr_args f args)) /\
  preserves keeps_token_ok (ParseExpression f) /\
  (forall prec lhs, preserves keeps_token_ok (ParseBinOpRHS f prec lhs)).
Proof.
  apply parse_preserves; unfold keeps_token_ok.
  - auto.
  - auto.
  - intros st t st' H [Hok _]. eapply getNextToken_token_ok; eassumption.
  - intros st v st' H [Hok Hid].
    pose proof (GetTokPrecendence_payload _ _ _ H) as EI.
    apply GetTokPrecendence_frame in H as (E1 & E2 & E3 & _).
    unfold token_ok, lexer_ok. rewrite E1, E2, E3, EI. now split.
  - auto.
  - auto.
Qed.

Lemma GetTokPrecendence_token_ok st v st' :
  GetTokPrecendence st = Some (v, st') -> token_ok st -> token_ok st'.
Proof.
  intros H [Hok Hid].
  pose proof (GetTokPrecendence_payload _ _ _ H) as EI.
  apply GetTokPrecendence_frame in H as (E1 & E2 & E3 & _).
  unfold token_ok, lexer_ok. rewrite E1, E2, E3, EI. now split.
Qed.

Lemma ParsePrimary_token_ok f st r st' :
  ParsePrimary f st = Some (r, st') -> token_ok st -> token_ok st'.
Proof. apply parse_token_ok. Qed.

Lemma ParseParenExpr_token_ok f st r st' :
  ParseParenExpr f st = Some (r, st') -> token_ok st -> token_ok st'.
Proof. apply parse_token_ok. Qed.

Lemma ParseIdentifierExpr_token_ok f st r st' :
  ParseIdentifierExpr f st = Some (r, st') -> token_ok st -> token_ok st'.
Proof. apply parse_token_ok. Qed.

Lemma ParseIdentifierExpr_args_token_ok f args st r st' :
  ParseIdentifierExpr_args f args st = Some (r, st') -> token_ok st -> token_ok st'.
Proof. apply parse_token_ok. Qed.

Lemma ParseExpression_token_ok f st r st' :
  ParseExpression f st = Some (r, st') -> token_ok st -> token_ok st'.
Proof. apply parse_token_ok. Qed.

Lemma ParseBinOpRHS_token_ok f prec lhs st r st' :
  ParseBinOpRHS f prec lhs st = Some (r, st') -> token_ok st -> token_ok st'.
Proof. apply parse_token_ok. Qed.

Lemma getNextToken_keeps_token_ok st t st' :
  getNextToken st = Some (t, st') -> token_ok st -> token_ok st'.
Proof. intros H [Hok _]. eapply getNextToken_token_ok; eassumption. Qed.

Ltac ok_calls :=
  repeat match goal with
    | H : ?F ?s = Some (_, ?s') |- _ =>
        lazymatch goal with
        | _ : token_ok s' |- _ => fail
        | _ => idtac
        end;
        let G := fresh "G" in
        assert (G : token_ok s')
          by (first [ apply (getNextToken_keeps_token_ok _ _ _ H)
                    | apply (GetTokPrecendence_token_ok _ _ _ H)
                    | apply (ParsePrimary_token_ok _ _ _ _ H)
                    | apply (ParseParenExpr_token_ok _ _ _ _ H)
                    | apply (ParseIdentifierExpr_token_ok _ _ _ _ H)
                    | apply (ParseIdentifierExpr_args_token_ok _ _ _ _ _ H)
                    | apply (ParseExpression_token_ok _ _ _ _ H)
                    | apply (ParseBinOpRHS_token_ok _ _ _ _ _ _ H) ];
              simpl; assumption)
    end.

Lemma parse_names (f : nat) :
  (forall st e st', token_ok st -> ParsePrimary f st = Some (Some e, st') ->
     Forall identifier_name (names e)) /\
  (forall st e st', token_ok st -> ParseParenExpr f st = Some (Some e, st') ->
     Forall identifier_name (names e)) /\
  (forall st e st', token_ok st -> CurTok st = tok_identifier ->
     ParseIdentifierExpr f st = Some (Some e, st') ->
     Forall identifier_name (names e)) /\
  (forall args st l st', token_ok st ->
     Forall identifier_name (flat_map names args) ->
     ParseIdentifierExpr_args f args st = Some (Some l, st') ->
     Forall identifier_name (flat_map names l)) /\
  (forall st e st', token_ok st -> ParseExpression f st = Some (Some e, st') ->
     Forall identifier_name (names e)) /\
  (forall prec lhs st e st', token_ok st ->
     Forall identifier_name (names lhs) ->
     ParseBinOpRHS f prec lhs st = Some (Some e, st') ->
     Forall identifier_name (names e)).
Proof.
  induction f as [|f (IH1 & IH2 & IH3 & IH4 & IH5 & IH6)].
  - repeat (split; [intros; discriminate|]); intros; discriminate.
  - split; [|split; [|split; [|split; [|split]]]]; intros;
      match goal with
      | H : _ = Some _ |- _ =>
          cbn [ParsePrimary ParseParenExpr ParseIdentifierExpr
               ParseIdentifierExpr_args ParseExpression ParseBinOpRHS] in H;
          try unfold ParseNumberExpr in H;
          exec H
      end.
    all: try discriminate.
    all: ok_calls.
    all: try match goal with
          | H : Some _ = Some _ |- _ => injection H as <- <-
          end.
    all: repeat match goal with
           | H : (_ =? _) = true |- _ => apply Z.eqb_eq in H
           end.
    all: try (simpl; constructor).
    all: eauto.
    all: try match goal with
           | H : token_ok ?s, E : CurTok ?s = tok_identifier
             |- identifier_name (IdentifierStr ?s) => exact (proj2 H E)
           end.
    + eapply IH4; [| |eassumption]; [assumption|constructor].
    + rewrite flat_map_app. apply Forall_app. split; [assumption|].
      simpl. rewrite app_nil_r. eauto.
    + eapply IH4; [| |eassumption]; [assumption|].
      rewrite flat_map_app. apply Forall_app. split; [assumption|].
      simpl. rewrite app_nil_r. eauto.
    + apply (IH1 _ _ _ G0) in Heqo1.
      apply (IH6 _ _ _ _ _ G2 Heqo1) in Heqo3.
      eapply IH6; [| |eassumption]; [exact G3|].
      simpl. apply Forall_app. now split.
    + apply (IH1 _ _ _ G0) in Heqo1.
      eapply IH6; [| |eassumption]; [exact G2|].
      simpl. apply Forall_app. now split.
Qed.

(** X17.  Started in a state whose current token came from the lexer,
    [ParseExpression] returns trees whose variable and callee names are
    all of the identifier shape, and never "def" or "extern". *)
Theorem ParseExpression_names (f : nat) (st : state) (e : ExprAST) (st' : state) :
  token_ok st -> ParseExpression f st = Some (Some e, st') ->
  Forall identifier_name (names e).
Proof. apply parse_names. Qed.

Lemma ParseExpression_names_witness :
  exists e st',
    parse_input true (ParseExpression 9) "f(x, defs) + y" = Some (Some e, st') /\
    names e = ["f"; "x"; "defs"; "y"] /\
    Forall identifier_name (names e).
Proof.
  eexists. eexists. split; [vm_compute; reflexivity|]. split; [reflexivity|].
  eapply (ParseExpression_names 9
            (set_CurTok tok_identifier
               (set_IdentifierStr "f"
                  (set_input (code "(") "x, defs) + y" (after_install ""))))).
  - split; [right; vm_compute; split; discriminate|]. intros _.
    split; [reflexivity|]. split; discriminate.
  - vm_compute. reflexivity.
Defined.

Lemma ParsePrototype_args_names (f : nat) :
  forall argNames st l st',
    token_ok st -> Forall identifier_name argNames ->
    ParsePrototype_args f argNames st = Some (l, st') ->
    token_ok st' /\ Forall identifier_name l.
Proof.
  induction f as [|f IH]; intros argNames st l st' Hok Ha H; [discriminate|].
  cbn [ParsePrototype_args] in H. exec H.
  - pose proof (getNextToken_keeps_token_ok _ _ _ Heqo Hok) as G.
    pose proof (getNextToken_spec _ _ _ Heqo) as (Ec & _).
    apply Z.eqb_eq in Heqb.
    eapply IH; [exact G| |exact H].
    apply Forall_app. split; [exact Ha|].
    constructor; [|constructor]. apply (proj2 G). congruence.
  - injection H as <- <-.
    split; [|exact Ha]. eapply getNextToken_keeps_token_ok; eassumption.
Qed.

Lemma ParsePrototype_names (f : nat) (st : state) (p : PrototypeAST) (st' : state) :
  token_ok st -> ParsePrototype f st = Some (Some p, st') ->
  token_ok st' /\ identifier_name (proto_name p) /\
  Forall identifier_name (proto_args p).
Proof.
  intros Hok H. unfold ParsePrototype in H. exec H; try discriminate.
  injection H as <- <-. simpl.
  apply negb_false_iff, Z.eqb_eq in Heqb.
  pose proof (getNextToken_keeps_token_ok _ _ _ Heqo Hok) as G.
  destruct (ParsePrototype_args_names _ _ _ _ _ G (List.Forall_nil _) Heqo0) as [G1 Hn].
  pose proof (getNextToken_keeps_token_ok _ _ _ Heqo1 G1) as G2.
  split; [exact G2|]. split; [exact (proj2 Hok Heqb)|exact Hn].
Qed.

(** X18.  The same for definitions and externs: the function name and
    every parameter name of a prototype that [ParseDefinition] or
    [ParseExtern] returns is of the identifier shape and not a keyword,
    and so are the names in the body of a definition. *)
Theorem definition_names (f : nat) (st : state) :
  lexer_ok st ->
  (forall fn st', ParseDefinition f st = Some (Some fn, st') ->
     identifier_name (proto_name (prototype fn)) /\
     Forall identifier_name (proto_args (prototype fn)) /\
     Forall identifier_name (names (body fn))) /\
  (forall p st', ParseExtern f st = Some (Some p, st') ->
     identifier_name (proto_name p) /\ Forall identifier_name (proto_args p)).
Proof.
  intros Hok. split.
  - intros fn st' H. unfold ParseDefinition in H. exec H; try discriminate.
    injection H as <- <-. simpl.
    pose proof (getNextToken_token_ok _ _ _ Hok Heqo) as G.
    destruct (ParsePrototype_names _ _ _ _ G Heqo0) as (G1 & Hn & Ha).
    split; [exact Hn|]. split; [exact Ha|].
    destruct (parse_names f) as (_ & _ & _ & _ & HE & _).
    eapply HE; eassumption.
  - intros p st' H. unfold ParseExtern in H. exec H.
    pose proof (getNextToken_token_ok _ _ _ Hok Heqo) as G.
    now destruct (ParsePrototype_names _ _ _ _ G H) as (_ & Hn & Ha).
Qed.

Lemma definition_names_witness :
  exists fn st',
    ParseDefinition 8 (set_CurTok tok_def (initial_state "sq(x) x*x"))
    = Some (Some fn, st') /\
    proto_name (prototype fn) = "sq" /\
    identifier_name (proto_name (prototype fn)) /\
    Forall identifier_name (proto_args (prototype fn)) /\
    Forall identifier_name (names (body fn)).
Proof.
  eexists. eexists. split; [vm_compute; reflexivity|]. split; [reflexivity|].
  eapply (proj1 (definition_names 8 (set_CurTok tok_def (initial_state "sq(x) x*x"))
                   (initial_state_ok _))).
  vm_compute. reflexivity.
Defined.

(** ** The driver loop returns *)

Lemma getNextToken_remaining (st : state) (t : Z) (st' : state) :
  getNextToken st = Some (t, st') ->
  (remaining st' <= remaining st)%nat /\
  (t <> tok_eof -> (remaining st' < remaining st)%nat).
Proof.
  unfold getNextToken, gettok.
  destruct (gettok_rec _ st) as [[t0 st0]|] eqn:E; [|discriminate].
  intros H; injection H as <- <-.
  apply gettok_rec_spec in E as (_ & Hm & Hs). split; assumption.
Qed.

Lemma ParsePrototype_args_returns (n : nat) :
  forall st, (remaining st < n)%nat ->
    forall names, returns (fun f => ParsePrototype_args f names) st.
Proof.
  induction n as [|n IH]; intros st Hn names; [lia|]. unfold returns.
  destruct (getNextToken_total st) as (t & s & H).
  pose proof (getNextToken_remaining _ _ _ H) as [_ Hs].
  destruct (t =? tok_identifier) eqn:Et.
  - apply Z.eqb_eq in Et.
    assert (t <> tok_eof) as Hne by (rewrite Et; discriminate).
    specialize (Hs Hne).
    destruct (IH s ltac:(lia) (names ++ [IdentifierStr s])%list) as (f & r & Hr).
    exists (S f), r. cbn [ParsePrototype_args]. cbv [bind gets].
    rewrite H; cbv beta iota. apply Z.eqb_eq in Et. rewrite Et. exact Hr.
  - exists 1%nat, (names, s). cbn [ParsePrototype_args]. cbv [bind gets ret].
    rewrite H; cbv beta iota. now rewrite Et.
Qed.

Lemma ParsePrototype_returns (st : state) : returns ParsePrototype st.
Proof.
  unfold returns.
  destruct (negb (CurTok st =? tok_identifier)) eqn:E0.
  { exists 0%nat. eexists. unfold ParsePrototype. cbv [bind gets LogErrorP LogError modify ret].
    rewrite E0. reflexivity. }
  destruct (getNextToken_total st) as (t1 & s1 & H1).
  destruct (negb (CurTok s1 =? 40)) eqn:E1.
  { exists 0%nat. eexists. unfold ParsePrototype. cbv [bind gets LogErrorP LogError modify ret].
    rewrite E0, H1; cbv beta iota. rewrite E1. reflexivity. }
  destruct (ParsePrototype_args_returns (S (remaining s1)) s1 ltac:(lia) [])
    as (f & [l s2] & H2).
  destruct (negb (CurTok s2 =? 41)) eqn:E2.
  { exists f. eexists. unfold ParsePrototype.
    cbv [bind gets LogErrorP LogError modify ret].
    rewrite E0, H1; cbv beta iota. rewrite E1, H2; cbv beta iota. rewrite E2. reflexivity. }
  destruct (getNextToken_total s2) as (t3 & s3 & H3).
  exists f. eexists. unfold ParsePrototype.
  cbv [bind gets LogErrorP LogError modify ret make_unique].
  rewrite E0, H1; cbv beta iota. rewrite E1, H2; cbv beta iota. rewrite E2, H3. reflexivity.
Qed.

Lemma ParsePrototype_pending (f : nat) : preserves no_more_pending (ParsePrototype f).
Proof.
  apply ParsePrototype_preserves; unfold no_more_pending.
  - intros; lia.
  - intros; lia.
  - exact getNextToken_pending.
  - intros; apply Nat.le_refl.
  - intros; apply Nat.le_refl.
Qed.

(** A primary that fails at once has read nothing and left the current
    token in place; in every other case a token was consumed. *)
Lemma ParsePrimary_progress (f : nat) (st : state) r (st' : state) :
  CurTok st <> tok_eof -> ParsePrimary f st = Some (r, st') ->
  (pending st' < pending st)%nat \/
  (r = None /\ CurTok st' = CurTok st /\ pending st' = pending st).
Proof.
  intros Hc. destruct f as [|f]; [discriminate|]. cbn [ParsePrimary].
  unfold bind at 1, gets.
  destruct (CurTok st =? tok_identifier) eqn:Ei;
    [|destruct (CurTok st =? tok_number) eqn:En;
      [|destruct (CurTok st =? 40) eqn:Ep]].
  - destruct f as [|f]; [discriminate|]. cbn [ParseIdentifierExpr]. intros H. left.
    exec H; pending_facts; lia.
  - unfold ParseNumberExpr. intros H. left.
    exec H.
    match goal with
    | H1 : getNextToken _ = Some _ |- _ =>
        apply getNextToken_spec in H1; destruct H1 as (_ & _ & _ & _ & _ & L)
    end.
    injection H as _ <-. apply L. exact Hc.
  - destruct f as [|f]; [discriminate|]. cbn [ParseParenExpr]. intros H. left.
    exec H; pending_facts; lia.
  - unfold LogError, bind, modify, ret. intros H. injection H as <- <-.
    right. repeat split.
Qed.

Lemma ParseExpression_progress (f : nat) (st : state) r (st' : state) :
  CurTok st <> tok_eof -> ParseExpression f st = Some (r, st') ->
  (pending st' < pending st)%nat \/
  (r = None /\ CurTok st' = CurTok st /\ pending st' = pending st).
Proof.
  intros Hc. destruct f as [|f]; [discriminate|]. cbn [ParseExpression].
  unfold bind at 1.
  destruct (ParsePrimary f st) as [[[lhs|] s]|] eqn:H1; [| |discriminate].
  - intros H. left.
    apply ParsePrimary_consumes in H1.
    apply parse_pending in H. unfold no_more_pending in H. lia.
  - intros H. injection H as <- <-.
    now apply (ParsePrimary_progress f st None s Hc).
Qed.

Lemma ParseExtern_le f f' : (f <= f')%nat -> le (ParseExtern f) (ParseExtern f').
Proof.
  intros Hf. unfold ParseExtern.
  apply le_bind; [apply le_refl|intros _]. now apply ParsePrototype_le.
Qed.

Lemma HandleDefinition_le f f' :
  (f <= f')%nat -> le (HandleDefinition f) (HandleDefinition f').
Proof.
  intros Hf. unfold HandleDefinition.
  apply le_bind; [now apply ParseDefinition_le|intros a; apply le_refl].
Qed.

Lemma HandleExtern_le f f' :
  (f <= f')%nat -> le (HandleExtern f) (HandleExtern f').
Proof.
  intros Hf. unfold HandleExtern.
  apply le_bind; [now apply ParseExtern_le|intros a; apply le_refl].
Qed.

Lemma HandleTopLevelExpression_le f f' :
  (f <= f')%nat -> le (HandleTopLevelExpression f) (HandleTopLevelExpression f').
Proof.
  intros Hf. unfold HandleTopLevelExpression.
  apply le_bind; [now apply ParseTopLevelExpr_le|intros a; apply le_refl].
Qed.

Lemma MainLoop_le (f : nat) :
  forall f', (f <= f')%nat -> le (MainLoop f) (MainLoop f').
Proof.
  induction f as [|f IH]; intros f' Hf; [apply le_out_of_fuel|].
  destruct f' as [|f']; [lia|]. cbn [MainLoop].
  assert (Hf' : (f <= f')%nat) by lia.
  apply le_bind; [apply le_refl|intros _].
  apply le_bind; [apply le_refl|intros tok].
  destruct (tok =? tok_eof); [apply le_refl|].
  destruct (tok =? 59).
  { apply le_bind; [apply le_refl|intros _]. now apply IH. }
  destruct (tok =? tok_def).
  { apply le_bind; [now apply HandleDefinition_le|intros _]. now apply IH. }
  destruct (tok =? tok_extern).
  { apply le_bind; [now apply HandleExtern_le|intros _]. now apply IH. }
  apply le_bind; [now apply HandleTopLevelExpression_le|intros _]. now apply IH.
Qed.

(** Each handler returns, and on a token that is not the end of input it
    leaves fewer tokens pending than it found. *)
Lemma HandleTopLevelExpression_returns (st : state) :
  CurTok st <> tok_eof ->
  exists f st', HandleTopLevelExpression f st = Some (tt, st') /\
                (pending st' < pending st)%nat.
Proof.
  intros Hc.
  destruct (parse_returns (S (pending st)) st ltac:(lia)) as (_ & _ & HE & _).
  destruct HE as (f & [r s] & H).
  pose proof (ParseExpression_progress _ _ _ _ Hc H) as Hp.
  destruct r as [e|].
  - exists f. eexists. unfold HandleTopLevelExpression, ParseTopLevelExpr.
    cbv [bind ret make_unique modify fprintf_stderr]. rewrite H; cbv beta iota.
    split; [reflexivity|].
    destruct Hp as [Hp|(Hp & _)]; [|discriminate].
    unfold pending, remaining in *. simpl. exact Hp.
  - destruct (getNextToken_total s) as (t & s' & H').
    pose proof (getNextToken_spec _ _ _ H') as (_ & _ & _ & _ & L1 & L2).
    exists f, s'. unfold HandleTopLevelExpression, ParseTopLevelExpr.
    cbv [bind ret make_unique modify fprintf_stderr]. rewrite H; cbv beta iota.
    rewrite H'. split; [reflexivity|].
    destruct Hp as [Hp|(_ & Ec & Ep)]; [lia|].
    rewrite <- Ep. apply L2. now rewrite Ec.
Qed.

Lemma HandleExtern_returns (st : state) :
  CurTok st <> tok_eof ->
  exists f st', HandleExtern f st = Some (tt, st') /\
                (pending st' < pending st)%nat.
Proof.
  intros Hc.
  destruct (getNextToken_total st) as (t1 & s1 & H1).
  pose proof (getNextToken_spec _ _ _ H1) as (_ & _ & _ & _ & _ & L1).
  specialize (L1 Hc).
  destruct (ParsePrototype_returns s1) as (f & [r s2] & H2).
  pose proof (ParsePrototype_pending _ _ _ _ H2) as L2. unfold no_more_pending in L2.
  destruct r as [p|].
  - exists f. eexists. unfold HandleExtern, ParseExtern.
    cbv [bind ret make_unique modify fprintf_stderr]. rewrite H1; cbv beta iota.
    rewrite H2. split; [reflexivity|].
    unfold pending, remaining in *. simpl. lia.
  - destruct (getNextToken_total s2) as (t3 & s3 & H3).
    pose proof (getNextToken_pending _ _ _ H3) as L3. unfold no_more_pending in L3.
    exists f, s3. unfold HandleExtern, ParseExtern.
    cbv [bind ret make_unique modify fprintf_stderr]. rewrite H1; cbv beta iota.
    rewrite H2; cbv beta iota. rewrite H3. split; [reflexivity|lia].
Qed.

Lemma HandleDefinition_returns (st : state) :
  CurTok st <> tok_eof ->
  exists f st', HandleDefinition f st = Some (tt, st') /\
                (pending st' < pending st)%nat.
Proof.
  intros Hc.
  destruct (getNextToken_total st) as (t1 & s1 & H1).
  pose proof (getNextToken_spec _ _ _ H1) as (_ & _ & _ & _ & _ & L1).
  specialize (L1 Hc).
  destruct (ParsePrototype_returns s1) as (f1 & [r s2] & H2).
  pose proof (ParsePrototype_pending _ _ _ _ H2) as L2. unfold no_more_pending in L2.
  destruct r as [p|].
  2: { destruct (getNextToken_total s2) as (t3 & s3 & H3).
       pose proof (getNextToken_pending _ _ _ H3) as L3. unfold no_more_pending in L3.
       exists f1, s3. unfold HandleDefinition, ParseDefinition.
       cbv [bind ret make_unique modify fprintf_stderr]. rewrite H1; cbv beta iota.
       rewrite H2; cbv beta iota. rewrite H3. split; [reflexivity|lia]. }
  destruct (parse_returns (S (pending s2)) s2 ltac:(lia)) as (_ & _ & HE & _).
  destruct HE as (f2 & [r s3] & H3).
  pose proof (proj1 (proj2 (proj2 (proj2 (proj2 (parse_pending f2))))) _ _ _ H3) as L3.
  unfold no_more_pending in L3.
  pose (F := Nat.max f1 f2).
  assert (HF1 : (f1 <= F)%nat) by (unfold F; lia).
  assert (HF2 : (f2 <= F)%nat) by (unfold F; lia).
  apply (ParsePrototype_le f1 F HF1) in H2.
  apply (ParseExpression_le f2 F HF2) in H3.
  destruct r as [e|].
  - exists F. eexists. unfold HandleDefinition, ParseDefinition.
    cbv [bind ret make_unique modify fprintf_stderr]. rewrite H1; cbv beta iota.
    rewrite H2; cbv beta iota. rewrite H3. split; [reflexivity|].
    unfold pending, remaining in *. simpl. lia.
  - destruct (getNextToken_total s3) as (t4 & s4 & H4).
    pose proof (getNextToken_pending _ _ _ H4) as L4. unfold no_more_pending in L4.
    exists F, s4. unfold HandleDefinition, ParseDefinition.
    cbv [bind ret make_unique modify fprintf_stderr]. rewrite H1; cbv beta iota.
    rewrite H2; cbv beta iota. rewrite H3; cbv beta iota. rewrite H4.
    split; [reflexivity|lia].
Qed.

Lemma MainLoop_returns (n : nat) :
  forall st, (pending st < n)%nat ->
    exists f st', MainLoop f st = Some (tt, st') /\ CurTok st' = tok_eof.
Proof.
  induction n as [|n IH]; intros st Hn; [lia|].
  set (st0 := write_stderr "ready> " st).
  assert (Hp0 : pending st0 = pending st) by reflexivity.
  assert (Hc0 : CurTok st0 = CurTok st) by reflexivity.
  destruct (CurTok st =? tok_eof) eqn:Ee.
  { exists 1%nat, st0. cbn [MainLoop]. cbv [bind gets ret fprintf_stderr modify].
    cbn [CurTok write_stderr]. rewrite Ee. split; [reflexivity|].
    now apply Z.eqb_eq in Ee. }
  assert (Hc : CurTok st0 <> tok_eof) by (rewrite Hc0; now apply Z.eqb_neq).
  assert (Hstep : forall (body : nat -> M unit),
             (forall f f', (f <= f')%nat -> le (body f) (body f')) ->
             (exists f s, body f st0 = Some (tt, s) /\ (pending s < pending st0)%nat) ->
             exists F st', (let* _ := body F in MainLoop F) st0 = Some (tt, st')
                           /\ CurTok st' = tok_eof).
  { intros body Hle (f1 & s & H1 & L1).
    destruct (IH s ltac:(lia)) as (f2 & st' & H2 & E2).
    pose (F := Nat.max f1 f2).
    assert (HF1 : (f1 <= F)%nat) by (unfold F; lia).
    assert (HF2 : (f2 <= F)%nat) by (unfold F; lia).
    exists F, st'. split; [|exact E2]. unfold bind.
    rewrite (Hle f1 F HF1 _ _ H1). apply (MainLoop_le f2 F HF2). exact H2. }
  destruct (CurTok st =? 59) eqn:Es.
  { destruct (Hstep (fun _ => let* _ := getNextToken in ret tt)) as (F & st' & H & E).
    - intros; apply le_refl.
    - destruct (getNextToken_total st0) as (t & s & H).
      pose proof (getNextToken_spec _ _ _ H) as (_ & _ & _ & _ & _ & L).
      exists 0%nat, s. cbv [bind ret]. rewrite H. split; [reflexivity|now apply L].
    - exists (S F), st'. split; [|exact E].
      cbn [MainLoop]. cbv [bind gets ret fprintf_stderr modify] in H |- *.
      fold st0. rewrite Hc0, Ee, Es.
      destruct (getNextToken st0) as [[t s]|]; [exact H|discriminate]. }
  destruct (CurTok st =? tok_def) eqn:Ed.
  { destruct (Hstep HandleDefinition HandleDefinition_le
                (HandleDefinition_returns st0 Hc)) as (F & st' & H & E).
    exists (S F), st'. split; [|exact E].
    cbn [MainLoop]. cbv [bind gets ret fprintf_stderr modify] in H |- *.
    fold st0. rewrite Hc0, Ee, Es, Ed. exact H. }
  destruct (CurTok st =? tok_extern) eqn:Ex.
  { destruct (Hstep HandleExtern HandleExtern_le
                (HandleExtern_returns st0 Hc)) as (F & st' & H & E).
    exists (S F), st'. split; [|exact E].
    cbn [MainLoop]. cbv [bind gets ret fprintf_stderr modify] in H |- *.
    fold st0. rewrite Hc0, Ee, Es, Ed, Ex. exact H. }
  destruct (Hstep HandleTopLevelExpression HandleTopLevelExpression_le
              (HandleTopLevelExpression_returns st0 Hc)) as (F & st' & H & E).
  exists (S F), st'. split; [|exact E].
  cbn [MainLoop]. cbv [bind gets ret fprintf_stderr modify] in H |- *.
  fold st0. rewrite Hc0, Ee, Es, Ed, Ex. exact H.
Qed.

(** X19.  The driver loop returns on every input.  Whatever the state it
    is started in, from some fuel on [MainLoop] returns one and the same
    final state, in which the current token is the end of input: every
    round of the loop consumes at least one token, the error recovery of
    the handlers included. *)
Theorem MainLoop_terminates (st : state) :
  exists fuel0 st',
    (forall k, MainLoop (fuel0 + k) st = Some (tt, st')) /\
    CurTok st' = tok_eof /\ (pending st' <= pending st)%nat.
Proof.
  destruct (MainLoop_returns (S (pending st)) st ltac:(lia)) as (f & st' & H & E).
  exists f, st'. split; [|split; [exact E|]].
  - intros k. apply (MainLoop_le f); [lia|exact H].
  - assert (Hp : preserves no_more_pending (MainLoop f)).
    { apply MainLoop_preserves; unfold no_more_pending.
      - intros; lia.
      - intros; lia.
      - exact getNextToken_pending.
      - exact GetTokPrecendence_pending.
      - intros; apply Nat.le_refl.
      - intros; apply Nat.le_refl. }
    exact (Hp _ _ _ H).
Qed.

(** ** Chains of operators of one precedence *)

Lemma installed_operator (o : ascii) (p : Z) :
  installed_table !! o = Some p ->
  0 < p /\ isascii (code o) = true /\ to_char (code o) = o /\
  punctuation (code o) = true /\ number_char (code o) = false.
Proof.
  intros H. apply installed_table_entries in H. simpl in H.
  repeat match goal with
         | H : _ \/ _ |- _ => destruct H
         | H : (_, _) = (_, _) |- _ => inversion H; clear H; subst
         | H : False |- _ => destruct H
         end; repeat split; reflexivity.
Qed.

Lemma stops_operands (p : Z) (ops : list ascii) :
  Forall (fun o => installed_table !! o = Some p) ops ->
  stops number_char (operands ops) = true.
Proof.
  intros H. destruct H as [|o ops Ho _]; [reflexivity|].
  apply installed_operator in Ho as (_ & _ & _ & _ & Hn). simpl. now rewrite Hn.
Qed.

(** Reading the operand "1" of a chain and the token behind it. *)
Lemma ParsePrimary_operand (p : Z) (ops : list ascii) (f : nat)
      (ws : string) (st : state) :
  Forall (fun o => installed_table !! o = Some p) ops ->
  lexer_ok st -> BinopPrecedence st = installed_table ->
  every isspace ws = true -> lexer_input st = ws ++ ones ops ->
  exists s1 s2,
    getNextToken st = Some (tok_number, s1) /\
    ParsePrimary (S f) s1 = Some (Some (Num 1), s2) /\
    chain_state ops s2 /\ stderr s2 = stderr st /\
    constructed s2 = (constructed st ++ [NumberNode])%list.
Proof.
  intros Hops Hok Ht Hws Hin.
  pose proof (gettok_number_at ws "1" (operands ops) st Hok Hin Hws
                ltac:(discriminate) eq_refl (stops_operands p ops Hops)) as H1.
  set (s0 := set_CurTok tok_number
               (at_input (operands ops) (set_NumVal (strtod "1") st))).
  set (s1 := record_node NumberNode s0).
  assert (Hok1 : lexer_ok s1) by apply lexer_ok_at_input.
  assert (Hin1 : lexer_input s1 = operands ops) by apply lexer_input_at_input.
  assert (Hfields : NumVal s0 = of_Z 1 /\ BinopPrecedence s1 = installed_table /\
                    stderr s1 = stderr st /\
                    constructed s1 = (constructed st ++ [NumberNode])%list).
  { unfold s1, s0, at_input. destruct (getchar (operands ops)).
    repeat split. exact Ht. }
  destruct Hfields as (Hnum & Ht1 & He1 & Hc1).
  assert (Hgo : forall t s2, gettok s1 = Some (t, s2) ->
                  ParsePrimary (S f) s0 = Some (Some (Num 1), set_CurTok t s2)).
  { intros t s2 H2. cbn [ParsePrimary]. unfold bind at 1, gets.
    change (CurTok s0) with tok_number.
    change (tok_number =? tok_identifier) with false.
    change (tok_number =? tok_number) with true. cbv iota.
    unfold ParseNumberExpr. cbv [bind gets ret make_unique modify].
    fold s1. unfold getNextToken. rewrite H2, Hnum. reflexivity. }
  assert (Hnext : getNextToken st = Some (tok_number, s0)).
  { unfold getNextToken. rewrite H1. reflexivity. }
  inversion Hops as [|o ops' Ho Hops' E]; subst ops.
  - (* the chain ends here *)
    assert (LastChar s1 = EOF) as HL by reflexivity.
    exists s0, (set_CurTok tok_eof s1).
    split; [exact Hnext|]. split; [apply Hgo, gettok_eof_again, HL|].
    split; [|split; assumption].
    repeat split; assumption.
  - apply installed_operator in Ho as (_ & _ & _ & Hp & _).
    pose proof (gettok_character_at "" o (String "1" (operands ops')) s1
                  Hok1 Hin1 eq_refl Hp) as H2.
    exists s0, (set_CurTok (code o) (at_input (String "1" (operands ops')) s1)).
    split; [exact Hnext|]. split; [apply Hgo, H2|].
    split; [|split; assumption].
    repeat split; try assumption.
    exact (lexer_ok_at_input (String "1" (operands ops')) s1).
Qed.

Lemma chain_query (p : Z) (ops : list ascii) (st : state) :
  Forall (fun o => installed_table !! o = Some p) ops -> chain_state ops st ->
  GetTokPrecendence st = Some (match ops with [] => -1 | _ => p end, st) /\
  (ops <> [] -> 0 < p).
Proof.
  intros Hops (Hok & Ht & Hc). destruct Hops as [|o ops Ho _].
  - destruct Hc as [Hc _]. split; [|congruence].
    apply GetTokPrecendence_not_ascii. now rewrite Hc.
  - destruct Hc as [Hc _].
    apply installed_operator in Ho as Hf. destruct Hf as (Hp & Ha & Hch & _).
    split; [|intros _; exact Hp].
    rewrite (GetTokPrecendence_present st p).
    + assert ((p <=? 0) = false) as -> by lia. reflexivity.
    + now rewrite Hc.
    + rewrite Ht. apply installed_table_nonempty.
    + now rewrite Hc, Hch, Ht.
Qed.

Lemma chain_loop (p : Z) (ops : list ascii) :
  Forall (fun o => installed_table !! o = Some p) ops ->
  forall (lhs : ExprAST) (st : state) (k : nat),
    chain_state ops st ->
    exists st',
      ParseBinOpRHS (S (length ops + k)) 0 lhs st
      = Some (Some (left_nested ops lhs), st') /\
      CurTok st' = tok_eof /\ stderr st' = stderr st.
Proof.
  induction 1 as [|o ops Ho Hops IH]; intros lhs st k Hst.
  - destruct (chain_query p [] st (List.Forall_nil _) Hst) as (Hq & _).
    exists st. rewrite (ParseBinOpRHS_exit_at_once _ 0 lhs st (-1) st Hq) by lia.
    split; [reflexivity|]. split; [apply Hst|reflexivity].
  - destruct (chain_query p (o :: ops) st (List.Forall_cons _ _ _ Ho Hops) Hst)
      as (Hq & Hv).
    assert (Hp : 0 < p) by (apply Hv; discriminate).
    pose proof Hst as (Hok & Ht & Hc & Hin).
    destruct (ParsePrimary_operand p ops (length ops + k) "" st Hops Hok Ht eq_refl Hin)
      as (s1 & s2 & H1 & H2 & Hs2 & He2 & _).
    destruct (chain_query p ops s2 Hops Hs2) as (Hq' & _).
    apply installed_operator in Ho as Hf. destruct Hf as (_ & _ & Hch & _).
    destruct (IH (BinaryExprAST o lhs (Num 1)) (record_node BinaryNode s2) k)
      as (st' & H3 & Hc3 & He3).
    { exact Hs2. }
    exists st'. split; [|split; [exact Hc3|]].
    2: { rewrite He3. exact He2. }
    change (length (o :: ops) + k)%nat with (S (length ops + k)).
    cbn [ParseBinOpRHS]. cbv [bind gets ret make_unique modify].
    rewrite Hq; cbv beta iota.
    assert ((p <? 0) = false) as -> by lia.
    rewrite H1; cbv beta iota. rewrite H2; cbv beta iota.
    rewrite Hq'; cbv beta iota.
    assert ((p <? match ops with [] => -1 | _ => p end) = false) as ->
      by (destruct ops; lia).
    rewrite Hc, Hch. exact H3.
Qed.

(** X20.  Chains of any length group to the left.  For any list of
    operators to which the installed table gives one and the same
    precedence, the text [1 o1 1 o2 1 ...] parses to the tree that nests
    to the left, with the whole input consumed and nothing printed. *)
Theorem equal_precedence_chain_left (p : Z) (ops : list ascii) :
  Forall (fun o => installed_table !! o = Some p) ops ->
  forall fuel, exists st,
    parse_input true (ParseExpression (3 + length ops + fuel)) (ones ops)
    = Some (Some (left_nested ops (Num 1)), st) /\
    CurTok st = tok_eof /\ stderr st = [].
Proof.
  intros Hops fuel. rewrite parse_input_unfold.
  set (st0 := prepared true (ones ops)).
  assert (Hok0 : lexer_ok st0) by (right; cbn; lia).
  destruct (ParsePrimary_operand p ops (1 + length ops + fuel) " " st0
              Hops Hok0 eq_refl eq_refl eq_refl)
    as (s1 & s2 & H1 & H2 & Hs2 & He2 & _).
  destruct (chain_loop p ops Hops (Num 1) s2 (1 + fuel)%nat Hs2)
    as (st' & H3 & Hc3 & He3).
  exists st'. split; [|split; [exact Hc3|]].
  2: { rewrite He3, He2. reflexivity. }
  rewrite H1.
  change (3 + length ops + fuel)%nat with (S (S (1 + length ops + fuel))).
  cbn [ParseExpression]. unfold bind at 1. rewrite H2; cbv beta iota.
  replace (S (1 + length ops + fuel)) with (S (length ops + (1 + fuel))) by lia.
  exact H3.
Qed.

Lemma equal_precedence_chain_left_witness :
  exists st,
    parse_input true (ParseExpression 6) "1+1-1+1"
    = Some (Some (BinaryExprAST "+"
                    (BinaryExprAST "-"
                       (BinaryExprAST "+" (Num 1) (Num 1)) (Num 1)) (Num 1)), st) /\
    CurTok st = tok_eof /\ stderr st = [].
Proof.
  apply (equal_precedence_chain_left 20 ["+"%char; "-"%char; "+"%char]
           ltac:(repeat constructor) 0%nat).
Defined.
